(** * Mindsky: the layout and shape engine, embedded and verified

    The development follows the TypeScript sources module by module:
    - [config/layout.ts]            the [LAYOUT] constants,
    - [services/physics.ts]         [createNodes], the drag state, [applyForces],
    - [utils/SeededRandom.ts]       the mulberry32 generator and [createMorphSeed],
    - [components/Cloud.ts]         [computeMorphPuffs] and the morph part of [update],
    - [components/SkyCanvas.tsx]    the focus layout of [refreshFocusLayout].

    JavaScript numbers are kept abstract behind the signature [JsNumber]; the
    programs are written once against it.  Two instances are given: IEEE-754
    binary64 ([float], what the engine really computes with, and what the
    examples run on) and the real numbers ([R], exact arithmetic, used for the
    geometric statements).  Statements that do not depend on arithmetic are
    proved for every instance. *)

From Stdlib Require Import ZArith QArith Qreals Reals Lra Lia Floats Uint63 Ascii String.
From stdpp Require Import base option list gmap strings pretty.

(** ** JavaScript numbers *)

(** The result of [Math.round]: an integer, or one of the non-finite values. *)
Inductive rounded := RInt (z : Z) | RNaN | RInfinity (negative : bool).

Class JsNumber (num : Type) := {
  lit : Q -> num;                 (* a numeric literal, or an integer made a number *)
  add : num -> num -> num;
  sub : num -> num -> num;
  mul : num -> num -> num;
  div : num -> num -> num;
  opp : num -> num;
  sqrt : num -> num;              (* Math.sqrt *)
  abs : num -> num;               (* Math.abs *)
  floor : num -> num;             (* Math.floor *)
  round : num -> rounded;         (* Math.round *)
  max : num -> num -> num;        (* Math.max *)
  min : num -> num -> num;        (* Math.min *)
  lt : num -> num -> bool;        (* a < b *)
  truthy : num -> bool;           (* ToBoolean: false on 0 and NaN *)
  loop_bound : num -> nat;        (* how often [for (i = 0; i < b; i++)] iterates *)
}.

(** [Math.cos], [Math.sin] and [Math.PI]: not part of IEEE-754, kept in a
    signature of their own. *)
Class JsTrig (num : Type) := {
  cos : num -> num;
  sin : num -> num;
  PI : num;
}.

Declare Scope num_scope.
Delimit Scope num_scope with num.
Infix "+" := add : num_scope.
Infix "-" := sub : num_scope.
Infix "*" := mul : num_scope.
Infix "/" := div : num_scope.
Notation "- a" := (opp a) : num_scope.
Notation "a <? b" := (lt a b) : num_scope.
Notation "a >? b" := (lt b a) : num_scope.

Definition of_Z {num : Type} `{!JsNumber num} (z : Z) : num := lit (inject_Z z).
Definition of_nat {num : Type} `{!JsNumber num} (n : nat) : num := of_Z (Z.of_nat n).

(** *** IEEE-754 binary64 *)

(** An integer as the nearest float. *)
Definition float_of_Z (z : Z) : float :=
  SF2Prim (binary_normalize prec emax z 0 false).

(** The exact value [m * 2^e] of a finite float, rounded down to an integer. *)
Definition Z_floor_scaled (m e : Z) : Z :=
  match e with
  | Zneg p => Z.shiftr m (Zpos p)
  | _ => Z.shiftl m e
  end.

Definition float_floor_Z (f : float) : option Z :=
  match Prim2SF f with
  | S754_zero _ => Some 0%Z
  | S754_finite s m e =>
      Some (Z_floor_scaled (if s then Zneg m else Zpos m) e)
  | _ => None
  end.

Definition float_floor (f : float) : float :=
  match Prim2SF f with
  | S754_finite _ _ (Zneg _) =>
      match float_floor_Z f with Some z => float_of_Z z | None => f end
  | _ => f
  end.

(** [Math.round]: the nearest integer, ties towards +infinity. *)
Definition float_round (f : float) : rounded :=
  match Prim2SF f with
  | S754_zero _ => RInt 0
  | S754_finite s m e =>
      let v := if s then Zneg m else Zpos m in
      RInt (match e with
            | Zneg p => Z.shiftr (2 * v + Z.shiftl 1 (Zpos p)) (Zpos p + 1)
            | _ => Z.shiftl v e
            end)
  | S754_infinity s => RInfinity s
  | S754_nan => RNaN
  end.

Definition float_max (a b : float) : float :=
  if PrimFloat.is_nan a || PrimFloat.is_nan b then PrimFloat.nan
  else if PrimFloat.ltb a b then b
  else if PrimFloat.ltb b a then a
  else if PrimFloat.get_sign a then b else a.

Definition float_min (a b : float) : float :=
  if PrimFloat.is_nan a || PrimFloat.is_nan b then PrimFloat.nan
  else if PrimFloat.ltb a b then a
  else if PrimFloat.ltb b a then b
  else if PrimFloat.get_sign a then a else b.

(** The least [n] with [not (n < b)]; a loop whose bound is +infinity does not
    end, no bound in these sources is infinite. *)
Definition float_loop_bound (b : float) : nat :=
  if PrimFloat.ltb PrimFloat.zero b then
    match float_floor_Z (PrimFloat.opp b) with
    | Some z => Z.to_nat (- z)
    | None => 0
    end
  else 0.

#[export] Instance float_number : JsNumber float := {|
  lit q := PrimFloat.div (float_of_Z (Qnum q)) (float_of_Z (Zpos (Qden q)));
  add := PrimFloat.add;
  sub := PrimFloat.sub;
  mul := PrimFloat.mul;
  div := PrimFloat.div;
  opp := PrimFloat.opp;
  sqrt := PrimFloat.sqrt;
  abs := PrimFloat.abs;
  floor := float_floor;
  round := float_round;
  max := float_max;
  min := float_min;
  lt := PrimFloat.ltb;
  truthy f := negb (PrimFloat.is_nan f || PrimFloat.is_zero f);
  loop_bound := float_loop_bound;
|}.

(** *** Exact real arithmetic *)

#[export] Instance Rlt_decision (a b : R) : Decision (a < b)%R := Rlt_dec a b.
#[export] Instance Req_decision : EqDecision R := Req_dec_T.

#[export] Instance real_number : JsNumber R := {|
  lit q := Q2R q;
  add := Rplus;
  sub := Rminus;
  mul := Rmult;
  div := Rdiv;
  opp := Ropp;
  sqrt := R_sqrt.sqrt;
  abs := Rabs;
  floor r := IZR (Zfloor r);
  round r := RInt (Zfloor (r + / 2));
  max := Rmax;
  min := Rmin;
  lt a b := bool_decide (a < b)%R;
  truthy r := bool_decide (r <> 0%R);
  loop_bound b := Z.to_nat (Zceil b);
|}.

#[export] Instance real_trig : JsTrig R := {|
  cos := Rtrigo_def.cos;
  sin := Rtrigo_def.sin;
  PI := Rtrigo1.PI;
|}.

(** JavaScript truthiness of a string: only the empty string is falsy. *)
Definition truthy_string (s : string) : bool := negb (bool_decide (s = EmptyString)).

(** ** types/index.ts *)

Inductive EntityType := milestone | task | subtask.

#[export] Instance EntityType_eq_dec : EqDecision EntityType.
Proof. solve_decision. Defined.

Section Types.
Context {num : Type}.

(** [CloudNode] without its [entity] back reference, which the engine never reads. *)
Record CloudNode := mkCloudNode {
  node_id : string;
  node_type : EntityType;
  node_x : num;
  node_y : num;
  node_vx : num;
  node_vy : num;
  node_radius : num;
  node_parentId : option string;
}.

Record Subtask := mkSubtask {
  subtask_id : string;
  subtask_completed : bool;
}.

Record Task := mkTask {
  task_id : string;
  task_completed : bool;
  task_subtasks : list Subtask;      (* [subtasks?]: absent is read as empty *)
}.

Record Milestone := mkMilestone {
  milestone_id : string;
  milestone_x : option num;          (* [x?: number] *)
  milestone_y : option num;          (* [y?: number] *)
  milestone_tasks : list Task;       (* [tasks?]: absent is read as empty *)
}.

Definition set_position (px py : num) (n : CloudNode) : CloudNode :=
  mkCloudNode (node_id n) (node_type n) px py (node_vx n) (node_vy n)
              (node_radius n) (node_parentId n).

Definition set_velocity (pvx pvy : num) (n : CloudNode) : CloudNode :=
  mkCloudNode (node_id n) (node_type n) (node_x n) (node_y n) pvx pvy
              (node_radius n) (node_parentId n).
End Types.
Arguments CloudNode : clear implicits.
Arguments Subtask : clear implicits.
Arguments Task : clear implicits.
Arguments Milestone : clear implicits.

(** ** config/layout.ts *)

Module LAYOUT.
Section Layout.
Context {num : Type} `{!JsNumber num}.
Definition TASK_ORBIT_RADIUS_MIN : num := lit 120.
Definition TASK_ORBIT_RADIUS_MAX : num := lit 160.
Definition MILESTONE_RADIUS : num := lit 80.
Definition TASK_RADIUS_BASE : num := lit 45.
Definition TASK_RADIUS_PER_SUBTASK : num := lit 5.
Definition SUBTASK_RADIUS : num := lit 20.
Definition REPULSION_STRENGTH : num := lit 150.
Definition DAMPING : num := lit 0.92.
Definition DRAG_PUSH_RADIUS : num := lit 50.
Definition DRAG_PUSH_STRENGTH : num := lit 4.
Definition DRAG_VELOCITY_TRANSFER : num := lit 0.3.
Definition MAX_VELOCITY : num := lit 5.
Definition PARENT_ATTRACTION_STRENGTH : num := lit 0.01.
Definition ORBIT_STIFFNESS : num := lit 0.005.
Definition SUBTASK_ORBIT_RADIUS : num := lit 60.
End Layout.
End LAYOUT.

(** ** services/physics.ts: the drag state and the force simulator *)

Section DragState.
Context {num : Type} `{!JsNumber num}.
Local Open Scope num_scope.

(** The module-level singleton [dragState], passed explicitly. *)
Record DragState := mkDragState {
  drag_nodeId : option string;
  drag_x : num;
  drag_y : num;
  drag_prevX : num;
  drag_prevY : num;
  drag_vx : num;
  drag_vy : num;
}.

Definition initialDragState : DragState :=
  mkDragState None (lit 0) (lit 0) (lit 0) (lit 0) (lit 0) (lit 0).

Definition startDragPhysics (nodeId : string) (px py : num) (_ : DragState) : DragState :=
  mkDragState (Some nodeId) px py px py (lit 0) (lit 0).

Definition updateDragPhysics (px py : num) (d : DragState) : DragState :=
  match drag_nodeId d with
  | Some s =>
      if truthy_string s then
        (* prevX/prevY take the old position before the velocity is computed *)
        mkDragState (drag_nodeId d) px py (drag_x d) (drag_y d)
          ((px - drag_x d) * lit 0.8 + drag_vx d * lit 0.2)
          ((py - drag_y d) * lit 0.8 + drag_vy d * lit 0.2)
      else d
  | None => d
  end.

Definition endDragPhysics (d : DragState) : (num * num) * DragState :=
  ((drag_vx d, drag_vy d),
   mkDragState None (drag_x d) (drag_y d) (drag_prevX d) (drag_prevY d) (lit 0) (lit 0)).
End DragState.
Arguments DragState : clear implicits.

Section ApplyForces.
Context {num : Type} `{!JsNumber num}.
Local Open Scope num_scope.
Import LAYOUT.

(** What one call of [applyForces] threads through its loops: the node
    objects (by array index), [maxVelocity], and how many [Math.random()]
    calls were made so far. *)
Record Sim := mkSim {
  sim_nodes : list (CloudNode num);
  sim_maxVelocity : num;
  sim_random : nat;
}.

Variable dragState : DragState num.
Variable random : nat -> num.      (* the k-th [Math.random()] of the call *)
Variable focusedNodeId : option string.
Variable inFocusMode : bool.
Variable focusedSubtreeIds : option (gset string).

Definition isDragging : bool := bool_decide (drag_nodeId dragState <> None).

(** [nodes.forEach(node => nodeMap.set(node.id, node))]: the map holds object
    references, here the index of the node in the array. *)
Definition buildNodeMap (nodes : list (CloudNode num)) : gmap string nat :=
  foldl (fun m p => <[node_id p.2 := p.1]> m) ∅ (imap pair nodes).

Definition lookupFocusedNode (nodeMap : gmap string nat)
    (nodes : list (CloudNode num)) : option (CloudNode num) :=
  match focusedNodeId with
  | Some fid =>
      if truthy_string fid then nodeMap !! fid ≫= (fun k => nodes !! k) else None
  | None => None
  end.

Definition parentOfFocusedSubtask (focusedNode : option (CloudNode num)) : option string :=
  match focusedNode with
  | Some f =>
      match node_type f, node_parentId f with
      | subtask, Some p => if truthy_string p then Some p else None
      | _, _ => None
      end
  | None => None
  end.

Definition is_dragged (nodeA : CloudNode num) : bool :=
  bool_decide (Some (node_id nodeA) = drag_nodeId dragState).

Definition in_focused_subtree (nodeA : CloudNode num) : bool :=
  match focusedSubtreeIds with
  | Some ids => bool_decide (node_id nodeA ∈ ids)
  | None => false
  end.

Definition add_velocity (dvx dvy : num) (n : CloudNode num) : CloudNode num :=
  set_velocity (node_vx n + dvx) (node_vy n + dvy) n.

Definition sub_velocity (dvx dvy : num) (n : CloudNode num) : CloudNode num :=
  set_velocity (node_vx n - dvx) (node_vy n - dvy) n.

(** Lines 329-363: attraction towards the parent's orbit. *)
Definition attractToParent (nodeMap : gmap string nat) (i : nat)
    (nodes : list (CloudNode num)) : list (CloudNode num) :=
  match nodes !! i with
  | Some nodeA =>
      match node_parentId nodeA with
      | Some pid =>
          if truthy_string pid && negb inFocusMode then
            match nodeMap !! pid ≫= (fun k => nodes !! k) with
            | Some parent =>
                let dx := node_x parent - node_x nodeA in
                let dy := node_y parent - node_y nodeA in
                let dist := sqrt (dx * dx + dy * dy) in
                if dist >? lit 0 then
                  let idealOrbit :=
                    if bool_decide (node_type nodeA = subtask)
                    then SUBTASK_ORBIT_RADIUS
                    else (TASK_ORBIT_RADIUS_MIN + TASK_ORBIT_RADIUS_MAX) / lit 2 in
                  let orbitDiff := dist - idealOrbit in
                  let nx := dx / dist in
                  let ny := dy / dist in
                  let typeMultiplier :=
                    if bool_decide (node_type nodeA = subtask) then lit 0.3 else lit 1 in
                  let attractionForce := orbitDiff * ORBIT_STIFFNESS * typeMultiplier in
                  let gravityForce := PARENT_ATTRACTION_STRENGTH * typeMultiplier in
                  alter (add_velocity (nx * (attractionForce + gravityForce))
                                      (ny * (attractionForce + gravityForce))) i nodes
                else nodes
            | None => nodes
            end
          else nodes
      | None => nodes
      end
  | None => nodes
  end.

Definition nearDrag (n : CloudNode num) : bool :=
  (abs (node_x n - drag_x dragState) <? DRAG_PUSH_RADIUS * lit 1.5) &&
  (abs (node_y n - drag_y dragState) <? DRAG_PUSH_RADIUS * lit 1.5).

(** Lines 370-413: the body of the repulsion loop for the pair [(i, j)]. *)
Definition repel (isDragged : bool) (i j : nat)
    (nodes : list (CloudNode num)) : list (CloudNode num) :=
  match nodes !! i, nodes !! j with
  | Some nodeA, Some nodeB =>
      if isDragging && (negb (nearDrag nodeA) && negb (nearDrag nodeB)) then nodes
      else
        let dx := node_x nodeB - node_x nodeA in
        let dy := node_y nodeB - node_y nodeA in
        let maxDist := node_radius nodeA + node_radius nodeB + lit 150 in
        if (abs dx >? maxDist) || (abs dy >? maxDist) then nodes
        else
          let distSq := dx * dx + dy * dy in
          let minDist := node_radius nodeA + node_radius nodeB + lit 20 in
          let minDistSq := minDist * minDist in
          if (distSq <? minDistSq) && (distSq >? lit 0) then
            let dist := sqrt distSq in
            let otherIsDragged := is_dragged nodeB in
            let dragMultiplier := if isDragged || otherIsDragged then lit 3 else lit 1 in
            let force :=
              (minDist - dist) / dist * REPULSION_STRENGTH * lit 0.01 * dragMultiplier in
            let fx := dx * force in
            let fy := dy * force in
            let nodes1 := if negb isDragged then alter (sub_velocity fx fy) i nodes else nodes in
            if negb otherIsDragged then alter (add_velocity fx fy) j nodes1 else nodes1
          else nodes
  | _, _ => nodes
  end.

(** [for (let j = i + 1; j < nodes.length; j++)]. *)
Definition repelLoop (isDragged : bool) (i : nat)
    (nodes : list (CloudNode num)) : list (CloudNode num) :=
  foldl (fun ns j => repel isDragged i j ns) nodes
        (seq (S i) (length nodes - S i)).

(** Lines 417-436: the push and the wake of the dragged cloud. *)
Definition pushFromDrag (i : nat) (nodes : list (CloudNode num)) : list (CloudNode num) :=
  match drag_nodeId dragState with
  | Some d =>
      if truthy_string d then
        match nodes !! i with
        | Some nodeA =>
            let dx := node_x nodeA - drag_x dragState in
            let dy := node_y nodeA - drag_y dragState in
            let dist := sqrt (dx * dx + dy * dy) in
            if (dist <? DRAG_PUSH_RADIUS) && (dist >? lit 0) then
              let pushStrength := (lit 1 - dist / DRAG_PUSH_RADIUS) * DRAG_PUSH_STRENGTH in
              let normalizedDx := dx / dist in
              let normalizedDy := dy / dist in
              let pushed := alter (add_velocity (normalizedDx * pushStrength)
                                                (normalizedDy * pushStrength)) i nodes in
              alter (add_velocity
                       (drag_vx dragState * DRAG_VELOCITY_TRANSFER
                          * (lit 1 - dist / DRAG_PUSH_RADIUS))
                       (drag_vy dragState * DRAG_VELOCITY_TRANSFER
                          * (lit 1 - dist / DRAG_PUSH_RADIUS))) i pushed
            else nodes
        | None => nodes
        end
      else nodes
  | None => nodes
  end.

Definition speed_of (n : CloudNode num) : num :=
  sqrt (node_vx n * node_vx n + node_vy n * node_vy n).

(** Lines 440-445: jitter, two [Math.random()] calls when the node moves. *)
Definition jitterNode (k : nat) (n : CloudNode num) : CloudNode num * nat :=
  let currentSpeed := speed_of n in
  if currentSpeed >? lit 0.1 then
    let jitter := lit 0.05 in
    (add_velocity ((random k - lit 0.5) * jitter)
                  ((random (S k) - lit 0.5) * jitter) n, S (S k))
  else (n, k).

(** Lines 448-452: the velocity cap. *)
Definition capVelocity (n : CloudNode num) : CloudNode num :=
  let speed := speed_of n in
  if speed >? MAX_VELOCITY then
    set_velocity (node_vx n / speed * MAX_VELOCITY) (node_vy n / speed * MAX_VELOCITY) n
  else n.

(** Lines 457-460: integration and damping. *)
Definition integrate (n : CloudNode num) : CloudNode num :=
  let moved := set_position (node_x n + node_vx n) (node_y n + node_vy n) n in
  set_velocity (node_vx moved * DAMPING) (node_vy moved * DAMPING) moved.

(** Lines 327-460 for node [i]: all forces, then cap, track, integrate. *)
Definition simulateNode (nodeMap : gmap string nat) (isDragged : bool) (i : nat)
    (st : Sim) : Sim :=
  let attracted := attractToParent nodeMap i (sim_nodes st) in
  let repelled := repelLoop isDragged i attracted in
  let pushed := pushFromDrag i repelled in
  match pushed !! i with
  | Some nodeA =>
      let (jittered, k) := jitterNode (sim_random st) nodeA in
      let speed := speed_of jittered in
      let capped := capVelocity jittered in
      mkSim (<[i := integrate capped]> pushed)
            (max (sim_maxVelocity st) speed) k
  | None => st
  end.

Definition with_nodes (st : Sim) (nodes : list (CloudNode num)) : Sim :=
  mkSim nodes (sim_maxVelocity st) (sim_random st).

(** Lines 292-294. *)
Definition isFocused (nodeA : CloudNode num) : bool :=
  bool_decide (Some (node_id nodeA) = focusedNodeId).

Definition isChildOfFocused (focusedNode : option (CloudNode num))
    (nodeA : CloudNode num) : bool :=
  match focusedNode with
  | Some f => bool_decide (node_parentId nodeA = Some (node_id f))
  | None => false
  end.

Definition isParentOfFocusedSubtask (focusedNode : option (CloudNode num))
    (nodeA : CloudNode num) : bool :=
  match parentOfFocusedSubtask focusedNode with
  | Some p => bool_decide (node_id nodeA = p)
  | None => false
  end.

(** What the loop writes to a dragged node, lines 277-280. *)
Definition pinToDrag (n : CloudNode num) : CloudNode num :=
  set_velocity (lit 0) (lit 0) (set_position (drag_x dragState) (drag_y dragState) n).

(** Lines 308-309. *)
Definition dampBackground (n : CloudNode num) : CloudNode num :=
  set_velocity (node_vx n * lit 0.85) (node_vy n * lit 0.85) n.

(** The body of the outer loop, lines 270-463, for index [i]. *)
Definition stepNode (nodeMap : gmap string nat)
    (focusedNode : option (CloudNode num)) (i : nat) (st : Sim) : Sim :=
  match sim_nodes st !! i with
  | None => st
  | Some nodeA =>
      let isDragged := is_dragged nodeA in
      if isDragged then
        with_nodes st (alter pinToDrag i (sim_nodes st))
      else if in_focused_subtree nodeA then
        with_nodes st (alter (set_velocity (lit 0) (lit 0)) i (sim_nodes st))
      else if inFocusMode then
        if isFocused nodeA || isParentOfFocusedSubtask focusedNode nodeA then st
        else if isChildOfFocused focusedNode nodeA then st
        else with_nodes st (alter dampBackground i (sim_nodes st))
      else if isFocused nodeA || isParentOfFocusedSubtask focusedNode nodeA then
        with_nodes st (alter (set_velocity (lit 0) (lit 0)) i (sim_nodes st))
      else if bool_decide (node_type nodeA = milestone) then
        with_nodes st (alter (set_velocity (lit 0) (lit 0)) i (sim_nodes st))
      else simulateNode nodeMap isDragged i st
  end.

Definition applyForces (nodes : list (CloudNode num)) : Sim :=
  let nodeMap := buildNodeMap nodes in
  let focusedNode := lookupFocusedNode nodeMap nodes in
  foldl (fun st i => stepNode nodeMap focusedNode i st)
        (mkSim nodes (lit 0) 0)
        (seq 0 (length nodes)).
End ApplyForces.
Arguments Sim : clear implicits.

(** ** services/physics.ts: building the node graph *)

Section CreateNodes.
Context {num : Type} `{!JsNumber num} `{!JsTrig num}.
Local Open Scope num_scope.
Import LAYOUT.

Variable random : nat -> num.      (* the k-th [Math.random()] of the call *)

(** [existingPositions]: later entries of [existingNodes] overwrite earlier ones. *)
Definition existingPositionsOf (existingNodes : option (list (CloudNode num)))
    : gmap string (num * num) :=
  match existingNodes with
  | Some ns => foldl (fun m n => <[node_id n := (node_x n, node_y n)]> m) ∅ ns
  | None => ∅
  end.

Definition isTaskFocused (focusedNode : option (CloudNode num)) (t : Task) : bool :=
  match focusedNode with
  | Some f => bool_decide (node_id f = task_id t)
  | None => false
  end.

Definition isSubtaskFocused (focusedNode : option (CloudNode num)) (t : Task) : bool :=
  match focusedNode with
  | Some f =>
      bool_decide (node_type f = subtask) &&
      existsb (fun s => bool_decide (subtask_id s = node_id f)) (task_subtasks t)
  | None => false
  end.

(** Lines 150-177: the subtask nodes of a focused task at [(tx, ty)]. *)
Definition subtaskNodes (existingPositions : gmap string (num * num))
    (t : Task) (tx ty taskRadius : num) : list (CloudNode num) :=
  let subtasks := task_subtasks t in
  imap (fun k s =>
          let '(sx, sy) :=
            match existingPositions !! subtask_id s with
            | Some p => p
            | None =>
                let subtaskAngle :=
                  of_nat k / of_nat (Nat.max (length subtasks) 1) * PI * lit 2 in
                let subtaskOrbit := taskRadius + SUBTASK_RADIUS + lit 20 in
                (tx + cos subtaskAngle * subtaskOrbit,
                 ty + sin subtaskAngle * subtaskOrbit)
            end in
          mkCloudNode (subtask_id s) subtask sx sy (lit 0) (lit 0)
                      SUBTASK_RADIUS (Some (task_id t)))
       subtasks.

Definition taskRadiusOf (t : Task) : num :=
  let incompleteSubtaskCount :=
    length (filter (fun s => subtask_completed s = false) (task_subtasks t)) in
  TASK_RADIUS_BASE + of_nat incompleteSubtaskCount * TASK_RADIUS_PER_SUBTASK.

(** Lines 108-179: [tasks.forEach((task, j) => ...)], from index [j], with
    [k] calls of [Math.random()] made before. *)
Fixpoint taskNodes (existingPositions : gmap string (num * num))
    (focusedNode : option (CloudNode num)) (milestoneId : string) (mx my : num)
    (taskCount j : nat) (tasks : list Task) (k : nat)
    : list (CloudNode num) * nat :=
  match tasks with
  | [] => ([], k)
  | t :: rest =>
      let taskRadius := taskRadiusOf t in
      let '(tx, ty, k1) :=
        match existingPositions !! task_id t with
        | Some p => (p.1, p.2, k)
        | None =>
            let taskAngle :=
              if bool_decide (1 < taskCount)%nat
              then of_nat j / of_nat taskCount * PI * lit 2
              else lit 0 in
            let taskOrbitRadius :=
              TASK_ORBIT_RADIUS_MIN
              + random k * (TASK_ORBIT_RADIUS_MAX - TASK_ORBIT_RADIUS_MIN) in
            (mx + cos taskAngle * taskOrbitRadius,
             my + sin taskAngle * taskOrbitRadius, S k)
        end in
      let taskNode :=
        mkCloudNode (task_id t) task tx ty (lit 0) (lit 0) taskRadius (Some milestoneId) in
      let subs :=
        if isTaskFocused focusedNode t || isSubtaskFocused focusedNode t
        then subtaskNodes existingPositions t tx ty taskRadius
        else [] in
      let '(others, k2) :=
        taskNodes existingPositions focusedNode milestoneId mx my taskCount (S j) rest k1 in
      (taskNode :: subs ++ others, k2)
  end.

(** Lines 69-180: [milestones.forEach((milestone, i) => ...)], from index [i]. *)
Fixpoint milestoneNodes (existingPositions : gmap string (num * num))
    (focusedNode : option (CloudNode num)) (width height : num)
    (milestoneCount i : nat) (milestones : list (Milestone num)) (k : nat)
    : list (CloudNode num) * nat :=
  match milestones with
  | [] => ([], k)
  | m :: rest =>
      let centerX := width / lit 2 in
      let centerY := height / lit 2 in
      let '(mx, my) :=
        match milestone_x m, milestone_y m with
        | Some sx, Some sy => (sx, sy)
        | _, _ =>
            let angle :=
              if bool_decide (1 < milestoneCount)%nat
              then of_nat i / of_nat milestoneCount * PI * lit 2 - PI / lit 2
              else lit 0 in
            let orbitRadius := min width height * lit 0.3 in
            (if bool_decide (1 < milestoneCount)%nat
             then centerX + cos angle * orbitRadius else centerX,
             if bool_decide (1 < milestoneCount)%nat
             then centerY + sin angle * orbitRadius else centerY)
        end in
      let milestoneNode :=
        mkCloudNode (milestone_id m) milestone mx my (lit 0) (lit 0)
                    MILESTONE_RADIUS None in
      let '(tasks, k1) :=
        taskNodes existingPositions focusedNode (milestone_id m) mx my
                  (length (milestone_tasks m)) 0 (milestone_tasks m) k in
      let '(others, k2) :=
        milestoneNodes existingPositions focusedNode width height
                       milestoneCount (S i) rest k1 in
      (milestoneNode :: tasks ++ others, k2)
  end.

Definition createNodes (milestones : list (Milestone num)) (width height : num)
    (focusedNode : option (CloudNode num))
    (existingNodes : option (list (CloudNode num))) : list (CloudNode num) :=
  (milestoneNodes (existingPositionsOf existingNodes) focusedNode width height
                  (length milestones) 0 milestones 0).1.
End CreateNodes.

(** ** utils/SeededRandom.ts *)

Module SeededRandom.
Local Open Scope Z_scope.

(** The 32-bit conversions behind JavaScript's bit operators. *)
Definition ToInt32 (z : Z) : Z := (z + 2 ^ 31) mod 2 ^ 32 - 2 ^ 31.
Definition ToUint32 (z : Z) : Z := z mod 2 ^ 32.

Definition imul (a b : Z) : Z := ToInt32 (ToInt32 a * ToInt32 b).   (* Math.imul *)
Definition xor32 (a b : Z) : Z := Z.lxor (ToInt32 a) (ToInt32 b).   (* a ^ b *)
Definition or32 (a b : Z) : Z := Z.lor (ToInt32 a) (ToInt32 b).     (* a | b *)
Definition and32 (a b : Z) : Z := Z.land (ToInt32 a) (ToInt32 b).   (* a & b *)
Definition ushr (a n : Z) : Z := Z.shiftr (ToUint32 a) n.           (* a >>> n *)
Definition shl (a n : Z) : Z := ToInt32 (Z.shiftl (ToInt32 a) n).   (* a << n *)

(** [next()]: the state is a JavaScript number that grows by 0x6D2B79F5 per
    call (the sum is exact below 2^53); the bit operators see it modulo 2^32. *)
Definition next_state (state : Z) : Z := state + 0x6D2B79F5.

Definition next_bits (state : Z) : Z :=
  let t := state + 0x6D2B79F5 in
  let t := imul (xor32 t (ushr t 15)) (or32 t 1) in
  let t := xor32 t (t + imul (xor32 t (ushr t 7)) (or32 t 61)) in
  ushr (xor32 t (ushr t 14)) 0.

Definition next {num : Type} `{!JsNumber num} (state : Z) : num * Z :=
  (div (of_Z (next_bits state)) (lit 4294967296), next_state state).

(** [`${n}`] for a value of [Math.round] (integers of 22 digits and more are
    printed with an exponent by JavaScript; sizes are far below). *)
Definition rounded_to_string (r : rounded) : string :=
  match r with
  | RInt z => pretty z
  | RNaN => "NaN"
  | RInfinity false => "Infinity"
  | RInfinity true => "-Infinity"
  end.

(** [charCodeAt]: identifiers are ASCII. *)
Definition charCode (a : ascii) : Z := Z.of_N (N_of_ascii a).

Definition hashStep (hash : Z) (a : ascii) : Z :=
  let hash := shl hash 5 - hash + charCode a in
  and32 hash hash.

Definition hashString (str : string) : Z :=
  foldl hashStep 0 (list_ascii_of_string str).

Definition createMorphSeed {num : Type} `{!JsNumber num}
    (nodeId mode : string) (requiredW requiredH : num) : Z :=
  let str :=
    (nodeId +:+ "-" +:+ mode +:+ "-"
     +:+ rounded_to_string (round (div requiredW (lit 10))) +:+ "-"
     +:+ rounded_to_string (round (div requiredH (lit 10))))%string in
  ushr (Z.abs (hashString str)) 0.
End SeededRandom.

(** ** components/Cloud.ts: puffs, shape synthesis, morphing *)

Section Cloud.
Context {num : Type} `{!JsNumber num}.
Local Open Scope num_scope.

Record Puff := mkPuff {
  puff_x : num;
  puff_y : num;
  puff_r : num;
}.

(** The fields of a [Cloud] that shape synthesis and morphing read or write. *)
Record Cloud := mkCloud {
  cloud_node : CloudNode num;
  isChildOfFocusedNode : bool;
  basePuffs : list Puff;
  targetPuffs : list Puff;
  currentPuffs : list Puff;
  morphComplete : bool;
  coverageR : num;
  hitArea : num * num;             (* the radii of the hit ellipse *)
}.

(** [rng.next()], with the generator state passed along. *)
Definition rng_next (s : Z) : num * Z := SeededRandom.next s.

(** A [for] loop that pushes one puff per iteration: [n] iterations from
    index [i], threading the generator state. *)
Fixpoint for_puffs (body : nat -> Z -> Puff * Z) (i n : nat) (s : Z) : list Puff * Z :=
  match n with
  | O => ([], s)
  | S n' =>
      let '(p, s1) := body i s in
      let '(ps, s2) := for_puffs body (S i) n' s1 in
      (p :: ps, s2)
  end.

(** [for (const angle of angles)], one puff per angle. *)
Fixpoint for_angles (body : num -> Z -> Puff * Z) (angles : list num) (s : Z)
    : list Puff * Z :=
  match angles with
  | [] => ([], s)
  | a :: rest =>
      let '(p, s1) := body a s in
      let '(ps, s2) := for_angles body rest s1 in
      (p :: ps, s2)
  end.

Section Synthesis.
Context `{!JsTrig num}.

(** The constructor, lines 134-165: bump offsets and the resting puffs. *)
Definition bumpCountOf (t : EntityType) : nat :=
  match t with milestone => 7 | task => 6 | subtask => 5 end.

Definition basePuffBody (r : num) (bumpCount : nat) (i : nat) (s : Z) : Puff * Z :=
  let '(u1, s1) := rng_next s in
  let angle := of_nat i / of_nat bumpCount * PI * lit 2 + (u1 - lit 0.5) * lit 0.3 in
  let '(u2, s2) := rng_next s1 in
  let radiusMult := lit 0.35 + u2 * lit 0.2 in
  let '(u3, s3) := rng_next s2 in
  let distMult := lit 0.4 + u3 * lit 0.15 in
  let dist := r * distMult in
  (mkPuff (cos angle * dist) (sin angle * dist) (r * radiusMult), s3).

Definition newCloud (node : CloudNode num) : Cloud :=
  let baseSeed := SeededRandom.createMorphSeed (node_id node) "base" (lit 0) (lit 0) in
  let '(_, s1) := rng_next baseSeed in          (* breatheOffset *)
  let r := node_radius node in
  let bumpCount := bumpCountOf (node_type node) in
  let base :=
    mkPuff (lit 0) (lit 0) (r * lit 0.65)
    :: (for_puffs (basePuffBody r bumpCount) 0 bumpCount s1).1 in
  mkCloud node false base base base true (lit 0) (lit 0, lit 0).

(** The generation profile chosen at lines 961-980. *)
Record Profile := mkProfile {
  totalPuffCount : num;
  interiorRatio : num;
  ringDistFactor : num;
  noiseAmp : num;
  puffRadiusBase : num;
  puffRadiusMin : num;
  puffRadiusMax : num;
}.

Definition focusedProfile (parentCoverageRx parentCoverageRy parentCoverageR : num) : Profile :=
  let area := PI * parentCoverageRx * parentCoverageRy in
  mkProfile
    (min (lit 34) (max (lit 24) (lit 18 + floor (area / lit 5500))))
    (lit 0.80) (lit 0.50) (lit 0.20)
    (max (parentCoverageR * lit 0.27) (lit 18))
    (lit 14)
    (min (parentCoverageR * lit 0.45) (lit 40)).

Definition childProfile (basePuffCount : nat) (parentCoverageR : num) : Profile :=
  mkProfile
    (max (lit 10) (of_nat basePuffCount * lit 2))
    (lit 0.65) (lit 0.50) (lit 0.015)
    (max (parentCoverageR * lit 0.27) (lit 18))
    (max (lit 8) (parentCoverageR * lit 0.15))
    (max (lit 16) (parentCoverageR * lit 0.40)).

Definition clampRadius (p : Profile) (r : num) : num :=
  max (puffRadiusMin p) (min (puffRadiusMax p) r).

(** Lines 998-1016: a ring puff of the child profile. *)
Definition childRingBody (p : Profile) (parentCoverageR actualRingCount : num)
    (i : nat) (s : Z) : Puff * Z :=
  let angle := of_nat i / actualRingCount * PI * lit 2 in
  let '(u1, s1) := rng_next s in
  let noise := (u1 - lit 0.5) * noiseAmp p in
  let distFactor := ringDistFactor p + noise in
  let dist := parentCoverageR * distFactor in
  let px := cos angle * dist in
  let py := sin angle * dist in
  let '(u2, s2) := rng_next s1 in
  let pr := clampRadius p (puffRadiusBase p * lit 1.2 * (lit 0.70 + u2 * lit 0.60)) in
  let maxAllowedR := parentCoverageR - dist + pr * lit 0.5 in
  let finalR := min pr maxAllowedR in
  (mkPuff px py (max (puffRadiusMin p) finalR), s2).

(** Lines 1020-1031 and 1058-1068: an interior puff; [spread] is 0.50 for
    the child profile and 0.55 for the focused one. *)
Definition interiorBody (p : Profile) (parentCoverageR spread : num)
    (i : nat) (s : Z) : Puff * Z :=
  let '(u1, s1) := rng_next s in
  let angle := u1 * PI * lit 2 in
  let '(u2, s2) := rng_next s1 in
  let dist := sqrt u2 * spread in
  let interiorDist := parentCoverageR * dist in
  let '(u3, s3) := rng_next s2 in
  let interiorR := clampRadius p (puffRadiusBase p * (lit 0.60 + u3 * lit 0.80)) in
  (mkPuff (cos angle * interiorDist) (sin angle * interiorDist) interiorR, s3).

(** Lines 1034-1043: a ring puff of the focused profile. *)
Definition focusedRingBody (p : Profile) (parentCoverageR ringCount : num)
    (i : nat) (s : Z) : Puff * Z :=
  let angle := of_nat i / (ringCount - lit 1) * PI * lit 2 in
  let '(u1, s1) := rng_next s in
  let noise := (u1 - lit 0.5) * noiseAmp p in
  let distFactor := ringDistFactor p + noise in
  let dist := parentCoverageR * distFactor in
  let px := cos angle * dist in
  let py := sin angle * dist in
  let '(u2, s2) := rng_next s1 in
  let pr := clampRadius p (puffRadiusBase p * (lit 0.70 + u2 * lit 0.60)) in
  (mkPuff px py pr, s2).

(** Lines 1046-1055: a corner anchor puff. *)
Definition cornerBody (p : Profile) (parentCoverageR : num)
    (angle : num) (s : Z) : Puff * Z :=
  let cornerDist := parentCoverageR * lit 0.50 in
  let '(u, s1) := rng_next s in
  let cornerR := puffRadiusBase p * (lit 0.85 + u * lit 0.30) in
  (mkPuff (cos angle * cornerDist) (sin angle * cornerDist) (clampRadius p cornerR), s1).

Definition cornerAngles : list num :=
  [PI * lit 0.25; PI * lit 0.75; PI * lit 1.25; PI * lit 1.75].

(** [computeMorphPuffs], lines 935-1076. *)
Definition computeMorphPuffs (requiredW requiredH : num) (c : Cloud) : Cloud :=
  let margin := lit 25 in
  let parentCoverageRx := requiredW / lit 2 + margin in
  let parentCoverageRy := requiredH / lit 2 + margin in
  let parentCoverageR := max parentCoverageRx parentCoverageRy in
  let mode := if isChildOfFocusedNode c then "child" else "focused" in
  let seed :=
    SeededRandom.createMorphSeed (node_id (cloud_node c)) mode requiredW requiredH in
  let p :=
    if isChildOfFocusedNode c
    then childProfile (length (basePuffs c)) parentCoverageR
    else focusedProfile parentCoverageRx parentCoverageRy parentCoverageR in
  let interiorCount := floor (totalPuffCount p * interiorRatio p) in
  let ringCount := totalPuffCount p - interiorCount in
  let centerR :=
    if isChildOfFocusedNode c
    then max (puffRadiusMax p * lit 1.2) (parentCoverageR * lit 0.50)
    else min parentCoverageRx parentCoverageRy * lit 0.45 in
  let center := mkPuff (lit 0) (lit 0) centerR in
  let puffs :=
    if isChildOfFocusedNode c then
      let actualRingCount := min (lit 4) ringCount in
      let '(ring, s1) :=
        for_puffs (childRingBody p parentCoverageR actualRingCount)
                  0 (loop_bound actualRingCount) seed in
      let actualInteriorCount := totalPuffCount p - actualRingCount - lit 1 in
      let '(interior, _) :=
        for_puffs (interiorBody p parentCoverageR (lit 0.50))
                  0 (loop_bound actualInteriorCount) s1 in
      ring ++ interior
    else
      let '(ring, s1) :=
        for_puffs (focusedRingBody p parentCoverageR ringCount)
                  0 (loop_bound (ringCount - lit 1)) seed in
      let '(corners, s2) := for_angles (cornerBody p parentCoverageR) cornerAngles s1 in
      let '(interior, _) :=
        for_puffs (interiorBody p parentCoverageR (lit 0.55))
                  0 (loop_bound interiorCount) s2 in
      ring ++ corners ++ interior in
  mkCloud (cloud_node c) (isChildOfFocusedNode c) (basePuffs c)
          (center :: puffs) (currentPuffs c)
          false parentCoverageR (parentCoverageRx, parentCoverageRy).
End Synthesis.

(** *** The morph interpolation of [update], lines 1188-1239 *)

(** Lines 1195-1205: new puffs are born at the centre with radius 0, excess
    puffs are popped. *)
Definition resizePuffs (current : list Puff) (targetLength : nat) : list Puff :=
  take targetLength
       (current ++ replicate (targetLength - length current)
                             (mkPuff (lit 0) (lit 0) (lit 0))).

(** The test of line 1217. *)
Definition needsMorph (current target : Puff) : bool :=
  let dx := abs (puff_x current - puff_x target) in
  let dy := abs (puff_y current - puff_y target) in
  let dr := abs (puff_r current - puff_r target) in
  (dx >? lit 0.3) || (dy >? lit 0.3) || (dr >? lit 0.3).

(** Lines 1218-1220. *)
Definition morphPuff (deltaTime : num) (current target : Puff) : Puff :=
  let morphSpeed := lit 0.25 in
  mkPuff (puff_x current + (puff_x target - puff_x current) * morphSpeed * deltaTime)
         (puff_y current + (puff_y target - puff_y current) * morphSpeed * deltaTime)
         (puff_r current + (puff_r target - puff_r current) * morphSpeed * deltaTime).

(** [this.targetPuffs[i] || this.basePuffs[i % this.basePuffs.length]]. *)
Definition targetOf (c : Cloud) (i : nat) : option Puff :=
  match targetPuffs c !! i with
  | Some t => Some t
  | None => basePuffs c !! (i mod length (basePuffs c))%nat
  end.

(** One pass of the loop at lines 1208-1224 over puff [i]: the puff after the
    pass, and whether it moved.  After [resizePuffs] every index has a target. *)
Definition interpolatePuff (deltaTime : num) (c : Cloud) (i : nat) (current : Puff)
    : Puff * bool :=
  match targetOf c i with
  | Some target =>
      if needsMorph current target
      then (morphPuff deltaTime current target, true)
      else (current, false)
  | None => (current, false)
  end.

(** The block guarded by [if (!this.morphComplete)]; [update] reaches it
    whenever the cloud is not spawning, dissolving or being dragged. *)
Definition updateMorph (deltaTime : num) (c : Cloud) : Cloud :=
  if morphComplete c then c
  else
    let grown := bool_decide (length (currentPuffs c) < length (targetPuffs c))%nat in
    let resized := resizePuffs (currentPuffs c) (length (targetPuffs c)) in
    let passes := imap (interpolatePuff deltaTime c) resized in
    let allSettled := negb grown && forallb (fun q => negb q.2) passes in
    mkCloud (cloud_node c) (isChildOfFocusedNode c) (basePuffs c) (targetPuffs c)
            (passes.*1) (allSettled || morphComplete c)
            (coverageR c) (hitArea c).
End Cloud.
Arguments Puff : clear implicits.
Arguments Cloud : clear implicits.
Arguments Profile : clear implicits.

(** ** components/SkyCanvas.tsx: the focus layout engine *)

Section FocusLayout.
Context {num : Type} `{!JsNumber num} `{!JsTrig num}.
Local Open Scope num_scope.

(** [cloudsRef]: for each cloud that exists, its [requiredCoverageR] once
    [computeRequiredSizeNow] has measured the content (the measurement is the
    renderer's, and enters as data). *)
Variable clouds : gmap string num.

(** [a || b] on numbers. *)
Definition or_else (a b : num) : num := if truthy a then a else b.

(** Lines 174-183. *)
Definition maxChildCoverage (children : list (CloudNode num)) : num :=
  foldl (fun maxChildR child =>
           match clouds !! node_id child with
           | Some requiredCoverageR =>
               let childCoverageR := or_else requiredCoverageR (node_radius child + lit 40) in
               max maxChildR childCoverageR
           | None => max maxChildR (node_radius child + lit 40)
           end)
        (lit 0) children.

(** Lines 188-194. *)
Definition orbitRadiusOf (parentCoverageR maxChildR : num) (childCount : nat) : num :=
  let ORBIT_GAP := lit 15 in
  let orbitRadius := parentCoverageR + ORBIT_GAP + maxChildR in
  let minArc := maxChildR * lit 2 + lit 30 in
  let orbitRadius_byArc := of_nat childCount * minArc / (lit 2 * PI) in
  max orbitRadius orbitRadius_byArc.

(** Line 198. *)
Definition childAngle (i childCount : nat) : num :=
  - PI / lit 2 + of_nat i / of_nat childCount * PI * lit 2.

(** Lines 197-203 for the [i]-th child, the node at index [c]; the parent
    object, at index [p], is read when the child is placed. *)
Definition placeChild (p : nat) (orbitRadius : num) (childCount : nat)
    (nodes : list (CloudNode num)) (i c : nat) : list (CloudNode num) :=
  match nodes !! p with
  | Some parentNode =>
      let angle := childAngle i childCount in
      alter (fun child =>
               set_velocity (lit 0) (lit 0)
                 (set_position (node_x parentNode + cos angle * orbitRadius)
                               (node_y parentNode + sin angle * orbitRadius) child))
            c nodes
  | None => nodes
  end.

Definition placeChildren (p : nat) (orbitRadius : num) (childIndices : list nat)
    (nodes : list (CloudNode num)) : list (CloudNode num) :=
  foldl (fun ns ic => placeChild p orbitRadius (length childIndices) ns ic.1 ic.2)
        nodes (imap pair childIndices).

(** The indices of [nodes.filter(n => n.parentId === focusedNode.id)]. *)
Definition childIndicesOf (focusedId : string) (nodes : list (CloudNode num)) : list nat :=
  (filter (fun kn => node_parentId kn.2 = Some focusedId) (imap pair nodes)).*1.

(** The index of [nodes.find(n => n.id === focusedNode.id)]. *)
Definition parentIndexOf (focusedId : string) (nodes : list (CloudNode num)) : option nat :=
  fst <$> list_find (fun n => node_id n = focusedId) nodes.

Definition positionOf (n : CloudNode num) : num * num := (node_x n, node_y n).

(** The layout state: the node objects and the Focus Layout Map. *)
Definition LayoutState : Type := list (CloudNode num) * gmap string (num * num).

(** [refreshFocusLayout], lines 132-218, with the animation-frame callback
    run (its token still current). *)
Definition refreshFocusLayout (focusedNode : option (CloudNode num))
    (st : LayoutState) : LayoutState :=
  let '(nodes, layout) := st in
  match focusedNode with
  | None => st
  | Some focused =>
      let childIndices := childIndicesOf (node_id focused) nodes in
      match parentIndexOf (node_id focused) nodes with
      | None => st
      | Some p =>
          match nodes !! p with
          | None => st
          | Some parentNode =>
              if bool_decide (length childIndices = 0%nat) then
                (nodes, {[ node_id parentNode := positionOf parentNode ]})
              else
                match clouds !! node_id parentNode with
                | None => st
                | Some requiredCoverageR =>
                    let children := omap (fun c => nodes !! c) childIndices in
                    let maxChildR := maxChildCoverage children in
                    let parentCoverageR := or_else requiredCoverageR (node_radius parentNode) in
                    let orbitRadius :=
                      orbitRadiusOf parentCoverageR maxChildR (length childIndices) in
                    let placed := placeChildren p orbitRadius childIndices nodes in
                    let layout1 : gmap string (num * num) :=
                      match placed !! p with
                      | Some parent1 => {[ node_id parent1 := positionOf parent1 ]}
                      | None => ∅
                      end in
                    (placed,
                     foldl (fun m c =>
                              match placed !! c with
                              | Some child => <[node_id child := positionOf child]> m
                              | None => m
                              end)
                           layout1 childIndices)
                end
          end
      end
  end.
End FocusLayout.

Arguments SeededRandom.next_bits : simpl never.
Arguments SeededRandom.hashString : simpl never.
Arguments SeededRandom.createMorphSeed : simpl never.

(** ** Vocabulary of the statements *)

Section SimulatorVocabulary.
Context {num : Type} `{!JsNumber num}.

(** [same_place n n']: [n'] is [n] up to its velocity. *)
Definition same_place (n n' : CloudNode num) : Prop :=
  n' = set_velocity (node_vx n') (node_vy n') n.

(** [velocity_step P l l']: going from [l] to [l'] only velocities changed,
    and only at indices in [P]. *)
Definition velocity_step (P : nat -> Prop) (l l' : list (CloudNode num)) : Prop :=
  length l' = length l /\
  forall k n, l !! k = Some n ->
    exists n', l' !! k = Some n' /\ same_place n n' /\ (~ P k -> n' = n).

(** [node_step i l l']: what one iteration of the outer loop at index [i]
    may do: anything to node [i], velocity changes after it, nothing before. *)
Definition node_step (i : nat) (l l' : list (CloudNode num)) : Prop :=
  length l' = length l /\
  forall k n, l !! k = Some n ->
    exists n', l' !! k = Some n' /\ (k <> i -> same_place n n') /\ (k < i -> n' = n).

Variable dragState : DragState num.
Variable random : nat -> num.
Variable focusedNodeId : option string.
Variable inFocusMode : bool.
Variable focusedSubtreeIds : option (gset string).

(** The three force passes of [simulateNode] together. *)
Definition forces (nodeMap : gmap string nat) (isDragged : bool) (i : nat)
    (l : list (CloudNode num)) : list (CloudNode num) :=
  pushFromDrag dragState i
    (repelLoop dragState isDragged i (attractToParent inFocusMode nodeMap i l)).

(** The outer loop over a list of indices. *)
Definition steps (nodeMap : gmap string nat) (focusedNode : option (CloudNode num))
    (indices : list nat) (st : Sim num) : Sim num :=
  foldl (fun st i =>
           stepNode dragState random focusedNodeId inFocusMode focusedSubtreeIds
                    nodeMap focusedNode i st) st indices.

(** The state in which the outer loop reaches index [k]. *)
Definition stateBefore (nodes : list (CloudNode num)) (k : nat) : Sim num :=
  let nodeMap := buildNodeMap nodes in
  steps nodeMap (lookupFocusedNode focusedNodeId nodeMap nodes)
        (seq 0 k) (mkSim nodes (lit 0) 0).

(** A node that the loop locks: in the focused subtree, or, in free mode,
    focused, parent of the focused subtask, or a milestone. *)
Definition locked (focusedNode : option (CloudNode num)) (n : CloudNode num) : bool :=
  in_focused_subtree focusedSubtreeIds n
  || (negb inFocusMode
      && (isFocused focusedNodeId n || isParentOfFocusedSubtask focusedNode n
          || bool_decide (node_type n = milestone))).

(** What the loop does to a node in focus mode. *)
Definition focusModeNode (focusedNode : option (CloudNode num))
    (n : CloudNode num) : CloudNode num :=
  if is_dragged dragState n then pinToDrag dragState n
  else if in_focused_subtree focusedSubtreeIds n then set_velocity (lit 0) (lit 0) n
  else if isFocused focusedNodeId n || isParentOfFocusedSubtask focusedNode n then n
  else if isChildOfFocused focusedNode n then n
  else dampBackground n.

(** A background node of focus mode: not dragged, not in the focused
    subtree, not focused, not the parent of the focused subtask, not a child
    of the focused node. *)
Definition background (focusedNode : option (CloudNode num)) (n : CloudNode num) : Prop :=
  is_dragged dragState n = false /\
  in_focused_subtree focusedSubtreeIds n = false /\
  isFocused focusedNodeId n = false /\
  isParentOfFocusedSubtask focusedNode n = false /\
  isChildOfFocused focusedNode n = false.

(** The returned value bounds the speed of every node after the call. *)
Definition bounds_speeds (r : Sim num) : Prop :=
  forall n', n' ∈ sim_nodes r -> lt (sim_maxVelocity r) (speed_of n') = false.

(** A node sits where [existingPositions] says, if it says anything. *)
Definition keeps_existing (ep : gmap string (num * num)) (n : CloudNode num) : Prop :=
  forall p, ep !! node_id n = Some p -> (node_x n, node_y n) = p.

(** Where [placeChild] puts the [i]-th of [childCount] children. *)
Definition placedAt `{!JsTrig num} (parentNode : CloudNode num) (orbitRadius : num)
    (childCount i : nat) (child : CloudNode num) : CloudNode num :=
  let angle := childAngle i childCount in
  set_velocity (lit 0) (lit 0)
    (set_position (add (node_x parentNode) (mul (cos angle) orbitRadius))
                  (add (node_y parentNode) (mul (sin angle) orbitRadius)) child).
End SimulatorVocabulary.

Section RealVocabulary.
Local Open Scope R_scope.

(** The largest of the three coordinate distances between two puffs. *)
Definition puffDistance (cur tgt : Puff R) : R :=
  Rmax (Rmax (Rabs (puff_x cur - puff_x tgt)) (Rabs (puff_y cur - puff_y tgt)))
       (Rabs (puff_r cur - puff_r tgt)).

(** Every current puff that has a target is within [b] of it. *)
Definition boundedBy (b : R) (current target : list (Puff R)) : Prop :=
  forall i cur tgt, current !! i = Some cur -> target !! i = Some tgt ->
                    puffDistance cur tgt <= b.

(** The settled state: the flag is set, and every puff is within the
    threshold 0.3 of its target. *)
Definition settled (c : Cloud R) : Prop :=
  morphComplete c = true /\
  length (currentPuffs c) = length (targetPuffs c) /\
  boundedBy 0.3 (currentPuffs c) (targetPuffs c).

Definition resized (c : Cloud R) : list (Puff R) :=
  resizePuffs (currentPuffs c) (length (targetPuffs c)).

(** The outer edge of a puff: distance of its centre from the origin, plus
    its radius. *)
Definition outerEdge (p : Puff R) : R :=
  R_sqrt.sqrt (puff_x p * puff_x p + puff_y p * puff_y p) + puff_r p.

Definition inside (coverage : R) (p : Puff R) : Prop := outerEdge p <= coverage.

(** The orbit radius and the angles in the words of the specification. *)
Definition specOrbitRadius (parentCoverage gap maxChildCoverage spacing : R)
    (childCount : nat) : R :=
  Rmax (parentCoverage + gap + maxChildCoverage)
       (INR childCount * (2 * maxChildCoverage + spacing) / (2 * Rtrigo1.PI)).

Definition specAngle (i childCount : nat) : R :=
  - Rtrigo1.PI / 2 + INR i * (2 * Rtrigo1.PI / INR childCount).
End RealVocabulary.

(** ** Example inputs *)

(** A milestone with two tasks; task ["b"] is moving. *)
Definition example_nodes : list (CloudNode float) :=
  [ mkCloudNode "g" milestone (lit 100) (lit 100) (lit 1) (lit 0) (lit 80) None;
    mkCloudNode "a" task (lit 0) (lit 0) (lit 1) (lit 0) (lit 45) (Some "g");
    mkCloudNode "b" task (lit 10) (lit 0) (lit 3) (lit 4) (lit 45) (Some "g") ].

Definition example_random : nat -> float := fun _ => lit 0.5.

(** The same graph over the reals. *)
Definition example_nodes_R : list (CloudNode R) :=
  [ mkCloudNode "g" milestone 100%R 100%R 1%R 0%R 80%R None;
    mkCloudNode "a" task 0%R 0%R 1%R 0%R 45%R (Some "g");
    mkCloudNode "b" task 10%R 0%R 3%R 4%R 45%R (Some "g") ].

Definition example_random_R : nat -> R := fun _ => (/ 2)%R.

(** A milestone stored at the origin, held in memory at (5, 5). *)
Definition example_milestones : list (Milestone R) :=
  [ mkMilestone "g" (Some 0%R) (Some 0%R) [] ].

Definition example_previous : list (CloudNode R) :=
  [ mkCloudNode "g" milestone 5%R 5%R 0%R 0%R 80%R None ].

(** A task cloud shown as a child of the focused node. *)
Definition example_childCloud : Cloud R :=
  let c := newCloud (mkCloudNode "a" task 0%R 0%R 0%R 0%R 45%R (Some "g")) in
  mkCloud (cloud_node c) true (basePuffs c) (targetPuffs c) (currentPuffs c)
          (morphComplete c) (coverageR c) (hitArea c).

(** One puff at the centre, to be moved one unit to the right. *)
Definition example_morphing : Cloud float :=
  mkCloud (mkCloudNode "a" task (lit 0) (lit 0) (lit 0) (lit 0) (lit 45) (Some "g"))
          false [] [mkPuff (lit 1) (lit 0) (lit 0)] [mkPuff (lit 0) (lit 0) (lit 0)]
          false (lit 0) (lit 0, lit 0).

Definition example_morphing_R : Cloud R :=
  mkCloud (mkCloudNode "a" task 0%R 0%R 0%R 0%R 45%R (Some "g"))
          false [] [mkPuff 1%R 0%R 0%R] [mkPuff 0%R 0%R 0%R]
          false 0%R (0%R, 0%R).

(** The renderer's measurements for the example graph. *)
Definition example_clouds : gmap string R :=
  {[ "g" := 120%R; "a" := 60%R; "b" := 60%R ]}.

(** ** services/physics.ts: hit testing, neighbours and their cache *)

(** [a <= b] on numbers; like [<], false when either side is NaN. *)
Class JsLe (num : Type) := leq : num -> num -> bool.

#[export] Instance float_le : JsLe float := PrimFloat.leb.

#[export] Instance Rle_decision (a b : R) : Decision (a <= b)%R := Rle_dec a b.
#[export] Instance real_le : JsLe R := fun a b => bool_decide (a <= b)%R.

Section FindNodeAt.
Context {num : Type} `{!JsNumber num} `{!JsLe num}.
Local Open Scope num_scope.

Definition TOUCH_PADDING : num := lit 15.

(** The test of lines 478-484 for one node. *)
Definition hitBy (x y padding : num) (node : CloudNode num) : bool :=
  let dx := x - node_x node in
  let dy := y - node_y node in
  let dist := sqrt (dx * dx + dy * dy) in
  leq dist (node_radius node + padding).

(** [for (let i = nodes.length - 1; i >= 0; i--)], entered with [i + 1 = top]. *)
Fixpoint scanDown (x y padding : num) (nodes : list (CloudNode num)) (top : nat)
    : option (CloudNode num) :=
  match top with
  | O => None
  | S i =>
      match nodes !! i with
      | Some node => if hitBy x y padding node then Some node
                     else scanDown x y padding nodes i
      | None => scanDown x y padding nodes i
      end
  end.

Definition findNodeAt (nodes : list (CloudNode num)) (x y : num)
    (useExtraHitArea : bool) : option (CloudNode num) :=
  let padding := if useExtraHitArea then TOUCH_PADDING else lit 0 in
  scanDown x y padding nodes (length nodes).
End FindNodeAt.

Section Neighbors.
Context {num : Type} `{!JsNumber num}.
Local Open Scope num_scope.

(** An entry of [NeighborCache.cache].  The cached neighbours are the node
    objects themselves; the statements about them read their ids, which
    nothing writes. *)
Record CacheEntry := mkCacheEntry {
  entry_neighbors : list (CloudNode num);
  entry_positions : gmap string (num * num);
}.

(** The module-level singleton [neighborCache], passed explicitly. *)
Definition NeighborCache : Type := gmap string CacheEntry.

Definition POSITION_THRESHOLD : num := lit 20.

(** The body of the loop of [get], lines 17-25: false is [return null]. *)
Definition positionKept (positions : gmap string (num * num))
    (node : CloudNode num) : bool :=
  match positions !! node_id node with
  | None => false
  | Some cachedPos =>
      let dx := abs (node_x node - cachedPos.1) in
      let dy := abs (node_y node - cachedPos.2) in
      negb ((dx >? POSITION_THRESHOLD) || (dy >? POSITION_THRESHOLD))
  end.

Definition cache_get (cache : NeighborCache) (nodeId : string)
    (nodes : list (CloudNode num)) : option (list (CloudNode num)) :=
  match cache !! nodeId with
  | None => None
  | Some cached =>
      if forallb (positionKept (entry_positions cached)) nodes then
        if bool_decide (size (entry_positions cached) = length nodes)
        then Some (entry_neighbors cached)
        else None
      else None
  end.

Definition snapshotPositions (nodes : list (CloudNode num)) : gmap string (num * num) :=
  foldl (fun positions node => <[node_id node := (node_x node, node_y node)]> positions)
        ∅ nodes.

Definition cache_set (cache : NeighborCache) (nodeId : string)
    (neighbors nodes : list (CloudNode num)) : NeighborCache :=
  <[nodeId := mkCacheEntry neighbors (snapshotPositions nodes)]> cache.

Definition cache_clear (_ : NeighborCache) : NeighborCache := ∅.

(** [node.parentId], read as a condition. *)
Definition truthy_parent (parentId : option string) : bool :=
  match parentId with
  | Some s => truthy_string s
  | None => false
  end.

(** The predicate of the [filter] at lines 494-509. *)
Definition isNeighbor (targetNode node : CloudNode num) : bool :=
  if bool_decide (node_id node = node_id targetNode) then false
  else if bool_decide (node_parentId node = node_parentId targetNode)
          && truthy_parent (node_parentId node) then true
  else if bool_decide (Some (node_id node) = node_parentId targetNode)
          || bool_decide (node_parentId node = Some (node_id targetNode)) then true
  else
    let dx := node_x node - node_x targetNode in
    let dy := node_y node - node_y targetNode in
    let dist := sqrt (dx * dx + dy * dy) in
    let threshold := node_radius targetNode + node_radius node + lit 50 in
    dist <? threshold.

(** [findNeighbors]: the neighbours, and the cache after the call. *)
Definition findNeighbors (cache : NeighborCache) (nodes : list (CloudNode num))
    (targetNode : CloudNode num) : list (CloudNode num) * NeighborCache :=
  match cache_get cache (node_id targetNode) nodes with
  | Some cached => (cached, cache)
  | None =>
      let neighbors := filter (fun node => isNeighbor targetNode node = true) nodes in
      (neighbors, cache_set cache (node_id targetNode) neighbors nodes)
  end.

Definition clearNeighborCache (cache : NeighborCache) : NeighborCache :=
  cache_clear cache.
End Neighbors.
Arguments CacheEntry : clear implicits.
Arguments NeighborCache : clear implicits.

(** ** components/Cloud.ts: content layout and focus reset *)

Section CloudFocus.
Context {num : Type} `{!JsNumber num} `{!JsTrig num}.
Local Open Scope num_scope.

Definition PADDING_X : num := lit 40.
Definition PADDING_Y : num := lit 32.

(** [layoutFocusedContent] from line 703 on: the bounds [b] of the content
    container are measured by the renderer and enter as data.  The result
    is [requiredCoverageR] and the cloud with its morph targets. *)
Definition layoutFocusedContent (b_width b_height : num) (c : Cloud num) : num * Cloud num :=
  let requiredW := b_width + PADDING_X * lit 2 in
  let requiredH := b_height + PADDING_Y * lit 2 in
  let margin := lit 15 in
  let rx := requiredW / lit 2 + margin in
  let ry := requiredH / lit 2 + margin in
  (max rx ry, computeMorphPuffs requiredW requiredH c).

(** [layoutChildContent] from line 885 on. *)
Definition layoutChildContent (b_width b_height : num) (c : Cloud num) : num * Cloud num :=
  let childPaddingX := lit 30 in
  let childPaddingY := lit 25 in
  let requiredW := b_width + childPaddingX * lit 2 in
  let requiredH := b_height + childPaddingY * lit 2 in
  let margin := lit 15 in
  let rx := requiredW / lit 2 + margin in
  let ry := requiredH / lit 2 + margin in
  (max rx ry, computeMorphPuffs requiredW requiredH c).

(** [resetFocus], lines 465-483: [requiredCoverageR] becomes 0, the puffs
    go back to copies of the resting ones. *)
Definition resetFocus (c : Cloud num) : num * Cloud num :=
  (lit 0,
   mkCloud (cloud_node c) false (basePuffs c) (basePuffs c) (basePuffs c)
           (morphComplete c) (coverageR c) (hitArea c)).
End CloudFocus.

(** ** components/SkyCanvas.tsx: the physics part of the ticker *)

Section Ticker.
Context {num : Type} `{!JsNumber num}.
Local Open Scope num_scope.

(** Lines 749-764: the Focus Layout Map is written back to the nodes;
    [draggedCloud] is the id of [draggedCloudRef.current], if any. *)
Definition enforceNode (layout : gmap string (num * num)) (draggedCloud : option string)
    (node : CloudNode num) : CloudNode num :=
  match layout !! node_id node with
  | Some layoutPos =>
      let isDragged := bool_decide (draggedCloud = Some (node_id node)) in
      if negb isDragged
      then set_velocity (lit 0) (lit 0) (set_position layoutPos.1 layoutPos.2 node)
      else node
  | None => node
  end.

Definition enforceFocusLayout (focusedNode : option (CloudNode num))
    (layout : gmap string (num * num)) (draggedCloud : option string)
    (nodes : list (CloudNode num)) : list (CloudNode num) :=
  match focusedNode with
  | Some _ =>
      if bool_decide (0 < size layout)%nat
      then enforceNode layout draggedCloud <$> nodes
      else nodes
  | None => nodes
  end.

(** Lines 766-781: the call of [applyForces]; its return value is dropped. *)
Definition tickPhysics (dragState : DragState num) (random : nat -> num)
    (focusedNode : option (CloudNode num)) (layout : gmap string (num * num))
    (draggedCloud : option string) (nodes : list (CloudNode num))
    : list (CloudNode num) :=
  let enforced := enforceFocusLayout focusedNode layout draggedCloud nodes in
  if bool_decide (0 < length enforced)%nat then
    let focusedSubtreeIds :=
      if bool_decide (0 < size layout)%nat then Some (dom layout) else None in
    sim_nodes (applyForces dragState random (node_id <$> focusedNode)
                           (bool_decide (focusedNode <> None)) focusedSubtreeIds enforced)
  else enforced.
End Ticker.

Section FocusZoom.
Context {num : Type} `{!JsNumber num}.
Local Open Scope num_scope.

(** Lines 800-809, the body of [focusLayoutPositionsRef.current.forEach]:
    how far the entry [(id, pos)] reaches from the focus point, with the
    20px padding.  [clouds] holds [requiredCoverageR] of the clouds that exist. *)
Definition entryReach (clouds : gmap string num) (focusX focusY : num)
    (id : string) (pos : num * num) : num :=
  let dx := pos.1 - focusX in
  let dy := pos.2 - focusY in
  let dist := sqrt (dx * dx + dy * dy) in
  let childR := match clouds !! id with
                | Some requiredCoverageR => requiredCoverageR
                | None => lit 60
                end in
  dist + childR + lit 20.

(** Lines 794-810: [entries] are the entries of the Focus Layout Map in the
    order [forEach] visits them; [(focusX, focusY)] is the position of the
    focused cloud, or of the focused node when it has no cloud. *)
Definition focusContentRadius (clouds : gmap string num)
    (currentFocusedNode : CloudNode num) (focusX focusY : num)
    (entries : list (string * (num * num))) : num :=
  foldl (fun contentRadius entry =>
           if bool_decide (entry.1 <> node_id currentFocusedNode)
           then max contentRadius (entryReach clouds focusX focusY entry.1 entry.2)
           else contentRadius)
        (node_radius currentFocusedNode) entries.

(** Lines 812-818. *)
Definition focusTargetScale (screenWidth screenHeight contentRadius : num) : num :=
  let viewportMin := min screenWidth screenHeight in
  let padding := lit 60 in
  let idealScale := (viewportMin - padding * lit 2) / (contentRadius * lit 2) in
  max (lit 0.8) (min (lit 2.5) idealScale).
End FocusZoom.

(** ** utils/zoneDetection.ts, with config/constants.ts *)

Module INTERACTION.
Section Interaction.
Context {num : Type} `{!JsNumber num}.
Definition DELETE_ZONE_SIZE : num := lit 80.
Definition ZONE_FADE_START : num := lit 150.
End Interaction.
End INTERACTION.

Section ZoneDetection.
Context {num : Type} `{!JsNumber num} `{!JsLe num}.
Local Open Scope num_scope.
Import INTERACTION.

Definition isInCompleteZone (_x y _width _height : num) : bool :=
  y <? DELETE_ZONE_SIZE.

Definition isInDeleteZone (x y width height : num) : bool :=
  if y <? DELETE_ZONE_SIZE then false
  else (x <? DELETE_ZONE_SIZE) || (x >? width - DELETE_ZONE_SIZE)
       || (y >? height - DELETE_ZONE_SIZE).

Definition calculateCompleteZoneIntensity (_x y _width _height : num) : num :=
  let distToTop := y in
  if distToTop >? ZONE_FADE_START then lit 0
  else if leq distToTop DELETE_ZONE_SIZE then lit 1
  else lit 1 - (distToTop - DELETE_ZONE_SIZE) / (ZONE_FADE_START - DELETE_ZONE_SIZE).

Definition calculateDeleteZoneIntensity (x y width height : num) : num :=
  let distToLeft := x in
  let distToRight := width - x in
  let distToBottom := height - y in
  let minDist := min (min distToLeft distToRight) distToBottom in
  if minDist >? ZONE_FADE_START then lit 0
  else if leq minDist DELETE_ZONE_SIZE then lit 1
  else lit 1 - (minDist - DELETE_ZONE_SIZE) / (ZONE_FADE_START - DELETE_ZONE_SIZE).

Record ZoneState := mkZoneState {
  inCompleteZone : bool;
  inDeleteZone : bool;
  completeIntensity : num;
  deleteIntensity : num;
}.

Definition getZoneState (x y width height : num) : ZoneState :=
  mkZoneState (isInCompleteZone x y width height)
              (isInDeleteZone x y width height)
              (calculateCompleteZoneIntensity x y width height)
              (calculateDeleteZoneIntensity x y width height).
End ZoneDetection.
Arguments ZoneState : clear implicits.

(** ** utils/colorUtils.ts *)

Section ColorUtils.
Context {num : Type} `{!JsNumber num}.
Local Open Scope num_scope.

(** [a >> n]. *)
Definition sar (a n : Z) : Z := Z.shiftr (SeededRandom.ToInt32 a) n.

(** A value of [Math.round] as the bit operators read it: NaN and the
    infinities are read as 0. *)
Definition int_of_rounded (r : rounded) : Z :=
  match r with
  | RInt z => z
  | RNaN | RInfinity _ => 0%Z
  end.

(** [(color >> shift) & 0xFF]. *)
Definition channel (color shift : Z) : Z :=
  SeededRandom.and32 (sar color shift) 0xFF.

(** [Math.round(c1 + (c2 - c1) * ratio)]. *)
Definition blendChannel (c1 c2 : Z) (ratio : num) : rounded :=
  round (of_Z c1 + (of_Z c2 - of_Z c1) * ratio).

(** [blendColors]; colours are integers. *)
Definition blendColors (color1 color2 : Z) (ratio : num) : Z :=
  let r1 := channel color1 16 in
  let g1 := channel color1 8 in
  let b1 := SeededRandom.and32 color1 0xFF in
  let r2 := channel color2 16 in
  let g2 := channel color2 8 in
  let b2 := SeededRandom.and32 color2 0xFF in
  let r := int_of_rounded (blendChannel r1 r2 ratio) in
  let g := int_of_rounded (blendChannel g1 g2 ratio) in
  let b := int_of_rounded (blendChannel b1 b2 ratio) in
  SeededRandom.or32 (SeededRandom.or32 (SeededRandom.shl r 16) (SeededRandom.shl g 8)) b.
End ColorUtils.

(** ** Vocabulary of the further statements *)

Section FurtherVocabulary.
Context {num : Type} `{!JsNumber num}.

(** [same_node n n']: [n'] is the node [n], moved or not. *)
Definition same_node (n n' : CloudNode num) : Prop :=
  node_id n' = node_id n /\ node_type n' = node_type n /\
  node_radius n' = node_radius n /\ node_parentId n' = node_parentId n.

(** Every cached neighbour list leaves out the node it was computed for. *)
Definition excludes_target (cache : NeighborCache num) : Prop :=
  forall nodeId entry,
    cache !! nodeId = Some entry ->
    Forall (fun node => node_id node <> nodeId) (entry_neighbors entry).

(** A node's parent, if it names one, is a node of the list with the parent's kind. *)
Definition parent_present (nodes : list (CloudNode num)) (n : CloudNode num) : Prop :=
  match node_parentId n with
  | None => node_type n = milestone
  | Some pid =>
      exists p, p ∈ nodes /\ node_id p = pid /\
                match node_type n with
                | milestone => False
                | task => node_type p = milestone
                | subtask => node_type p = task
                end
  end.

(** The node [createNodes] makes of a milestone, of a task of the milestone
    [milestoneId], of a subtask of the task [t]. *)
Definition is_milestone_node (m : Milestone num) (n : CloudNode num) : Prop :=
  node_id n = milestone_id m /\ node_type n = milestone /\
  node_parentId n = None /\ node_radius n = LAYOUT.MILESTONE_RADIUS.

Definition is_task_node (milestoneId : string) (t : Task) (n : CloudNode num) : Prop :=
  node_id n = task_id t /\ node_type n = task /\
  node_parentId n = Some milestoneId /\ node_radius n = taskRadiusOf t.

Definition is_subtask_node (t : Task) (s : Subtask) (n : CloudNode num) : Prop :=
  node_id n = subtask_id s /\ node_type n = subtask /\
  node_parentId n = Some (task_id t) /\ node_radius n = LAYOUT.SUBTASK_RADIUS.

(** Where a node of the graph comes from in the entity tree. *)
Definition node_of_tree (focusedNode : option (CloudNode num))
    (milestones : list (Milestone num)) (n : CloudNode num) : Prop :=
  (exists m, m ∈ milestones /\ is_milestone_node m n) \/
  (exists m t, m ∈ milestones /\ t ∈ milestone_tasks m /\
               is_task_node (milestone_id m) t n) \/
  (exists m t s, m ∈ milestones /\ t ∈ milestone_tasks m /\ s ∈ task_subtasks t /\
                 isTaskFocused focusedNode t || isSubtaskFocused focusedNode t = true /\
                 is_subtask_node t s n).

(** The coverage radius the layout takes for a child, lines 176-182. *)
Definition childCoverageOf (clouds : gmap string num) (child : CloudNode num) : num :=
  match clouds !! node_id child with
  | Some requiredCoverageR => or_else requiredCoverageR (add (node_radius child) (lit 40))
  | None => add (node_radius child) (lit 40)
  end.

(** A drag of the node [nodeId] that starts at [(x0, y0)] and is followed by
    [k] pointer moves, each by [(dx, dy)]. *)
Definition dragAlong (nodeId : string) (x0 y0 dx dy : num) (k : nat) (d : DragState num)
    : DragState num :=
  foldl (fun d i => updateDragPhysics (add x0 (mul (of_nat i) dx))
                                      (add y0 (mul (of_nat i) dy)) d)
        (startDragPhysics nodeId x0 y0 d) (seq 1 k).
End FurtherVocabulary.

Section FurtherRealVocabulary.
Local Open Scope R_scope.

(** How far a node moved between two states. *)
Definition displacement (n n' : CloudNode R) : R :=
  R_sqrt.sqrt ((node_x n' - node_x n) * (node_x n' - node_x n)
               + (node_y n' - node_y n) * (node_y n' - node_y n)).

(** The point [(x, y)] is within [reach] of the centre of [n]. *)
Definition within (x y reach : R) (n : CloudNode R) : Prop :=
  (x - node_x n) * (x - node_x n) + (y - node_y n) * (y - node_y n) <= reach * reach.
End FurtherRealVocabulary.

(** ** Further example inputs *)

(** A milestone with one task and one subtask; the task is focused, and both
    are already on screen. *)
Definition example_tree : list (Milestone R) :=
  [mkMilestone "g" (Some 0%R) (Some 0%R) [mkTask "a" false [mkSubtask "s" false]]].

Definition example_focus : CloudNode R :=
  mkCloudNode "a" task 100%R 0%R 0%R 0%R 50%R (Some "g").

Definition example_known : list (CloudNode R) :=
  [example_focus; mkCloudNode "s" subtask 130%R 0%R 0%R 0%R 20%R (Some "a")].

(** ** services/physics.ts: the value [applyForces] returns *)

Section ObservedSpeed.
Context {num : Type} `{!JsNumber num}.

Variable dragState : DragState num.
Variable random : nat -> num.
Variable focusedNodeId : option string.
Variable focusedSubtreeIds : option (gset string).

(** In a free-mode call the node at index [k] reaches the integration block
    (lines 448-460): it is not the dragged node, and none of the [continue]
    branches of lines 286-324 takes it. *)
Definition integratedAt (nodes : list (CloudNode num)) (k : nat) : Prop :=
  exists n,
    nodes !! k = Some n /\
    is_dragged dragState n = false /\
    locked focusedNodeId false focusedSubtreeIds
           (lookupFocusedNode focusedNodeId (buildNodeMap nodes) nodes) n = false.

(** [speed] of line 448 in iteration [k] of a free-mode call: the speed of
    node [k] after the forces and the jitter, before the cap. *)
Definition observedSpeed (nodes : list (CloudNode num)) (k : nat) : num :=
  let st := stateBefore dragState random focusedNodeId false focusedSubtreeIds nodes k in
  let pushed := forces dragState false (buildNodeMap nodes) false k (sim_nodes st) in
  match pushed !! k with
  | Some nodeA => speed_of (jitterNode random (sim_random st) nodeA).1
  | None => lit 0
  end.
End ObservedSpeed.

(** ** services/physics.ts: [applyForces] with its array reads made fallible *)

Section ApplyForcesChecked.
Context {num : Type} `{!JsNumber num}.
Local Open Scope num_scope.

Variable dragState : DragState num.
Variable random : nat -> num.
Variable focusedNodeId : option string.
Variable inFocusMode : bool.
Variable focusedSubtreeIds : option (gset string).

(** [applyForces] has no [throw]; what can raise in it is a field read on
    [undefined].  The function reads the array twice, [nodes[i]] at line 271
    and [nodes[j]] at line 370, and reads fields of both results; the
    results of [nodeMap.get] are tested before use (lines 266, 293, 331) and
    arithmetic on numbers never raises.  Below, the two array reads are
    fallible: [None] is the TypeError. *)

(** [for (let j = i + 1; j < nodes.length; j++) { const nodeB = nodes[j]; ... }]. *)
Definition repelLoopE (isDragged : bool) (i : nat)
    (nodes : list (CloudNode num)) : option (list (CloudNode num)) :=
  foldl (fun acc j =>
           ns ← acc;
           ns !! j ≫= fun _ => Some (repel dragState isDragged i j ns))
        (Some nodes) (seq (S i) (length nodes - S i)).

(** Lines 327-460 for node [i]. *)
Definition simulateNodeE (nodeMap : gmap string nat) (isDragged : bool) (i : nat)
    (st : Sim num) : option (Sim num) :=
  let attracted := attractToParent inFocusMode nodeMap i (sim_nodes st) in
  repelled ← repelLoopE isDragged i attracted;
  let pushed := pushFromDrag dragState i repelled in
  nodeA ← pushed !! i;
  let (jittered, k) := jitterNode random (sim_random st) nodeA in
  let speed := speed_of jittered in
  let capped := capVelocity jittered in
  Some (mkSim (<[i := integrate capped]> pushed)
              (max (sim_maxVelocity st) speed) k).

(** The body of the outer loop, lines 270-463: [const nodeA = nodes[i]]. *)
Definition stepNodeE (nodeMap : gmap string nat)
    (focusedNode : option (CloudNode num)) (i : nat) (st : Sim num) : option (Sim num) :=
  nodeA ← sim_nodes st !! i;
  let isDragged := is_dragged dragState nodeA in
  if isDragged then
    Some (with_nodes st (alter (pinToDrag dragState) i (sim_nodes st)))
  else if in_focused_subtree focusedSubtreeIds nodeA then
    Some (with_nodes st (alter (set_velocity (lit 0) (lit 0)) i (sim_nodes st)))
  else if inFocusMode then
    if isFocused focusedNodeId nodeA || isParentOfFocusedSubtask focusedNode nodeA
    then Some st
    else if isChildOfFocused focusedNode nodeA then Some st
    else Some (with_nodes st (alter dampBackground i (sim_nodes st)))
  else if isFocused focusedNodeId nodeA || isParentOfFocusedSubtask focusedNode nodeA then
    Some (with_nodes st (alter (set_velocity (lit 0) (lit 0)) i (sim_nodes st)))
  else if bool_decide (node_type nodeA = milestone) then
    Some (with_nodes st (alter (set_velocity (lit 0) (lit 0)) i (sim_nodes st)))
  else simulateNodeE nodeMap isDragged i st.

Definition applyForcesE (nodes : list (CloudNode num)) : option (Sim num) :=
  let nodeMap := buildNodeMap nodes in
  let focusedNode := lookupFocusedNode focusedNodeId nodeMap nodes in
  foldl (fun acc i => st ← acc; stepNodeE nodeMap focusedNode i st)
        (Some (mkSim nodes (lit 0) 0))
        (seq 0 (length nodes)).
End ApplyForcesChecked.

(** Two coordinates are identical: the same value, or equal under [===]
    (which also holds of [+0] and [-0]). *)
Definition sameCoordinate (x y : float) : Prop :=
  x = y \/ PrimFloat.eqb x y = true.

(** A float that is a zero or NaN. *)
Definition zero_or_nan (f : float) : Prop :=
  Prim2SF f = S754_nan \/ exists s, Prim2SF f = S754_zero s.

(** ** components/Cloud.ts: the life of a cloud *)

Section CloudLifetime.
Context {num : Type} `{!JsNumber num} `{!JsTrig num}.

(** What the public methods do to the fields kept in [Cloud], in steps:
    [setFocused(true)], [computeRequiredSizeNow] and [forceFocusLayout] run a
    layout; [setFocused(false)] is [TargetToBase]; [setChildOfFocused(b)] is
    [SetChildFlag b] followed by a child layout or by [TargetToBase];
    [updateNode(node)] is [SetNode node] followed by a layout or by nothing;
    [update] is [UpdateMorph].  The bounds of a layout are measured by the
    renderer.  No method writes [basePuffs] after the constructor. *)
Inductive CloudStep :=
| LayoutFocused (b_width b_height : num)
| LayoutChild (b_width b_height : num)
| SetChildFlag (isChild : bool)            (* line 446 *)
| TargetToBase                             (* lines 438 and 454 *)
| ResetFocus
| UpdateMorph (deltaTime : num)
| SetNode (node : CloudNode num).          (* line 1345 *)

Definition cloudStep (s : CloudStep) (c : Cloud num) : Cloud num :=
  match s with
  | LayoutFocused b_width b_height => (layoutFocusedContent b_width b_height c).2
  | LayoutChild b_width b_height => (layoutChildContent b_width b_height c).2
  | SetChildFlag isChild =>
      mkCloud (cloud_node c) isChild (basePuffs c) (targetPuffs c) (currentPuffs c)
              (morphComplete c) (coverageR c) (hitArea c)
  | TargetToBase =>
      mkCloud (cloud_node c) (isChildOfFocusedNode c) (basePuffs c) (basePuffs c)
              (currentPuffs c) (morphComplete c) (coverageR c) (hitArea c)
  | ResetFocus => (resetFocus c).2
  | UpdateMorph deltaTime => updateMorph deltaTime c
  | SetNode node =>
      mkCloud node (isChildOfFocusedNode c) (basePuffs c) (targetPuffs c) (currentPuffs c)
              (morphComplete c) (coverageR c) (hitArea c)
  end.

(** [new Cloud(node)], then the steps in order. *)
Definition cloudAfter (node : CloudNode num) (steps : list CloudStep) : Cloud num :=
  foldl (fun c s => cloudStep s c) (newCloud node) steps.

(** SkyCanvas.tsx, lines 1019-1124: [updateNode(node)] is called on the
    cloud stored under [node.id], the id it was built for. *)
Definition steps_of (id : string) (steps : list CloudStep) : Prop :=
  Forall (fun s => match s with
                   | SetNode node => node_id node = id
                   | _ => True
                   end) steps.
End CloudLifetime.
Arguments CloudStep : clear implicits.

(** ** types/index.ts: the ids of an entity tree *)

Section TreeKinds.
Context {num : Type}.

Definition taskKinds (t : Task) : list (string * EntityType) :=
  (task_id t, task) :: ((fun s => (subtask_id s, subtask)) <$> task_subtasks t).

Definition milestoneKinds (m : Milestone num) : list (string * EntityType) :=
  (milestone_id m, milestone) :: (milestone_tasks m ≫= taskKinds).

(** Every entity of the tree, with its kind. *)
Definition treeKinds (milestones : list (Milestone num)) : list (string * EntityType) :=
  milestones ≫= milestoneKinds.

(** An id names entities of one kind, in both trees (ids are primary keys
    of the store; the clouds and the node map are keyed by id alone). *)
Definition one_kind_per_id (tree1 tree2 : list (Milestone num)) : Prop :=
  Forall (fun e1 =>
            Forall (fun e2 => e1.1 = e2.1 -> e1.2 = e2.2) (treeKinds tree2))
         (treeKinds tree1).
End TreeKinds.

(** ** Further example inputs *)

(** Task ["a"] twice in the previous nodes; the later entry is the one
    [existingPositions] keeps. *)
Definition example_previous_twice : list (CloudNode R) :=
  [ mkCloudNode "a" task 1%R 1%R 0%R 0%R 50%R (Some "g");
    mkCloudNode "s" subtask 130%R 0%R 0%R 0%R 20%R (Some "a");
    mkCloudNode "a" task 100%R 0%R 2%R 2%R 50%R (Some "g") ].

(** Task ["b"] dragged exactly onto task ["a"], which sits on its milestone. *)
Definition example_overlap : list (CloudNode float) :=
  [ mkCloudNode "g" milestone (lit 7) (lit 3) (lit 0) (lit 0) (lit 80) None;
    mkCloudNode "a" task (lit 7) (lit 3) (lit 1) (lit 0) (lit 45) (Some "g");
    mkCloudNode "b" task (lit 7) (lit 3) (lit 0) (lit 0) (lit 45) (Some "g") ].

Definition example_drag : DragState float :=
  updateDragPhysics (lit 7) (lit 3) (startDragPhysics "b" (lit 5) (lit 3) initialDragState).

(** The example tree later: the milestone was moved, a subtask was added,
    and task ["a"] is completed with its subtasks. *)
Definition example_tree_later : list (Milestone R) :=
  [mkMilestone "g" (Some 40%R) (Some 0%R)
     [mkTask "a" true [mkSubtask "s" true; mkSubtask "t" true]]].

(** A cloud settled on a one-puff shape away from its resting puff. *)
Definition example_settled_R : Cloud R :=
  mkCloud (mkCloudNode "a" task 0%R 0%R 0%R 0%R 45%R (Some "g"))
          false [mkPuff 0%R 0%R 0%R] [mkPuff 1%R 0%R 0%R] [mkPuff 1%R 0%R 0%R]
          true 0%R (0%R, 0%R).

(** * Properties of the force simulator *)

Section SimulatorFrame.
Context {num : Type} `{!JsNumber num}.
Implicit Types (n : CloudNode num) (l : list (CloudNode num)).

Lemma same_place_refl n : same_place n n.
Proof. by destruct n. Qed.

Lemma same_place_trans n1 n2 n3 :
  same_place n1 n2 -> same_place n2 n3 -> same_place n1 n3.
Proof.
  unfold same_place. intros H12 H23. rewrite H23 at 1. rewrite H12 at 1.
  by destruct n1.
Qed.

Lemma same_place_set_velocity a b n : same_place n (set_velocity a b n).
Proof. by destruct n. Qed.

Lemma same_place_fields n n' :
  same_place n n' ->
  node_id n' = node_id n /\ node_type n' = node_type n /\
  node_x n' = node_x n /\ node_y n' = node_y n /\
  node_radius n' = node_radius n /\ node_parentId n' = node_parentId n.
Proof. intros ->. by destruct n. Qed.

Lemma velocity_step_refl P l : velocity_step P l l.
Proof. split; [done|]. intros k n Hk. exists n. eauto using same_place_refl. Qed.

Lemma velocity_step_trans P l1 l2 l3 :
  velocity_step P l1 l2 -> velocity_step P l2 l3 -> velocity_step P l1 l3.
Proof.
  intros [Hlen12 H12] [Hlen23 H23]. split; [congruence|].
  intros k n1 Hk. destruct (H12 k n1 Hk) as (n2 & Hk2 & Hp12 & Hf12).
  destruct (H23 k n2 Hk2) as (n3 & Hk3 & Hp23 & Hf23).
  exists n3. split_and!; [done|by eapply same_place_trans|].
  intros HP. rewrite (Hf23 HP). auto.
Qed.

Lemma velocity_step_weaken (P Q : nat -> Prop) l l' :
  (forall k, P k -> Q k) -> velocity_step P l l' -> velocity_step Q l l'.
Proof.
  intros HPQ [Hlen H]. split; [done|]. intros k n Hk.
  destruct (H k n Hk) as (n' & ? & ? & Hf). exists n'. split_and!; auto.
Qed.

Lemma velocity_step_alter (P : nat -> Prop) f i l :
  (forall n, same_place n (f n)) -> P i -> velocity_step P l (alter f i l).
Proof.
  intros Hf HP. split; [by rewrite length_alter|]. intros k n Hk.
  destruct (decide (i = k)) as [->|Hne].
  - exists (f n). rewrite list_lookup_alter_eq, Hk. split_and!; [done|auto|done].
  - exists n. rewrite list_lookup_alter_ne by done. eauto using same_place_refl.
Qed.

Variable dragState : DragState num.
Variable random : nat -> num.
Variable focusedNodeId : option string.
Variable inFocusMode : bool.
Variable focusedSubtreeIds : option (gset string).

Lemma same_place_add_velocity a b n : same_place n (add_velocity a b n).
Proof. apply same_place_set_velocity. Qed.

Lemma same_place_sub_velocity a b n : same_place n (sub_velocity a b n).
Proof. apply same_place_set_velocity. Qed.

Lemma attractToParent_step fm nodeMap i l :
  velocity_step (eq i) l (attractToParent fm nodeMap i l).
Proof.
  unfold attractToParent.
  repeat case_match;
    first [ apply velocity_step_refl
          | apply velocity_step_alter; [apply same_place_add_velocity|done] ].
Qed.

Lemma repel_step isDragged i j l :
  velocity_step (fun k => k = i \/ k = j) l (repel dragState isDragged i j l).
Proof.
  assert (Halter : forall f k l0, (forall n, same_place n (f n)) -> k = i \/ k = j ->
            velocity_step (fun k => k = i \/ k = j) l0 (alter f k l0))
    by (intros; by apply velocity_step_alter).
  assert (Hvel : forall a b n, same_place n (add_velocity a b n) /\
                               same_place n (sub_velocity a b n))
    by (split; apply same_place_set_velocity).
  unfold repel.
  repeat case_match;
    first [ apply velocity_step_refl
          | apply Halter; [intros; apply Hvel|auto]
          | eapply velocity_step_trans;
            [|apply Halter; [intros; apply Hvel|auto]];
            apply Halter; [intros; apply Hvel|auto] ].
Qed.

Lemma repel_fold_step isDragged i js l :
  Forall (fun j => i < j) js ->
  velocity_step (fun k => i <= k) l (foldl (fun ns j => repel dragState isDragged i j ns) l js).
Proof.
  intros Hjs. revert l. induction Hjs as [|j js Hj _ IH]; intros l; simpl.
  - apply velocity_step_refl.
  - eapply velocity_step_trans; [|apply IH].
    eapply velocity_step_weaken; [|apply repel_step]. simpl. lia.
Qed.

Lemma repelLoop_step isDragged i l :
  velocity_step (fun k => i <= k) l (repelLoop dragState isDragged i l).
Proof.
  apply repel_fold_step. apply Forall_seq. lia.
Qed.

Lemma pushFromDrag_step i l :
  velocity_step (eq i) l (pushFromDrag dragState i l).
Proof.
  unfold pushFromDrag.
  repeat case_match; try apply velocity_step_refl.
  all: eapply velocity_step_trans;
    (apply velocity_step_alter; [apply same_place_add_velocity|done]).
Qed.

Lemma forces_step fm nodeMap isDragged i l :
  velocity_step (fun k => i <= k) l (forces dragState fm nodeMap isDragged i l).
Proof.
  unfold forces.
  eapply velocity_step_trans; [|eapply velocity_step_weaken; [|apply pushFromDrag_step]].
  eapply velocity_step_trans; [|apply repelLoop_step].
  eapply velocity_step_weaken; [|apply attractToParent_step].
  all: simpl; lia.
Qed.

Lemma velocity_step_node_step i l l' :
  velocity_step (fun k => i <= k) l l' -> node_step i l l'.
Proof.
  intros [Hlen H]. split; [done|]. intros k n Hk.
  destruct (H k n Hk) as (n' & ? & ? & Hf). exists n'. split_and!; auto.
  intros ?. apply Hf. lia.
Qed.

Lemma node_step_insert i l l' x :
  velocity_step (fun k => i <= k) l l' -> node_step i l (<[i := x]> l').
Proof.
  intros [Hlen H]. split; [by rewrite length_insert|]. intros k n Hk.
  destruct (decide (i = k)) as [->|Hne].
  - exists x. rewrite list_lookup_insert_eq.
    + split_and!; [done|done|lia].
    + rewrite Hlen. by eapply lookup_lt_Some.
  - destruct (H k n Hk) as (n' & ? & ? & Hf). exists n'.
    rewrite list_lookup_insert_ne by done. split_and!; auto.
    intros ?. apply Hf. lia.
Qed.

Lemma node_step_alter_place f i l :
  (forall n, same_place n (f n)) -> node_step i l (alter f i l).
Proof.
  intros Hf. apply velocity_step_node_step.
  apply velocity_step_alter; [done|simpl; lia].
Qed.

Lemma node_step_alter f i l : node_step i l (alter f i l).
Proof.
  split; [by rewrite length_alter|]. intros k n Hk.
  destruct (decide (i = k)) as [->|Hne].
  - exists (f n). rewrite list_lookup_alter_eq, Hk. split_and!; [done|done|lia].
  - exists n. rewrite list_lookup_alter_ne by done. eauto using same_place_refl.
Qed.

Lemma node_step_refl i l : node_step i l l.
Proof. apply velocity_step_node_step, velocity_step_refl. Qed.

Lemma simulateNode_step fm nodeMap isDragged i st :
  node_step i (sim_nodes st)
    (sim_nodes (simulateNode dragState random fm nodeMap isDragged i st)).
Proof.
  unfold simulateNode. fold (forces dragState fm nodeMap isDragged i (sim_nodes st)).
  destruct (forces dragState fm nodeMap isDragged i (sim_nodes st) !! i) as [nodeA|] eqn:HA;
    [|apply node_step_refl].
  destruct (jitterNode random (sim_random st) nodeA) as [jittered k] eqn:Hj. simpl.
  apply node_step_insert, forces_step.
Qed.

Lemma stepNode_step nodeMap focusedNode i st :
  node_step i (sim_nodes st)
    (sim_nodes (stepNode dragState random focusedNodeId inFocusMode focusedSubtreeIds
                         nodeMap focusedNode i st)).
Proof.
  unfold stepNode.
  repeat case_match; unfold with_nodes; cbn [sim_nodes];
    first [apply node_step_refl | apply node_step_alter | apply simulateNode_step].
Qed.

Lemma steps_cons nodeMap focusedNode i indices st :
  steps dragState random focusedNodeId inFocusMode focusedSubtreeIds nodeMap focusedNode (i :: indices) st
  = steps dragState random focusedNodeId inFocusMode focusedSubtreeIds nodeMap focusedNode indices
      (stepNode dragState random focusedNodeId inFocusMode focusedSubtreeIds nodeMap focusedNode i st).
Proof. done. Qed.

Lemma steps_length nodeMap focusedNode indices st :
  length (sim_nodes (steps dragState random focusedNodeId inFocusMode focusedSubtreeIds nodeMap focusedNode indices st)) = length (sim_nodes st).
Proof.
  revert st. induction indices as [|i indices IH]; intros st; [done|].
  rewrite steps_cons, IH. apply stepNode_step.
Qed.

Lemma steps_other nodeMap focusedNode indices k st n :
  Forall (fun i => i <> k) indices ->
  sim_nodes st !! k = Some n ->
  exists n', sim_nodes (steps dragState random focusedNodeId inFocusMode focusedSubtreeIds nodeMap focusedNode indices st) !! k = Some n' /\ same_place n n'.
Proof.
  intros His. revert st n. induction His as [|i indices Hi _ IH]; intros st n Hk.
  - exists n. eauto using same_place_refl.
  - rewrite steps_cons. destruct (stepNode_step nodeMap focusedNode i st) as [_ Hstep].
    destruct (Hstep k n Hk) as (n1 & Hk1 & Hp & _).
    destruct (IH _ _ Hk1) as (n2 & Hk2 & Hp2).
    exists n2. split; [done|]. eapply same_place_trans; [|done]. auto.
Qed.

Lemma steps_later nodeMap focusedNode indices k st :
  Forall (fun i => k < i) indices ->
  sim_nodes (steps dragState random focusedNodeId inFocusMode focusedSubtreeIds nodeMap focusedNode indices st) !! k = sim_nodes st !! k.
Proof.
  intros His. revert st. induction His as [|i indices Hi _ IH]; intros st; [done|].
  rewrite steps_cons, IH.
  destruct (stepNode_step nodeMap focusedNode i st) as [Hlen Hstep].
  destruct (sim_nodes st !! k) as [n|] eqn:Hk.
  - destruct (Hstep k n Hk) as (n1 & Hk1 & _ & Heq). rewrite Hk1, Heq; [done|lia].
  - apply lookup_ge_None. rewrite Hlen. by apply lookup_ge_None.
Qed.

(** Node [k] after the call is node [k] after its own iteration, and it
    enters that iteration at the place it had before the call. *)
Lemma applyForces_node nodes k n :
  nodes !! k = Some n ->
  let nodeMap := buildNodeMap nodes in
  let focusedNode := lookupFocusedNode focusedNodeId nodeMap nodes in
  exists nk,
    sim_nodes (stateBefore dragState random focusedNodeId inFocusMode focusedSubtreeIds nodes k) !! k = Some nk /\ same_place n nk /\
    sim_nodes (applyForces dragState random focusedNodeId inFocusMode focusedSubtreeIds nodes) !! k
    = sim_nodes (stepNode dragState random focusedNodeId inFocusMode focusedSubtreeIds
                          nodeMap focusedNode k (stateBefore dragState random focusedNodeId inFocusMode focusedSubtreeIds nodes k)) !! k.
Proof.
  intros Hk nodeMap focusedNode.
  assert (Hlt : k < length nodes) by (by eapply lookup_lt_Some).
  destruct (steps_other nodeMap focusedNode (seq 0 k) k (mkSim nodes (lit 0) 0) n)
    as (nk & Hnk & Hp); [apply Forall_seq; lia|done|].
  exists nk. split_and!; [done|done|].
  unfold applyForces. fold nodeMap focusedNode.
  replace (length nodes) with (k + S (length nodes - S k)) by lia.
  rewrite seq_app, foldl_app. simpl.
  apply (steps_later nodeMap focusedNode (seq (S k) (length nodes - S k)) k).
  apply Forall_seq. lia.
Qed.

Lemma same_place_set_velocity_eq a b n nk :
  same_place n nk -> set_velocity a b nk = set_velocity a b n.
Proof. intros ->. by destruct n. Qed.

Lemma same_place_pinToDrag n nk :
  same_place n nk -> pinToDrag dragState nk = pinToDrag dragState n.
Proof. intros ->. by destruct n. Qed.

Lemma stepNode_dragged nodeMap focusedNode k st nk :
  sim_nodes st !! k = Some nk ->
  is_dragged dragState nk = true ->
  sim_nodes (stepNode dragState random focusedNodeId inFocusMode focusedSubtreeIds
                      nodeMap focusedNode k st) !! k = Some (pinToDrag dragState nk).
Proof.
  intros Hk Hd. unfold stepNode. rewrite Hk, Hd. simpl.
  by rewrite list_lookup_alter_eq, Hk.
Qed.

Lemma stepNode_locked nodeMap focusedNode k st nk :
  sim_nodes st !! k = Some nk ->
  is_dragged dragState nk = false ->
  locked focusedNodeId inFocusMode focusedSubtreeIds focusedNode nk = true ->
  sim_nodes (stepNode dragState random focusedNodeId inFocusMode focusedSubtreeIds
                      nodeMap focusedNode k st) !! k
  = Some (set_velocity (lit 0) (lit 0) nk).
Proof.
  intros Hk Hd Hl. unfold stepNode, locked in *. rewrite Hk, Hd.
  destruct (in_focused_subtree focusedSubtreeIds nk); simpl in *.
  { by rewrite list_lookup_alter_eq, Hk. }
  destruct inFocusMode; simpl in *; [done|].
  destruct (isFocused focusedNodeId nk || isParentOfFocusedSubtask focusedNode nk);
    simpl in *.
  { by rewrite list_lookup_alter_eq, Hk. }
  rewrite Hl. simpl. by rewrite list_lookup_alter_eq, Hk.
Qed.

Lemma applyForces_dragged nodes k n :
  nodes !! k = Some n ->
  is_dragged dragState n = true ->
  sim_nodes (applyForces dragState random focusedNodeId inFocusMode focusedSubtreeIds nodes) !! k
  = Some (pinToDrag dragState n).
Proof.
  intros Hk Hd. destruct (applyForces_node nodes k n Hk) as (nk & Hnk & Hp & ->).
  rewrite (stepNode_dragged _ _ _ _ nk Hnk).
  - by rewrite (same_place_pinToDrag n nk).
  - rewrite Hp. exact Hd.
Qed.

Lemma applyForces_locked nodes k n :
  nodes !! k = Some n ->
  is_dragged dragState n = false ->
  locked focusedNodeId inFocusMode focusedSubtreeIds (lookupFocusedNode focusedNodeId (buildNodeMap nodes) nodes) n = true ->
  sim_nodes (applyForces dragState random focusedNodeId inFocusMode focusedSubtreeIds nodes) !! k
  = Some (set_velocity (lit 0) (lit 0) n).
Proof.
  intros Hk Hd Hl. destruct (applyForces_node nodes k n Hk) as (nk & Hnk & Hp & ->).
  rewrite (stepNode_locked _ _ _ _ nk Hnk).
  - by rewrite (same_place_set_velocity_eq _ _ n nk).
  - rewrite Hp. exact Hd.
  - rewrite Hp. exact Hl.
Qed.

(** *** Focus mode: the loop is a map over the nodes *)

Lemma alter_fixed {A} (f : A -> A) (l : list A) i x :
  l !! i = Some x -> f x = x -> alter f i l = l.
Proof.
  intros Hi Hf. apply list_eq. intros k. destruct (decide (i = k)) as [->|].
  - by rewrite list_lookup_alter_eq, Hi; simpl; rewrite Hf.
  - by rewrite list_lookup_alter_ne.
Qed.

Lemma alter_out_of_range {A} (f : A -> A) (xs : list A) i :
  xs !! i = None -> alter f i xs = xs.
Proof.
  intros Hi. apply list_eq. intros k. destruct (decide (i = k)) as [->|].
  - by rewrite list_lookup_alter_eq, Hi.
  - by rewrite list_lookup_alter_ne.
Qed.

Lemma foldl_alter_seq {A} (f : A -> A) (l : list A) a m k :
  foldl (fun xs i => alter f i xs) l (seq a m) !! k
  = if bool_decide (a <= k < a + m) then f <$> l !! k else l !! k.
Proof.
  revert a l. induction m as [|m IH]; intros a l; simpl.
  - rewrite bool_decide_eq_false_2 by lia. done.
  - rewrite IH. destruct (decide (a = k)) as [->|Hne].
    + rewrite bool_decide_eq_false_2 by lia.
      rewrite bool_decide_eq_true_2 by lia. by rewrite list_lookup_alter_eq.
    + rewrite list_lookup_alter_ne by done.
      repeat case_bool_decide; try done; lia.
Qed.

Lemma map_as_foldl_alter {A} (f : A -> A) (l : list A) :
  foldl (fun xs i => alter f i xs) l (seq 0 (length l)) = f <$> l.
Proof.
  apply list_eq. intros k. rewrite foldl_alter_seq, list_lookup_fmap.
  case_bool_decide as Hk; [done|].
  rewrite (proj2 (lookup_ge_None l k)); [done|lia].
Qed.

Lemma stepNode_focus nodeMap focusedNode i st :
  inFocusMode = true ->
  stepNode dragState random focusedNodeId inFocusMode focusedSubtreeIds
           nodeMap focusedNode i st
  = with_nodes st (alter (focusModeNode dragState focusedNodeId focusedSubtreeIds focusedNode) i (sim_nodes st)).
Proof.
  intros ->. unfold stepNode.
  destruct (sim_nodes st !! i) as [nodeA|] eqn:Hi.
  - assert (Hfix : focusModeNode dragState focusedNodeId focusedSubtreeIds focusedNode nodeA = nodeA ->
                   st = with_nodes st (alter (focusModeNode dragState focusedNodeId focusedSubtreeIds focusedNode) i (sim_nodes st))).
    { intros Hf. rewrite (alter_fixed _ _ _ _ Hi Hf). by destruct st. }
    assert (Halt : forall f, focusModeNode dragState focusedNodeId focusedSubtreeIds focusedNode nodeA = f nodeA ->
              with_nodes st (alter f i (sim_nodes st))
              = with_nodes st (alter (focusModeNode dragState focusedNodeId focusedSubtreeIds focusedNode) i (sim_nodes st))).
    { intros f Hf. f_equal. apply list_alter_ext; [|done].
      intros x Hx. rewrite Hi in Hx. by simplify_eq. }
    unfold focusModeNode in *.
    repeat case_match; first [by apply Hfix | by apply Halt].
  - unfold with_nodes. rewrite alter_out_of_range by done. by destruct st.
Qed.

Lemma steps_focus nodeMap focusedNode indices st :
  inFocusMode = true ->
  steps dragState random focusedNodeId inFocusMode focusedSubtreeIds nodeMap focusedNode indices st
  = with_nodes st (foldl (fun l i => alter (focusModeNode dragState focusedNodeId focusedSubtreeIds focusedNode) i l) (sim_nodes st) indices).
Proof.
  intros Hf. revert st. induction indices as [|i indices IH]; intros st.
  - by destruct st.
  - rewrite steps_cons, IH, stepNode_focus by done. done.
Qed.

Lemma applyForces_focus nodes :
  inFocusMode = true ->
  applyForces dragState random focusedNodeId inFocusMode focusedSubtreeIds nodes
  = mkSim (focusModeNode dragState focusedNodeId focusedSubtreeIds (lookupFocusedNode focusedNodeId (buildNodeMap nodes) nodes)
             <$> nodes) (lit 0) 0.
Proof.
  intros Hf. unfold applyForces.
  pose proof (steps_focus (buildNodeMap nodes)
                (lookupFocusedNode focusedNodeId (buildNodeMap nodes) nodes)
                (seq 0 (length nodes)) (mkSim nodes (lit 0) 0) Hf) as Hs.
  unfold steps in Hs. rewrite Hs. unfold with_nodes. cbn [sim_nodes sim_maxVelocity sim_random].
  by rewrite map_as_foldl_alter.
Qed.

(** The call as the loop up to [k], the iteration at [k], and the rest. *)
Lemma applyForces_split nodes k :
  k < length nodes ->
  let nodeMap := buildNodeMap nodes in
  let focusedNode := lookupFocusedNode focusedNodeId nodeMap nodes in
  applyForces dragState random focusedNodeId inFocusMode focusedSubtreeIds nodes
  = steps dragState random focusedNodeId inFocusMode focusedSubtreeIds nodeMap focusedNode (seq (S k) (length nodes - S k))
      (stepNode dragState random focusedNodeId inFocusMode focusedSubtreeIds
                nodeMap focusedNode k (stateBefore dragState random focusedNodeId inFocusMode focusedSubtreeIds nodes k)).
Proof.
  intros Hk nodeMap focusedNode. unfold applyForces, stateBefore, steps.
  fold nodeMap focusedNode.
  replace (length nodes) with (k + S (length nodes - S k)) at 1 by lia.
  by rewrite seq_app, foldl_app.
Qed.
End SimulatorFrame.

(** ** The simulator over exact arithmetic *)

Ltac real_ops :=
  unfold LAYOUT.DAMPING, LAYOUT.MAX_VELOCITY, LAYOUT.DRAG_PUSH_RADIUS in *;
  unfold add, sub, mul, div, opp, sqrt, abs, max, min, lt, lit, real_number, Q2R in *;
  simpl Qnum in *; simpl Qden in *.

Section SimulatorReal.
Local Open Scope R_scope.
Implicit Types (n : CloudNode R) (st : Sim R).

Variable dragState : DragState R.
Variable random : nat -> R.
Variable focusedNodeId : option string.
Variable inFocusMode : bool.
Variable focusedSubtreeIds : option (gset string).

Lemma lt_true (a b : R) : lt a b = true <-> a < b.
Proof. unfold lt, real_number. apply bool_decide_eq_true. Qed.

Lemma lt_false (a b : R) : lt a b = false <-> b <= a.
Proof.
  unfold lt, real_number. rewrite bool_decide_eq_false. split; lra.
Qed.

Lemma norm_scale (a b c : R) :
  R_sqrt.sqrt (a * c * (a * c) + b * c * (b * c)) = Rabs c * R_sqrt.sqrt (a * a + b * b).
Proof.
  replace (a * c * (a * c) + b * c * (b * c)) with (Rsqr c * (a * a + b * b))
    by (unfold Rsqr; ring).
  rewrite sqrt_mult; [|apply Rle_0_sqr|nra].
  by rewrite sqrt_Rsqr_abs.
Qed.

Lemma speed_of_zero n : speed_of (set_velocity (lit 0) (lit 0) n) = 0.
Proof.
  unfold speed_of. simpl. real_ops.
  replace (0 * / 1 * (0 * / 1) + 0 * / 1 * (0 * / 1)) with 0 by lra.
  apply sqrt_0.
Qed.

Lemma speed_of_nonneg n : 0 <= speed_of n.
Proof. unfold speed_of. real_ops. apply sqrt_pos. Qed.

Lemma speed_of_cap n : speed_of (capVelocity n) <= speed_of n.
Proof.
  unfold capVelocity. destruct (lt _ _) eqn:Hlt; [|lra].
  apply lt_true in Hlt. unfold speed_of in *. simpl. real_ops.
  set (s := R_sqrt.sqrt (node_vx n * node_vx n + node_vy n * node_vy n)) in *.
  assert (Hs : 0 < s) by lra.
  replace (node_vx n / s * (5 * / 1)) with (node_vx n * (5 / s)) by (field; lra).
  replace (node_vy n / s * (5 * / 1)) with (node_vy n * (5 / s)) by (field; lra).
  rewrite norm_scale. fold s.
  rewrite Rabs_right.
  - replace (5 / s * s) with 5 by (field; lra). lra.
  - apply Rle_ge. apply Rlt_le. apply Rdiv_lt_0_compat; lra.
Qed.

Lemma speed_of_integrate n : speed_of (integrate n) <= speed_of n.
Proof.
  unfold integrate, speed_of. simpl. real_ops.
  rewrite norm_scale. rewrite Rabs_right by lra.
  pose proof (sqrt_pos (node_vx n * node_vx n + node_vy n * node_vy n)). nra.
Qed.

Lemma simulateNode_max_mono fm nodeMap isDragged i st :
  sim_maxVelocity st
  <= sim_maxVelocity (simulateNode dragState random fm nodeMap isDragged i st).
Proof.
  unfold simulateNode. case_match; [|lra].
  destruct (jitterNode _ _ _). simpl. real_ops. apply Rmax_l.
Qed.

Lemma stepNode_max_mono nodeMap focusedNode i st :
  sim_maxVelocity st <= sim_maxVelocity (stepNode dragState random focusedNodeId inFocusMode focusedSubtreeIds nodeMap focusedNode i st).
Proof.
  unfold stepNode.
  repeat case_match; unfold with_nodes; cbn [sim_maxVelocity];
    first [lra | apply simulateNode_max_mono].
Qed.

Lemma steps_max_mono nodeMap focusedNode indices st :
  sim_maxVelocity st
  <= sim_maxVelocity (steps dragState random focusedNodeId inFocusMode focusedSubtreeIds
                            nodeMap focusedNode indices st).
Proof.
  revert st. induction indices as [|i indices IH]; intros st; simpl; [lra|].
  etransitivity; [apply (stepNode_max_mono nodeMap focusedNode i)|apply IH].
Qed.

Lemma speed_of_pinToDrag n : speed_of (pinToDrag dragState n) = 0.
Proof. unfold pinToDrag. apply speed_of_zero. Qed.

(** In free mode the node handled by an iteration ends it no faster than
    the running maximum. *)
Lemma stepNode_free_bound nodeMap focusedNode k st nk :
  inFocusMode = false ->
  sim_nodes st !! k = Some nk ->
  0 <= sim_maxVelocity st ->
  exists n', sim_nodes (stepNode dragState random focusedNodeId inFocusMode focusedSubtreeIds nodeMap focusedNode k st) !! k = Some n' /\
             speed_of n' <= sim_maxVelocity (stepNode dragState random focusedNodeId inFocusMode focusedSubtreeIds nodeMap focusedNode k st).
Proof.
  intros Hfree Hk Hmax. unfold stepNode. rewrite Hk, Hfree.
  assert (Hzero : forall f, (forall n, speed_of (f n) = 0) ->
            exists n', sim_nodes (with_nodes st (alter f k (sim_nodes st))) !! k = Some n' /\
                       speed_of n' <= sim_maxVelocity (with_nodes st (alter f k (sim_nodes st)))).
  { intros f Hf. exists (f nk). unfold with_nodes. cbn [sim_nodes sim_maxVelocity].
    rewrite list_lookup_alter_eq, Hk. split; [done|]. rewrite Hf. done. }
  repeat case_match;
    try (apply Hzero; first [apply speed_of_pinToDrag | apply speed_of_zero]).
  unfold simulateNode.
  set (pushed := pushFromDrag _ _ _).
  assert (Hlen : length pushed = length (sim_nodes st)).
  { unfold pushed. fold (forces dragState false nodeMap false k (sim_nodes st)).
    apply forces_step. }
  assert (Hlt : (k < length pushed)%nat) by (rewrite Hlen; by eapply lookup_lt_Some).
  destruct (lookup_lt_is_Some_2 _ _ Hlt) as [nodeA HA]. rewrite HA.
  destruct (jitterNode random (sim_random st) nodeA) as [jittered j].
  cbn [sim_nodes sim_maxVelocity].
  exists (integrate (capVelocity jittered)).
  rewrite list_lookup_insert_eq by done. split; [done|].
  etransitivity; [apply speed_of_integrate|].
  etransitivity; [apply speed_of_cap|]. real_ops. apply Rmax_r.
Qed.

Lemma lit_0 : (lit 0 : R) = 0.
Proof. real_ops. lra. Qed.

Lemma free_mode_bound nodes k n' :
  inFocusMode = false ->
  sim_nodes (applyForces dragState random focusedNodeId inFocusMode focusedSubtreeIds nodes)
    !! k = Some n' ->
  speed_of n'
  <= sim_maxVelocity (applyForces dragState random focusedNodeId inFocusMode
                                  focusedSubtreeIds nodes).
Proof.
  intros Hfree Hk.
  assert (Hlen : (k < length nodes)%nat).
  { apply lookup_lt_Some in Hk. unfold applyForces in Hk.
    pose proof (steps_length dragState random focusedNodeId inFocusMode focusedSubtreeIds
                  (buildNodeMap nodes)
                  (lookupFocusedNode focusedNodeId (buildNodeMap nodes) nodes)
                  (seq 0 (length nodes)) (mkSim nodes (lit 0) 0)) as Hl.
    unfold steps in Hl. rewrite Hl in Hk. done. }
  destruct (lookup_lt_is_Some_2 _ _ Hlen) as [n Hn].
  destruct (applyForces_node dragState random focusedNodeId inFocusMode focusedSubtreeIds
              nodes k n Hn) as (nk & Hnk & _ & Heq).
  rewrite Heq in Hk.
  destruct (stepNode_free_bound (buildNodeMap nodes)
              (lookupFocusedNode focusedNodeId (buildNodeMap nodes) nodes)
              k (stateBefore dragState random focusedNodeId inFocusMode focusedSubtreeIds nodes k)
              nk Hfree Hnk) as (n1 & Hn1 & Hb).
  { etransitivity; [|apply steps_max_mono]. cbn [sim_maxVelocity]. rewrite lit_0. lra. }
  rewrite Hn1 in Hk. injection Hk as <-.
  rewrite (applyForces_split dragState random focusedNodeId inFocusMode focusedSubtreeIds
             nodes k Hlen).
  etransitivity; [exact Hb|apply steps_max_mono].
Qed.

End SimulatorReal.

(** * Properties of the node graph *)

Section NodeGraph.
Context {num : Type} `{!JsNumber num} `{!JsTrig num}.
Implicit Types (n e : CloudNode num) (ep : gmap string (num * num)).

(** The position [existingPositions] holds for an id is that of the last
    node of [existingNodes] with this id. *)
Lemma existingPositions_foldl (ns : list (CloudNode num)) (m : gmap string (num * num)) s :
  foldl (fun m n => <[node_id n := (node_x n, node_y n)]> m) m ns !! s
  = match list_find (fun n => node_id n = s) (reverse ns) with
    | Some (_, e) => Some (node_x e, node_y e)
    | None => m !! s
    end.
Proof.
  revert m. induction ns as [|n ns IH]; intros m; simpl; [done|].
  rewrite IH, reverse_cons.
  destruct (list_find (fun n0 => node_id n0 = s) (reverse ns)) as [[i e]|] eqn:Hf.
  - erewrite list_find_app_l; [|exact Hf]. done.
  - rewrite list_find_app_r by done. simpl.
    case_decide as Hid; simpl.
    + by rewrite <- Hid, lookup_insert_eq.
    + by rewrite lookup_insert_ne.
Qed.

Lemma existingPositions_member (prev : list (CloudNode num)) e :
  e ∈ prev -> is_Some (existingPositionsOf (Some prev) !! node_id e).
Proof.
  intros He. unfold existingPositionsOf. rewrite existingPositions_foldl.
  destruct (list_find _ _) as [[i e']|] eqn:Hf; [done|].
  apply list_find_None in Hf. rewrite Forall_forall in Hf.
  exfalso. apply (Hf e); [|done]. by apply elem_of_reverse.
Qed.

Variable random : nat -> num.

Lemma subtaskNodes_spec ep t tx ty taskRadius n :
  n ∈ subtaskNodes ep t tx ty taskRadius ->
  node_type n = subtask /\ keeps_existing ep n.
Proof.
  unfold subtaskNodes. intros Hn.
  apply list_elem_of_lookup in Hn as [k Hk].
  rewrite list_lookup_imap in Hk.
  destruct (task_subtasks t !! k) as [s|]; [|done]. simpl in Hk.
  destruct (ep !! subtask_id s) as [[sx sy]|] eqn:Hs; simplify_eq; simpl.
  - split; [done|]. intros p Hp. simpl in *. congruence.
  - split; [done|]. intros p Hp. simpl in *. congruence.
Qed.

Lemma taskNodes_spec ep focusedNode milestoneId mx my taskCount j tasks k n :
  n ∈ (taskNodes random ep focusedNode milestoneId mx my taskCount j tasks k).1 ->
  node_type n <> milestone /\ keeps_existing ep n.
Proof.
  revert j k. induction tasks as [|t rest IH]; intros j k; simpl.
  - by intros ?%elem_of_nil.
  - destruct (ep !! task_id t) as [p|] eqn:Hp; simpl.
    + destruct (taskNodes random ep focusedNode milestoneId mx my taskCount (S j) rest k)
        as [others k2] eqn:Hrest. simpl.
      intros Hn; apply elem_of_cons in Hn as [->|Hn]; [|apply elem_of_app in Hn as [Hsub|Hothers]].
      * split; [done|]. intros q Hq. simpl in *. rewrite Hp in Hq. simplify_eq. by destruct q.
      * destruct (_ || _); [|by apply elem_of_nil in Hsub].
        apply subtaskNodes_spec in Hsub as [-> ?]. done.
      * apply (IH (S j) k). by rewrite Hrest.
    + destruct (taskNodes random ep focusedNode milestoneId mx my taskCount (S j) rest (S k))
        as [others k2] eqn:Hrest. simpl.
      intros Hn; apply elem_of_cons in Hn as [->|Hn]; [|apply elem_of_app in Hn as [Hsub|Hothers]].
      * split; [done|]. intros q Hq. simpl in *. congruence.
      * destruct (_ || _); [|by apply elem_of_nil in Hsub].
        apply subtaskNodes_spec in Hsub as [-> ?]. done.
      * apply (IH (S j) (S k)). by rewrite Hrest.
Qed.

Lemma milestoneNodes_spec ep focusedNode width height milestoneCount i milestones k n :
  n ∈ (milestoneNodes random ep focusedNode width height milestoneCount i milestones k).1 ->
  node_type n <> milestone -> keeps_existing ep n.
Proof.
  revert i k. induction milestones as [|m rest IH]; intros i k; simpl.
  - by intros ?%elem_of_nil.
  - set (pos := match milestone_x m, milestone_y m with
                | Some sx, Some sy => (sx, sy) | _, _ => _ end).
    destruct pos as [mx my].
    destruct (taskNodes random ep focusedNode (milestone_id m) mx my
                        (length (milestone_tasks m)) 0 (milestone_tasks m) k)
      as [tasks k1] eqn:Htasks.
    destruct (milestoneNodes random ep focusedNode width height milestoneCount (S i) rest k1)
      as [others k2] eqn:Hrest. simpl.
    intros Hn Hty; apply elem_of_cons in Hn as [->|Hn]; [|apply elem_of_app in Hn as [Ht|Ho]].
    + done.
    + eapply taskNodes_spec. by erewrite Htasks.
    + apply (IH (S i) k1); [|done]. by rewrite Hrest.
Qed.

(** A milestone with a stored position is placed there. *)
Lemma milestoneNodes_stored ep focusedNode width height milestoneCount i milestones k m sx sy :
  m ∈ milestones -> milestone_x m = Some sx -> milestone_y m = Some sy ->
  mkCloudNode (milestone_id m) milestone sx sy (lit 0) (lit 0) LAYOUT.MILESTONE_RADIUS None
  ∈ (milestoneNodes random ep focusedNode width height milestoneCount i milestones k).1.
Proof.
  intros Hm Hx Hy. revert i k. induction milestones as [|m' rest IH]; intros i k; simpl.
  - by apply elem_of_nil in Hm.
  - set (pos := match milestone_x m', milestone_y m' with
                | Some sx, Some sy => (sx, sy) | _, _ => _ end).
    assert (Hpos : m = m' -> pos = (sx, sy)).
    { intros <-. unfold pos. by rewrite Hx, Hy. }
    destruct pos as [mx my].
    destruct (taskNodes _ _ _ _ _ _ _ _ _ _) as [tasks k1].
    destruct (milestoneNodes random ep focusedNode width height milestoneCount (S i) rest k1)
      as [others k2] eqn:Hrest. simpl.
    apply elem_of_cons in Hm as [Heq|Hin].
    + specialize (Hpos Heq). simplify_eq. apply elem_of_cons. by left.
    + apply elem_of_cons. right. apply elem_of_app. right.
      specialize (IH Hin (S i) k1). by rewrite Hrest in IH.
Qed.

(** Tasks that [existingPositions] knows are placed without [Math.random]. *)
Lemma taskNodes_known_tasks (r1 r2 : nat -> num) ep focusedNode milestoneId mx my
    taskCount j tasks k1 k2 :
  Forall (fun t => is_Some (ep !! task_id t)) tasks ->
  (taskNodes r1 ep focusedNode milestoneId mx my taskCount j tasks k1).1
  = (taskNodes r2 ep focusedNode milestoneId mx my taskCount j tasks k2).1.
Proof.
  intros Hknown. revert j k1 k2.
  induction Hknown as [|t rest [p Hp] _ IH]; intros j k1 k2; simpl; [done|].
  rewrite Hp. simpl.
  specialize (IH (S j) k1 k2).
  destruct (taskNodes r1 ep focusedNode milestoneId mx my taskCount (S j) rest k1).
  destruct (taskNodes r2 ep focusedNode milestoneId mx my taskCount (S j) rest k2).
  simpl in *. by rewrite IH.
Qed.

Lemma milestoneNodes_known_tasks (r1 r2 : nat -> num) ep focusedNode width height
    milestoneCount i milestones k1 k2 :
  Forall (fun m => Forall (fun t => is_Some (ep !! task_id t)) (milestone_tasks m))
         milestones ->
  (milestoneNodes r1 ep focusedNode width height milestoneCount i milestones k1).1
  = (milestoneNodes r2 ep focusedNode width height milestoneCount i milestones k2).1.
Proof.
  intros Hknown. revert i k1 k2.
  induction Hknown as [|m rest Hm _ IH]; intros i k1 k2; simpl; [done|].
  set (pos := match milestone_x m, milestone_y m with
              | Some sx, Some sy => (sx, sy) | _, _ => _ end).
  destruct pos as [mx my].
  pose proof (taskNodes_known_tasks r1 r2 ep focusedNode (milestone_id m) mx my
                (length (milestone_tasks m)) 0 (milestone_tasks m) k1 k2 Hm) as Ht.
  destruct (taskNodes r1 _ _ _ _ _ _ _ _ _) as [t1 k1'].
  destruct (taskNodes r2 _ _ _ _ _ _ _ _ _) as [t2 k2'].
  specialize (IH (S i) k1' k2').
  destruct (milestoneNodes r1 _ _ _ _ _ _ _ _).
  destruct (milestoneNodes r2 _ _ _ _ _ _ _ _).
  simpl in *. by rewrite Ht, IH.
Qed.
End NodeGraph.

(** * Shape synthesis is a function of the node, the mode and the size *)

Section Determinism.
Context {num : Type} `{!JsNumber num} `{!JsTrig num}.

Lemma for_puffs_length (body : nat -> Z -> Puff num * Z) i n s :
  length (for_puffs body i n s).1 = n.
Proof.
  revert i s. induction n as [|n IH]; intros i s; simpl; [done|].
  destruct (body i s) as [p s1]. specialize (IH (S i) s1).
  destruct (for_puffs body (S i) n s1). simpl in *. by rewrite IH.
Qed.

Lemma newCloud_basePuffs_length (node : CloudNode num) :
  length (basePuffs (newCloud node)) = S (bumpCountOf (node_type node)).
Proof.
  unfold newCloud. destruct (rng_next _) as [u s1]. simpl.
  by rewrite for_puffs_length.
Qed.

End Determinism.

(** * Morph settlement over exact arithmetic *)

Section Morph.
Local Open Scope R_scope.
Implicit Types (c : Cloud R) (p cur tgt : Puff R).

Lemma needsMorph_true cur tgt : needsMorph cur tgt = true <-> 0.3 < puffDistance cur tgt.
Proof.
  unfold needsMorph, puffDistance.
  rewrite !orb_true_iff, !lt_true. real_ops.
  unfold Rmax. repeat destruct (Rle_dec _ _); lra.
Qed.

Lemma needsMorph_false cur tgt : needsMorph cur tgt = false <-> puffDistance cur tgt <= 0.3.
Proof.
  destruct (needsMorph cur tgt) eqn:H.
  - apply needsMorph_true in H. split; [done|lra].
  - split; [|done]. intros _. apply Rnot_lt_le. intros Hlt.
    apply needsMorph_true in Hlt. congruence.
Qed.

Lemma puffDistance_morph dt cur tgt :
  puffDistance (morphPuff dt cur tgt) tgt = Rabs (1 - dt / 4) * puffDistance cur tgt.
Proof.
  unfold puffDistance, morphPuff. simpl. real_ops.
  assert (Hc : forall a b, Rabs (a + (b - a) * (25 * / 100) * dt - b)
                           = Rabs (1 - dt / 4) * Rabs (a - b)).
  { intros a b. rewrite <- Rabs_mult. f_equal. field. }
  rewrite !Hc. rewrite !RmaxRmult by apply Rabs_pos. done.
Qed.

Lemma boundedBy_weaken b b' current target :
  b <= b' -> boundedBy b current target -> boundedBy b' current target.
Proof. intros Hb H i cur tgt Hc Ht. specialize (H i cur tgt Hc Ht). lra. Qed.

Lemma resizePuffs_length (l : list (Puff R)) m : length (resizePuffs l m) = m.
Proof.
  unfold resizePuffs. rewrite length_take, length_app, length_replicate. lia.
Qed.

Lemma resizePuffs_same (l : list (Puff R)) : resizePuffs l (length l) = l.
Proof.
  unfold resizePuffs. rewrite Nat.sub_diag. simpl. rewrite app_nil_r.
  by rewrite firstn_all.
Qed.

Lemma updateMorph_complete dt c : morphComplete c = true -> updateMorph dt c = c.
Proof. intros H. unfold updateMorph. by rewrite H. Qed.

Lemma updateMorph_current dt c i :
  morphComplete c = false ->
  currentPuffs (updateMorph dt c) !! i
  = (fun cur => (interpolatePuff dt c i cur).1) <$> resized c !! i.
Proof.
  intros H. unfold updateMorph. rewrite H. simpl.
  rewrite list_lookup_fmap, list_lookup_imap. fold (resized c).
  by destruct (resized c !! i).
Qed.

Lemma updateMorph_tick dt c b :
  Rabs (1 - dt / 4) <= 1 ->
  morphComplete c = false ->
  boundedBy b (resized c) (targetPuffs c) ->
  targetPuffs (updateMorph dt c) = targetPuffs c /\
  length (currentPuffs (updateMorph dt c)) = length (targetPuffs c) /\
  boundedBy (Rmax 0.3 (Rabs (1 - dt / 4) * b))
            (currentPuffs (updateMorph dt c)) (targetPuffs c) /\
  (morphComplete (updateMorph dt c) = true ->
   boundedBy 0.3 (currentPuffs (updateMorph dt c)) (targetPuffs c)) /\
  (b <= 0.3 ->
   currentPuffs (updateMorph dt c) = resized c /\
   (length (currentPuffs c) = length (targetPuffs c) ->
    morphComplete (updateMorph dt c) = true)).
Proof.
  intros Hq Hinc Hb.
  assert (Htarget : forall i cur, resized c !! i = Some cur ->
            exists tgt, targetPuffs c !! i = Some tgt /\ targetOf c i = Some tgt).
  { intros i cur Hi. apply lookup_lt_Some in Hi. unfold resized in Hi.
    rewrite resizePuffs_length in Hi.
    destruct (lookup_lt_is_Some_2 _ _ Hi) as [tgt Ht].
    exists tgt. split; [done|]. unfold targetOf. by rewrite Ht. }
  split_and!.
  - unfold updateMorph. by rewrite Hinc.
  - unfold updateMorph. rewrite Hinc. simpl.
    by rewrite length_fmap, length_imap, resizePuffs_length.
  - intros i cur' tgt Hi Ht. rewrite updateMorph_current in Hi by done.
    destruct (resized c !! i) as [cur|] eqn:Hcur; [|done]. simpl in Hi. simplify_eq.
    destruct (Htarget i cur Hcur) as (tgt' & Ht' & Hof). simplify_eq.
    unfold interpolatePuff. rewrite Hof.
    specialize (Hb i cur tgt Hcur Ht).
    destruct (needsMorph cur tgt) eqn:Hneed; simpl.
    + rewrite puffDistance_morph. etransitivity; [|apply Rmax_r].
      apply Rmult_le_compat_l; [apply Rabs_pos|done].
    + apply needsMorph_false in Hneed. etransitivity; [exact Hneed|apply Rmax_l].
  - intros Hdone i cur' tgt Hi Ht. rewrite updateMorph_current in Hi by done.
    destruct (resized c !! i) as [cur|] eqn:Hcur; [|done]. simpl in Hi. simplify_eq.
    destruct (Htarget i cur Hcur) as (tgt' & Ht' & Hof). simplify_eq.
    unfold updateMorph in Hdone. rewrite Hinc in Hdone. simpl in Hdone.
    rewrite orb_false_r in Hdone. apply andb_true_iff in Hdone as [_ Hall].
    rewrite forallb_forall in Hall.
    specialize (Hall (interpolatePuff dt c i cur)).
    unfold interpolatePuff in *. rewrite Hof in *.
    destruct (needsMorph cur tgt) eqn:Hneed; simpl in *.
    + exfalso. assert (negb true = true); [|done]. apply Hall.
      apply list_elem_of_In. apply list_elem_of_lookup. exists i.
      fold (resized c). rewrite list_lookup_imap, Hcur. simpl.
      unfold interpolatePuff. by rewrite Hof, Hneed.
    + by apply needsMorph_false.
  - intros Hb3.
    assert (Hstay : forall i cur, resized c !! i = Some cur ->
              interpolatePuff dt c i cur = (cur, false)).
    { intros i cur Hcur. destruct (Htarget i cur Hcur) as (tgt & Ht & Hof).
      unfold interpolatePuff. rewrite Hof.
      destruct (needsMorph cur tgt) eqn:Hneed; [|done].
      apply needsMorph_true in Hneed. specialize (Hb i cur tgt Hcur Ht). lra. }
    assert (Hpasses : imap (interpolatePuff dt c) (resized c)
                      = (fun cur => (cur, false)) <$> resized c).
    { apply list_eq. intros i. rewrite list_lookup_imap, list_lookup_fmap.
      destruct (resized c !! i) as [cur|] eqn:Hcur; [|done]. simpl.
      by rewrite (Hstay i cur Hcur). }
    unfold updateMorph. rewrite Hinc. simpl. fold (resized c). rewrite Hpasses.
    split.
    + rewrite <- list_fmap_compose. apply list_fmap_id.
    + intros Hlen. rewrite bool_decide_eq_false_2 by lia. simpl.
      rewrite orb_false_r. apply forallb_forall. intros x Hx.
      apply list_elem_of_In, list_elem_of_fmap in Hx as (cur & -> & _). done.
Qed.

(** Bernoulli's inequality, in the form needed for the tick count. *)
Lemma pow_contract (q : R) (m : nat) : 0 <= q <= 1 -> q ^ m * (1 + INR m * (1 - q)) <= 1.
Proof.
  intros Hq. induction m as [|m IH]; [simpl; lra|].
  rewrite S_INR. simpl.
  assert (Hpow : 0 <= q ^ m) by (apply pow_le; lra).
  assert (Hstep : q * (1 + (INR m + 1) * (1 - q)) <= 1 + INR m * (1 - q)).
  { pose proof (pos_INR m) as Hm.
    assert (0 <= (INR m + 1) * ((1 - q) * (1 - q)))
      by (apply Rmult_le_pos; [lra|nra]).
    lra. }
  replace (q * q ^ m * (1 + (INR m + 1) * (1 - q)))
    with (q ^ m * (q * (1 + (INR m + 1) * (1 - q)))) by ring.
  etransitivity; [apply Rmult_le_compat_l; [done|exact Hstep]|done].
Qed.

Lemma pow_settles (q D : R) (m : nat) :
  0 <= q <= 1 -> D <= INR m * (0.3 * (1 - q)) -> q ^ m * D <= 0.3.
Proof.
  intros Hq HD.
  assert (Hpow : 0 <= q ^ m) by (apply pow_le; lra).
  pose proof (pow_contract q m Hq) as Hc.
  destruct (Rle_dec D 0) as [Hneg|Hpos]; [nra|].
  assert (q ^ m * D <= q ^ m * (INR m * (0.3 * (1 - q)))) by (apply Rmult_le_compat_l; lra).
  nra.
Qed.

Lemma iter_updateMorph dt c D m :
  Rabs (1 - dt / 4) <= 1 ->
  morphComplete c = false ->
  boundedBy D (resized c) (targetPuffs c) ->
  let cm := Nat.iter m (updateMorph dt) c in
  targetPuffs cm = targetPuffs c /\
  (settled cm \/
   (morphComplete cm = false /\
    boundedBy (Rmax 0.3 (Rabs (1 - dt / 4) ^ m * D)) (resized cm) (targetPuffs c))).
Proof.
  intros Hq Hinc HD. induction m as [|m [Htgt IH]]; simpl.
  - split; [done|]. right. split; [done|].
    eapply boundedBy_weaken; [|exact HD]. rewrite Rmult_1_l. apply Rmax_r.
  - set (cm := Nat.iter m (updateMorph dt) c) in *.
    destruct IH as [Hset|[Hincm Hb]].
    + rewrite (updateMorph_complete dt cm (proj1 Hset)). auto.
    + rewrite <- Htgt in Hb.
      destruct (updateMorph_tick dt cm _ Hq Hincm Hb) as (Ht & Hlen & Hb' & Hdone & _).
      split; [congruence|].
      destruct (morphComplete (updateMorph dt cm)) eqn:Hc.
      * left. split_and!; [done|congruence|]. rewrite Ht. auto.
      * right. split; [done|].
        unfold resized. rewrite Ht, <- Hlen, resizePuffs_same.
        rewrite Htgt in Hb'. eapply boundedBy_weaken; [|exact Hb'].
        pose proof (Rabs_pos (1 - dt / 4)).
        apply Rmax_lub; [apply Rmax_l|].
        rewrite <- RmaxRmult by done. apply Rmax_lub.
        -- etransitivity; [|apply Rmax_l]. nra.
        -- etransitivity; [|apply Rmax_r]. lra.
Qed.

Lemma settled_stable dt c m : settled c -> Nat.iter m (updateMorph dt) c = c.
Proof.
  intros [Hc _]. induction m as [|m IH]; simpl; [done|].
  rewrite IH. by apply updateMorph_complete.
Qed.

End Morph.

(** * Shape containment over exact arithmetic *)

Section Containment.
Local Open Scope R_scope.
Implicit Types (p : Puff R) (c : Cloud R).

Lemma next_bits_range (s : Z) :
  (0 <= SeededRandom.next_bits s < 4294967296)%Z.
Proof.
  unfold SeededRandom.next_bits, SeededRandom.ushr at 1, SeededRandom.ToUint32.
  rewrite Z.shiftr_0_r. apply Z.mod_pos_bound. done.
Qed.

Lemma rng_next_unit (s : Z) : 0 <= (rng_next s).1 < 1.
Proof.
  unfold rng_next, SeededRandom.next. cbn [fst].
  pose proof (next_bits_range s) as [Hlo Hhi].
  apply IZR_le in Hlo. apply IZR_lt in Hhi.
  generalize dependent (SeededRandom.next_bits s). intros z Hlo Hhi.
  unfold of_Z, inject_Z. real_ops.
  replace (IZR z * / 1 / (4294967296 * / 1)) with (IZR z / 4294967296) by (field; lra).
  lra.
Qed.

Lemma polar_norm (a d : R) :
  R_sqrt.sqrt (Rtrigo_def.cos a * d * (Rtrigo_def.cos a * d)
               + Rtrigo_def.sin a * d * (Rtrigo_def.sin a * d)) = Rabs d.
Proof.
  rewrite norm_scale.
  replace (Rtrigo_def.cos a * Rtrigo_def.cos a + Rtrigo_def.sin a * Rtrigo_def.sin a)
    with 1.
  - rewrite sqrt_1. lra.
  - pose proof (sin2_cos2 a) as H. unfold Rsqr in H. lra.
Qed.

Lemma for_puffs_Forall (P : Puff R -> Prop) (body : nat -> Z -> Puff R * Z) i n s :
  (forall j t, P (body j t).1) -> Forall P (for_puffs body i n s).1.
Proof.
  intros Hbody. revert i s. induction n as [|n IH]; intros i s; simpl; [done|].
  pose proof (Hbody i s) as Hp. destruct (body i s) as [p s1].
  specialize (IH (S i) s1). destruct (for_puffs body (S i) n s1). simpl in *.
  by constructor.
Qed.

Lemma for_angles_Forall (P : Puff R -> Prop) (body : R -> Z -> Puff R * Z) angles s :
  (forall a t, P (body a t).1) -> Forall P (for_angles body angles s).1.
Proof.
  intros Hbody. revert s. induction angles as [|a angles IH]; intros s; simpl; [done|].
  pose proof (Hbody a s) as Hp. destruct (body a s) as [p s1].
  specialize (IH s1). destruct (for_angles body angles s1). simpl in *.
  by constructor.
Qed.

Lemma scale_bounds (a f lo hi : R) :
  0 <= a -> lo <= f <= hi -> a * lo <= a * f <= a * hi.
Proof. intros Ha [Hlo Hhi]. split; apply Rmult_le_compat_l; lra. Qed.

Ltac minmax := unfold Rmax, Rmin in *; repeat destruct (Rle_dec _ _); try lra.

(** A puff at polar position [(angle, dist)] with radius [r]. *)
Lemma outerEdge_polar (angle dist r : R) :
  0 <= dist ->
  outerEdge (mkPuff (cos angle * dist) (sin angle * dist) r) = dist + r.
Proof.
  intros Hd. unfold outerEdge, cos, sin, real_trig. simpl.
  rewrite polar_norm, Rabs_right by lra. done.
Qed.

Lemma outerEdge_centre (r : R) : outerEdge (mkPuff (lit 0) (lit 0) r) = r.
Proof.
  unfold outerEdge. simpl. real_ops.
  replace (0 * / 1 * (0 * / 1) + 0 * / 1 * (0 * / 1)) with 0 by lra.
  rewrite sqrt_0. lra.
Qed.

Lemma childRing_inside basePuffCount rc (Hrc : 32.5 <= rc) actualRingCount i s :
  inside rc (childRingBody (childProfile basePuffCount rc) rc actualRingCount i s).1.
Proof.
  unfold childRingBody.
  pose proof (rng_next_unit s) as Hu1. destruct (rng_next s) as [u1 s1].
  pose proof (rng_next_unit s1) as Hu2. destruct (rng_next s1) as [u2 s2].
  cbn [fst] in *. unfold inside.
  unfold childProfile, clampRadius. cbn [noiseAmp ringDistFactor puffRadiusBase
    puffRadiusMin puffRadiusMax].
  real_ops.
  set (dist := rc * (50 * / 100 + (u1 - 5 * / 10) * (15 * / 1000))).
  assert (Hdist : rc * 0.4925 <= dist <= rc * 0.5075)
    by (apply scale_bounds; lra).
  rewrite outerEdge_polar by lra.
  set (base := Rmax (rc * (27 * / 100)) (18 * / 1)).
  assert (Hbase : 0 <= base) by (unfold base; minmax).
  set (x := base * (12 * / 10) * (70 * / 100 + u2 * (60 * / 100))).
  clearbody dist x. minmax.
Qed.

Lemma childInterior_inside basePuffCount rc (Hrc : 32.5 <= rc) i s :
  inside rc (interiorBody (childProfile basePuffCount rc) rc (lit 0.50) i s).1.
Proof.
  unfold interiorBody.
  pose proof (rng_next_unit s) as Hu1. destruct (rng_next s) as [u1 s1].
  pose proof (rng_next_unit s1) as Hu2. destruct (rng_next s1) as [u2 s2].
  pose proof (rng_next_unit s2) as Hu3. destruct (rng_next s2) as [u3 s3].
  cbn [fst] in *. unfold inside.
  unfold childProfile, clampRadius. cbn [puffRadiusBase puffRadiusMin puffRadiusMax].
  real_ops.
  assert (Hsq : 0 <= R_sqrt.sqrt u2 <= 1).
  { split; [apply sqrt_pos|]. rewrite <- sqrt_1. apply sqrt_le_1_alt. lra. }
  set (dist := rc * (R_sqrt.sqrt u2 * (50 * / 100))).
  assert (Hdist : rc * 0 <= dist <= rc * 0.5) by (apply scale_bounds; lra).
  rewrite outerEdge_polar by lra.
  set (x := Rmax (rc * (27 * / 100)) (18 * / 1) * (60 * / 100 + u3 * (80 * / 100))).
  clearbody dist x. minmax.
Qed.

Lemma childCentre_inside basePuffCount rc (Hrc : 32.5 <= rc) :
  inside rc (mkPuff (lit 0) (lit 0)
                    (max (puffRadiusMax (childProfile basePuffCount rc) * lit 1.2)
                         (rc * lit 0.50))).
Proof.
  unfold inside. rewrite outerEdge_centre.
  unfold childProfile. cbn [puffRadiusMax]. real_ops. minmax.
Qed.
Lemma focusedRing_inside rx ry (Hrc : 58.5 <= Rmax rx ry) ringCount i s :
  inside (Rmax rx ry)
         (focusedRingBody (focusedProfile rx ry (Rmax rx ry)) (Rmax rx ry) ringCount i s).1.
Proof.
  set (rc := Rmax rx ry) in *.
  unfold focusedRingBody.
  pose proof (rng_next_unit s) as Hu1. destruct (rng_next s) as [u1 s1].
  pose proof (rng_next_unit s1) as Hu2. destruct (rng_next s1) as [u2 s2].
  cbn [fst] in *. unfold inside.
  unfold focusedProfile, clampRadius. cbn [noiseAmp ringDistFactor puffRadiusBase
    puffRadiusMin puffRadiusMax].
  real_ops. clearbody rc.
  set (dist := rc * (50 * / 100 + (u1 - 5 * / 10) * (20 * / 100))).
  assert (Hdist : rc * 0.4 <= dist <= rc * 0.6) by (apply scale_bounds; lra).
  rewrite outerEdge_polar by lra.
  set (base := Rmax (rc * (27 * / 100)) (18 * / 1)).
  assert (Hbase : 0 <= base) by (unfold base; minmax).
  set (x := base * (70 * / 100 + u2 * (60 * / 100))).
  assert (Hx : base * 0.7 <= x <= base * 1.3) by (apply scale_bounds; lra).
  unfold base in *. clearbody dist x. minmax.
Qed.

Lemma corner_inside rx ry (Hrc : 58.5 <= Rmax rx ry) angle s :
  inside (Rmax rx ry)
         (cornerBody (focusedProfile rx ry (Rmax rx ry)) (Rmax rx ry) angle s).1.
Proof.
  set (rc := Rmax rx ry) in *.
  unfold cornerBody.
  pose proof (rng_next_unit s) as Hu1. destruct (rng_next s) as [u1 s1].
  cbn [fst] in *. unfold inside.
  unfold focusedProfile, clampRadius. cbn [puffRadiusBase puffRadiusMin puffRadiusMax].
  real_ops. clearbody rc.
  rewrite outerEdge_polar by lra.
  set (x := Rmax (rc * (27 * / 100)) (18 * / 1) * (85 * / 100 + u1 * (30 * / 100))).
  clearbody x. minmax.
Qed.

Lemma focusedInterior_inside rx ry (Hrc : 58.5 <= Rmax rx ry) i s :
  inside (Rmax rx ry)
         (interiorBody (focusedProfile rx ry (Rmax rx ry)) (Rmax rx ry) (lit 0.55) i s).1.
Proof.
  set (rc := Rmax rx ry) in *.
  unfold interiorBody.
  pose proof (rng_next_unit s) as Hu1. destruct (rng_next s) as [u1 s1].
  pose proof (rng_next_unit s1) as Hu2. destruct (rng_next s1) as [u2 s2].
  pose proof (rng_next_unit s2) as Hu3. destruct (rng_next s2) as [u3 s3].
  cbn [fst] in *. unfold inside.
  unfold focusedProfile, clampRadius. cbn [puffRadiusBase puffRadiusMin puffRadiusMax].
  real_ops. clearbody rc.
  assert (Hsq : 0 <= R_sqrt.sqrt u2 <= 1).
  { split; [apply sqrt_pos|]. rewrite <- sqrt_1. apply sqrt_le_1_alt. lra. }
  set (dist := rc * (R_sqrt.sqrt u2 * (55 * / 100))).
  assert (Hdist : rc * 0 <= dist <= rc * 0.55) by (apply scale_bounds; lra).
  rewrite outerEdge_polar by lra.
  set (x := Rmax (rc * (27 * / 100)) (18 * / 1) * (60 * / 100 + u3 * (80 * / 100))).
  clearbody dist x. minmax.
Qed.

Lemma focusedCentre_inside rx ry (Hrc : 58.5 <= Rmax rx ry) :
  inside (Rmax rx ry) (mkPuff (lit 0) (lit 0) (min rx ry * lit 0.45)).
Proof.
  unfold inside. rewrite outerEdge_centre. real_ops. minmax.
Qed.

Lemma coverageR_computeMorphPuffs w h c :
  coverageR (computeMorphPuffs w h c) = Rmax (w / 2) (h / 2) + 25.
Proof.
  unfold computeMorphPuffs. cbn [coverageR]. real_ops. minmax.
Qed.

Lemma computeMorphPuffs_inside w h c :
  (if isChildOfFocusedNode c then 32.5 else 58.5) <= coverageR (computeMorphPuffs w h c) ->
  Forall (inside (coverageR (computeMorphPuffs w h c)))
         (targetPuffs (computeMorphPuffs w h c)).
Proof.
  unfold computeMorphPuffs. cbn [coverageR targetPuffs].
  set (rx := w / lit 2 + lit 25). set (ry := h / lit 2 + lit 25).
  change (max rx ry) with (Rmax rx ry).
  destruct (isChildOfFocusedNode c); intros Hrc.
  - constructor; [by apply childCentre_inside|].
    set (p := childProfile _ _).
    destruct (for_puffs (childRingBody _ _ _) _ _ _) as [ring s1] eqn:Hring.
    destruct (for_puffs (interiorBody _ _ _) _ _ _) as [interior s2] eqn:Hint.
    apply Forall_app. split.
    + replace ring with (ring, s1).1 by done. rewrite <- Hring.
      apply for_puffs_Forall. intros. by apply childRing_inside.
    + replace interior with (interior, s2).1 by done. rewrite <- Hint.
      apply for_puffs_Forall. intros. by apply childInterior_inside.
  - constructor; [by apply focusedCentre_inside|].
    set (p := focusedProfile _ _ _).
    destruct (for_puffs (focusedRingBody _ _ _) _ _ _) as [ring s1] eqn:Hring.
    destruct (for_angles _ _ _) as [corners s2] eqn:Hcor.
    destruct (for_puffs (interiorBody _ _ _) _ _ _) as [interior s3] eqn:Hint.
    apply Forall_app. split; [|apply Forall_app; split].
    + replace ring with (ring, s1).1 by done. rewrite <- Hring.
      apply for_puffs_Forall. intros. by apply focusedRing_inside.
    + replace corners with (corners, s2).1 by done. rewrite <- Hcor.
      apply for_angles_Forall. intros. by apply corner_inside.
    + replace interior with (interior, s3).1 by done. rewrite <- Hint.
      apply for_puffs_Forall. intros. by apply focusedInterior_inside.
Qed.

End Containment.

(** * The focus layout *)

Section FocusLayoutFrame.
Context {num : Type} `{!JsNumber num} `{!JsTrig num}.
Implicit Types (nodes : list (CloudNode num)).

Lemma imap_pair_lookup nodes k :
  imap pair nodes !! k = (fun n => (k, n)) <$> nodes !! k.
Proof. by rewrite list_lookup_imap. Qed.

Lemma imap_pair_fst {A} (l : list A) : (imap pair l).*1 = seq 0 (length l).
Proof.
  apply list_eq. intros k. rewrite list_lookup_fmap, list_lookup_imap.
  destruct (l !! k) as [x|] eqn:Hk; simpl.
  - symmetry. apply lookup_seq. split; [done|]. by eapply lookup_lt_Some.
  - symmetry. apply lookup_seq_ge. by apply lookup_ge_None.
Qed.

Lemma childIndicesOf_NoDup focusedId nodes : NoDup (childIndicesOf focusedId nodes).
Proof.
  unfold childIndicesOf.
  eapply sublist_NoDup; [|apply fmap_sublist, sublist_filter].
  rewrite imap_pair_fst. apply NoDup_seq.
Qed.

Lemma childIndicesOf_spec focusedId nodes c :
  c ∈ childIndicesOf focusedId nodes <->
  exists n, nodes !! c = Some n /\ node_parentId n = Some focusedId.
Proof.
  unfold childIndicesOf. rewrite list_elem_of_fmap. split.
  - intros ([k n] & -> & Hin). apply list_elem_of_filter in Hin as [Hp Hin].
    apply list_elem_of_lookup in Hin as [j Hj].
    rewrite imap_pair_lookup in Hj.
    destruct (nodes !! j) as [n'|] eqn:Hn; simpl in Hj; [|done].
    injection Hj as -> ->. eauto.
  - intros (n & Hn & Hp). exists (c, n). split; [done|].
    apply list_elem_of_filter. split; [done|].
    apply list_elem_of_lookup. exists c. by rewrite imap_pair_lookup, Hn.
Qed.

(** Placing the children listed in [ics] (position in the ring, index in the
    array): the parent stays, each child lands on its slot. *)
Lemma placeChildren_fold p parentNode orbitRadius childCount
    (ics : list (nat * nat)) nodes :
  nodes !! p = Some parentNode ->
  Forall (fun ic => ic.2 <> p) ics ->
  NoDup (ics.*2) ->
  let placed :=
    foldl (fun ns ic => placeChild p orbitRadius childCount ns ic.1 ic.2) nodes ics in
  placed !! p = Some parentNode /\
  (forall k, k ∉ ics.*2 -> placed !! k = nodes !! k) /\
  (forall i c, (i, c) ∈ ics ->
     placed !! c = placedAt parentNode orbitRadius childCount i <$> nodes !! c).
Proof.
  intros Hp Hne Hnd. revert nodes Hp.
  induction ics as [|[i c] ics IH]; intros nodes Hp; simpl.
  - split_and!; [done|done|]. by intros i c ?%elem_of_nil.
  - apply Forall_cons in Hne as [Hc Hne]. simpl in Hc.
    rewrite fmap_cons in Hnd. apply NoDup_cons in Hnd as [Hnotin Hnd]. simpl in Hnotin.
    set (nodes1 := placeChild p orbitRadius childCount nodes i c).
    assert (Hstep : forall k, nodes1 !! k
              = if decide (c = k)
                then placedAt parentNode orbitRadius childCount i <$> nodes !! k
                else nodes !! k).
    { intros k. unfold nodes1, placeChild. rewrite Hp.
      case_decide as Hk.
      - subst k. by rewrite list_lookup_alter_eq.
      - by rewrite list_lookup_alter_ne. }
    assert (Hp1 : nodes1 !! p = Some parentNode).
    { rewrite Hstep. by rewrite decide_False. }
    destruct (IH Hne Hnd nodes1 Hp1) as (IHp & IHout & IHin).
    split_and!; [done| |].
    + intros k Hk. apply not_elem_of_cons in Hk as [Hkc Hk].
      rewrite IHout by done. rewrite Hstep. by rewrite decide_False.
    + intros i' c' Hin. apply elem_of_cons in Hin as [Heq|Hin].
      * simplify_eq. rewrite IHout by done. rewrite Hstep. by rewrite decide_True.
      * rewrite (IHin i' c' Hin). rewrite Hstep. rewrite decide_False; [done|].
        intros ->. apply Hnotin. apply list_elem_of_fmap. by exists (i', c').
Qed.

Lemma placeChildren_spec p parentNode orbitRadius childIndices nodes i c :
  nodes !! p = Some parentNode ->
  p ∉ childIndices ->
  NoDup childIndices ->
  childIndices !! i = Some c ->
  placeChildren p orbitRadius childIndices nodes !! c
  = placedAt parentNode orbitRadius (length childIndices) i <$> nodes !! c.
Proof.
  intros Hp Hnotin Hnd Hi. unfold placeChildren.
  assert (Hsnd : (imap pair childIndices).*2 = childIndices).
  { apply list_eq. intros k. rewrite list_lookup_fmap, list_lookup_imap.
    by destruct (childIndices !! k). }
  destruct (placeChildren_fold p parentNode orbitRadius (length childIndices)
              (imap pair childIndices) nodes Hp) as (_ & _ & Hin).
  - apply Forall_forall. intros [k c'] Hk Heq. simpl in Heq. subst c'.
    apply Hnotin. rewrite <- Hsnd. apply list_elem_of_fmap. by exists (k, p).
  - by rewrite Hsnd.
  - apply Hin. apply list_elem_of_lookup. exists i.
    by rewrite list_lookup_imap, Hi.
Qed.
End FocusLayoutFrame.

Section FocusLayoutReal.
Local Open Scope R_scope.
Variable clouds : gmap string R.

Lemma of_nat_INR (n : nat) : (of_nat n : R) = INR n.
Proof. unfold of_nat, of_Z, inject_Z. real_ops. rewrite INR_IZR_INZ. lra. Qed.

Lemma orbitRadiusOf_spec (parentCoverageR maxChildR : R) (childCount : nat) :
  orbitRadiusOf parentCoverageR maxChildR childCount
  = specOrbitRadius parentCoverageR 15 maxChildR 30 childCount.
Proof.
  unfold orbitRadiusOf, specOrbitRadius. rewrite of_nat_INR.
  unfold PI, real_trig. real_ops.
  pose proof PI_RGT_0. f_equal; [lra|]. field. lra.
Qed.

Lemma childAngle_spec (i childCount : nat) :
  (1 <= childCount)%nat -> childAngle i childCount = specAngle i childCount.
Proof.
  intros Hn. unfold childAngle, specAngle. rewrite !of_nat_INR.
  unfold PI, real_trig. real_ops.
  assert (0 < INR childCount) by (apply lt_0_INR; lia).
  field. lra.
Qed.

Lemma focus_layout_children focused nodes layout p parentNode requiredCoverageR :
  list_find (fun n => node_id n = node_id focused) nodes = Some (p, parentNode) ->
  clouds !! node_id parentNode = Some requiredCoverageR ->
  node_parentId parentNode <> Some (node_id focused) ->
  let childIndices := childIndicesOf (node_id focused) nodes in
  (1 <= length childIndices)%nat ->
  let maxChildR := maxChildCoverage clouds (omap (fun c => nodes !! c) childIndices) in
  let parentCoverageR := or_else requiredCoverageR (node_radius parentNode) in
  let orbitRadius :=
    specOrbitRadius parentCoverageR 15 maxChildR 30 (length childIndices) in
  forall i c, childIndices !! i = Some c ->
    exists child,
      nodes !! c = Some child /\
      (refreshFocusLayout clouds (Some focused) (nodes, layout)).1 !! c
      = Some (placedAt parentNode orbitRadius (length childIndices) i child).
Proof.
  intros Hfind Hcloud Hself childIndices Hn maxChildR parentCoverageR orbitRadius i c Hi.
  pose proof Hfind as Hfind'. apply list_find_Some in Hfind' as (Hp & Hid & _).
  assert (Hc : c ∈ childIndices) by (by eapply list_elem_of_lookup_2).
  apply childIndicesOf_spec in Hc as (child & Hchild & Hpar).
  exists child. split; [done|].
  unfold refreshFocusLayout, parentIndexOf. rewrite Hfind.
  change (fst <$> Some (p, parentNode)) with (Some p). cbv iota beta. rewrite Hp.
  fold childIndices. rewrite bool_decide_eq_false_2 by lia.
  rewrite Hcloud. cbn [fst].
  rewrite orbitRadiusOf_spec. fold maxChildR parentCoverageR orbitRadius.
  rewrite (placeChildren_spec p parentNode orbitRadius childIndices nodes i c); try done.
  - by rewrite Hchild.
  - intros Hin. apply childIndicesOf_spec in Hin as (n & Hn' & Hpar').
    rewrite Hp in Hn'. by simplify_eq.
  - apply childIndicesOf_NoDup.
Qed.
End FocusLayoutReal.

(** * The claims about the force simulator *)

Lemma applyForces_length {num : Type} `{!JsNumber num} (dragState : DragState num)
    (random : nat -> num) (focusedNodeId : option string) (inFocusMode : bool)
    (focusedSubtreeIds : option (gset string)) (nodes : list (CloudNode num)) :
  length (sim_nodes (applyForces dragState random focusedNodeId inFocusMode
                                 focusedSubtreeIds nodes)) = length nodes.
Proof.
  unfold applyForces.
  apply (steps_length dragState random focusedNodeId inFocusMode focusedSubtreeIds
           (buildNodeMap nodes) (lookupFocusedNode focusedNodeId (buildNodeMap nodes) nodes)
           (seq 0 (length nodes)) (mkSim nodes (lit 0) 0)).
Qed.

(** C1. Exclusivity: a node whose id is in [focusedSubtreeIds] leaves
    [applyForces] with velocity zero; its position is unchanged unless it is
    the dragged node, in which case it is pinned to the drag position. *)
Theorem focused_subtree_exclusive {num : Type} `{!JsNumber num}
    (dragState : DragState num) (random : nat -> num) (focusedNodeId : option string)
    (inFocusMode : bool) (ids : gset string) (nodes : list (CloudNode num))
    (k : nat) (n : CloudNode num) :
  nodes !! k = Some n ->
  node_id n ∈ ids ->
  exists n',
    sim_nodes (applyForces dragState random focusedNodeId inFocusMode (Some ids) nodes) !! k
    = Some n' /\
    node_vx n' = lit 0 /\ node_vy n' = lit 0 /\
    (is_dragged dragState n = false -> node_x n' = node_x n /\ node_y n' = node_y n) /\
    (is_dragged dragState n = true ->
     node_x n' = drag_x dragState /\ node_y n' = drag_y dragState).
Proof.
  intros Hk Hid. destruct (is_dragged dragState n) eqn:Hd.
  - exists (pinToDrag dragState n). split; [by apply applyForces_dragged|].
    split_and!; try done.
  - exists (set_velocity (lit 0) (lit 0) n). split.
    + apply applyForces_locked; [done|done|].
      unfold locked, in_focused_subtree. by rewrite bool_decide_eq_true_2.
    + split_and!; try done.
Qed.

Lemma focused_subtree_exclusive_witness :
  example_nodes !! 1%nat
  = Some (mkCloudNode "a" task (lit 0) (lit 0) (lit 1) (lit 0) (lit 45) (Some "g")) /\
  "a" ∈ ({[ "g"; "a" ]} : gset string) /\
  exists n',
    sim_nodes (applyForces initialDragState example_random (Some "g") false
                           (Some {[ "g"; "a" ]}) example_nodes) !! 1%nat = Some n' /\
    node_vx n' = lit 0 /\ node_vy n' = lit 0 /\
    (is_dragged initialDragState
       (mkCloudNode "a" task (lit 0) (lit 0) (lit 1) (lit 0) (lit 45) (Some "g")) = false ->
     node_x n' = lit 0 /\ node_y n' = lit 0) /\
    (is_dragged initialDragState
       (mkCloudNode "a" task (lit 0) (lit 0) (lit 1) (lit 0) (lit 45) (Some "g")) = true ->
     node_x n' = drag_x initialDragState /\ node_y n' = drag_y initialDragState).
Proof.
  assert (Hin : "a" ∈ ({[ "g"; "a" ]} : gset string)).
  { apply elem_of_union_r. by apply elem_of_singleton_2. }
  split; [reflexivity|]. split; [exact Hin|].
  apply (focused_subtree_exclusive initialDragState example_random (Some "g") false
           {[ "g"; "a" ]} example_nodes 1
           (mkCloudNode "a" task (lit 0) (lit 0) (lit 1) (lit 0) (lit 45) (Some "g"))).
  - reflexivity.
  - exact Hin.
Defined.

(** C5, as the code has it.  In free mode a milestone that is not dragged
    leaves the call where it was, with velocity zero: the repulsion another
    node adds to its velocity is discarded, and the drag wake is never applied
    to it. *)
Theorem milestone_locked_in_free_mode {num : Type} `{!JsNumber num}
    (dragState : DragState num) (random : nat -> num) (focusedNodeId : option string)
    (focusedSubtreeIds : option (gset string)) (nodes : list (CloudNode num))
    (k : nat) (n : CloudNode num) :
  nodes !! k = Some n ->
  node_type n = milestone ->
  is_dragged dragState n = false ->
  sim_nodes (applyForces dragState random focusedNodeId false focusedSubtreeIds nodes) !! k
  = Some (set_velocity (lit 0) (lit 0) n).
Proof.
  intros Hk Hty Hd. apply applyForces_locked; [done|done|].
  unfold locked. rewrite (bool_decide_eq_true_2 _ Hty). simpl.
  by rewrite !orb_true_r.
Qed.

Lemma milestone_locked_in_free_mode_witness :
  example_nodes !! 0%nat
  = Some (mkCloudNode "g" milestone (lit 100) (lit 100) (lit 1) (lit 0) (lit 80) None) /\
  node_type (mkCloudNode "g" milestone (lit 100) (lit 100) (lit 1) (lit 0) (lit 80) None)
  = milestone /\
  is_dragged (startDragPhysics "a" (lit 90) (lit 90) initialDragState)
    (mkCloudNode "g" milestone (lit 100) (lit 100) (lit 1) (lit 0) (lit 80) None) = false /\
  sim_nodes (applyForces (startDragPhysics "a" (lit 90) (lit 90) initialDragState)
                         example_random None false None example_nodes) !! 0%nat
  = Some (set_velocity (lit 0) (lit 0)
            (mkCloudNode "g" milestone (lit 100) (lit 100) (lit 1) (lit 0) (lit 80) None)).
Proof.
  split; [reflexivity|]. split; [reflexivity|]. split; [reflexivity|].
  apply (milestone_locked_in_free_mode
           (startDragPhysics "a" (lit 90) (lit 90) initialDragState)
           example_random None None example_nodes 0
           (mkCloudNode "g" milestone (lit 100) (lit 100) (lit 1) (lit 0) (lit 80) None));
    reflexivity.
Defined.

(** C5 as stated fails: no input makes repulsion or the drag wake displace a
    milestone that is not dragged. *)
Lemma milestone_never_displaced :
  ~ exists (dragState : DragState float) (random : nat -> float)
           (focusedNodeId : option string) (focusedSubtreeIds : option (gset string))
           (nodes : list (CloudNode float)) (k : nat) (n n' : CloudNode float),
      nodes !! k = Some n /\ node_type n = milestone /\
      is_dragged dragState n = false /\
      sim_nodes (applyForces dragState random focusedNodeId false focusedSubtreeIds nodes) !! k
      = Some n' /\
      (node_x n' <> node_x n \/ node_y n' <> node_y n).
Proof.
  intros (dragState & random & focusedNodeId & focusedSubtreeIds & nodes & k & n & n'
          & Hk & Hty & Hd & Hk' & Hmoved).
  rewrite (applyForces_locked dragState random focusedNodeId false focusedSubtreeIds
             nodes k n Hk Hd) in Hk'.
  - injection Hk' as <-. simpl in Hmoved. by destruct Hmoved.
  - unfold locked. rewrite (bool_decide_eq_true_2 _ Hty). simpl. by rewrite !orb_true_r.
Qed.

(** C10. In focus mode [applyForces] returns 0 and calls [Math.random] never;
    the dragged node is pinned to the pointer, every other node keeps its
    position, and a background node has its velocity multiplied by 0.85. *)
Theorem focus_mode_freezes_positions {num : Type} `{!JsNumber num}
    (dragState : DragState num) (random : nat -> num) (focusedNodeId : option string)
    (focusedSubtreeIds : option (gset string)) (nodes : list (CloudNode num))
    (k : nat) (n : CloudNode num) :
  nodes !! k = Some n ->
  let r := applyForces dragState random focusedNodeId true focusedSubtreeIds nodes in
  let focusedNode := lookupFocusedNode focusedNodeId (buildNodeMap nodes) nodes in
  sim_maxVelocity r = lit 0 /\ sim_random r = 0 /\
  exists n',
    sim_nodes r !! k = Some n' /\
    (is_dragged dragState n = true -> n' = pinToDrag dragState n) /\
    (is_dragged dragState n = false ->
     node_x n' = node_x n /\ node_y n' = node_y n) /\
    (background dragState focusedNodeId focusedSubtreeIds focusedNode n ->
     node_x n' = node_x n /\ node_y n' = node_y n /\
     node_vx n' = mul (node_vx n) (lit 0.85) /\
     node_vy n' = mul (node_vy n) (lit 0.85)).
Proof.
  intros Hk r focusedNode. unfold r.
  rewrite applyForces_focus by done. cbn [sim_maxVelocity sim_random sim_nodes].
  split; [done|]. split; [done|].
  exists (focusModeNode dragState focusedNodeId focusedSubtreeIds focusedNode n).
  split; [by rewrite list_lookup_fmap, Hk|].
  unfold focusModeNode. split_and!.
  - by intros ->.
  - intros ->. by repeat case_match.
  - intros (-> & -> & -> & -> & ->). done.
Qed.

Lemma focus_mode_freezes_positions_witness :
  let b := mkCloudNode "b" task (lit 10) (lit 0) (lit 3) (lit 4) (lit 45) (Some "g") in
  example_nodes !! 2%nat = Some b /\
  let r := applyForces initialDragState example_random (Some "a") true (Some {[ "a" ]})
                       example_nodes in
  let focusedNode := lookupFocusedNode (Some "a") (buildNodeMap example_nodes) example_nodes in
  sim_maxVelocity r = lit 0 /\ sim_random r = 0 /\
  exists n',
    sim_nodes r !! 2%nat = Some n' /\
    (is_dragged initialDragState b = true -> n' = pinToDrag initialDragState b) /\
    (is_dragged initialDragState b = false ->
     node_x n' = node_x b /\ node_y n' = node_y b) /\
    (background initialDragState (Some "a") (Some {[ "a" ]}) focusedNode b ->
     node_x n' = node_x b /\ node_y n' = node_y b /\
     node_vx n' = mul (node_vx b) (lit 0.85) /\
     node_vy n' = mul (node_vy b) (lit 0.85)).
Proof.
  intros b. split; [reflexivity|].
  apply (focus_mode_freezes_positions initialDragState example_random (Some "a")
           (Some {[ "a" ]}) example_nodes 2 b).
  reflexivity.
Defined.

(** * Further properties of the force simulator *)

Section SimulatorIdentity.
Context {num : Type} `{!JsNumber num}.
Implicit Types (n : CloudNode num) (l : list (CloudNode num)).

Lemma same_node_refl n : same_node n n.
Proof. done. Qed.

Lemma same_node_trans n1 n2 n3 : same_node n1 n2 -> same_node n2 n3 -> same_node n1 n3.
Proof. unfold same_node. intros (?&?&?&?) (?&?&?&?). split_and!; congruence. Qed.

Lemma same_place_same_node n n' : same_place n n' -> same_node n n'.
Proof. intros H. apply same_place_fields in H. unfold same_node. tauto. Qed.

Lemma same_node_simulated (random : nat -> num) k n :
  same_node n (integrate (capVelocity (jitterNode random k n).1)).
Proof.
  unfold jitterNode, capVelocity, integrate, same_node.
  repeat case_match; done.
Qed.

Lemma stepNode_same_node dragState random focusedNodeId inFocusMode focusedSubtreeIds
    nodeMap focusedNode i (st : Sim num) k n :
  sim_nodes st !! k = Some n ->
  exists n',
    sim_nodes (stepNode dragState random focusedNodeId inFocusMode focusedSubtreeIds
                        nodeMap focusedNode i st) !! k = Some n' /\ same_node n n'.
Proof.
  intros Hk.
  destruct (stepNode_step dragState random focusedNodeId inFocusMode focusedSubtreeIds
              nodeMap focusedNode i st) as [_ Hstep].
  destruct (Hstep k n Hk) as (n' & Hk' & Hother & _).
  exists n'. split; [done|].
  destruct (decide (k = i)) as [->|Hne]; [|by apply same_place_same_node, Hother].
  clear Hother Hstep. revert Hk'. unfold stepNode. rewrite Hk.
  assert (Halter : forall f, same_node n (f n) ->
            sim_nodes (with_nodes st (alter f i (sim_nodes st))) !! i = Some n' ->
            same_node n n').
  { intros f Hf. unfold with_nodes. cbn [sim_nodes].
    rewrite list_lookup_alter_eq, Hk. intros [= <-]. done. }
  assert (Hst : sim_nodes st !! i = Some n' -> same_node n n').
  { rewrite Hk. by intros [= <-]. }
  repeat case_match; try (by apply Halter); try exact Hst.
  unfold simulateNode.
  fold (forces dragState false nodeMap false i (sim_nodes st)).
  destruct (forces_step dragState false nodeMap false i (sim_nodes st)) as [Hlen Hf].
  destruct (Hf i n Hk) as (nodeA & HA & Hplace & _). rewrite HA.
  pose proof (same_node_simulated random (sim_random st) nodeA) as Hsim.
  destruct (jitterNode random (sim_random st) nodeA) as [jittered j].
  cbn [sim_nodes]. rewrite list_lookup_insert_eq
    by (rewrite Hlen; by eapply lookup_lt_Some).
  intros [= <-]. eapply same_node_trans; [by apply same_place_same_node|exact Hsim].
Qed.

Lemma steps_same_node dragState random focusedNodeId inFocusMode focusedSubtreeIds
    nodeMap focusedNode indices (st : Sim num) k n :
  sim_nodes st !! k = Some n ->
  exists n',
    sim_nodes (steps dragState random focusedNodeId inFocusMode focusedSubtreeIds
                     nodeMap focusedNode indices st) !! k = Some n' /\ same_node n n'.
Proof.
  revert st n. induction indices as [|i indices IH]; intros st n Hk.
  - exists n. split; [done|apply same_node_refl].
  - rewrite steps_cons.
    destruct (stepNode_same_node dragState random focusedNodeId inFocusMode
                focusedSubtreeIds nodeMap focusedNode i st k n Hk) as (n1 & Hk1 & H1).
    destruct (IH _ _ Hk1) as (n2 & Hk2 & H2).
    exists n2. split; [done|]. by eapply same_node_trans.
Qed.
End SimulatorIdentity.

(** X1.  Whatever the mode and the drag state, [applyForces] returns the same
    nodes in the same order: as many as it was given, and the node at each
    index keeps its id, kind, radius and parent. *)
Theorem applyForces_keeps_nodes {num : Type} `{!JsNumber num}
    (dragState : DragState num) (random : nat -> num) (focusedNodeId : option string)
    (inFocusMode : bool) (focusedSubtreeIds : option (gset string))
    (nodes : list (CloudNode num)) :
  length (sim_nodes (applyForces dragState random focusedNodeId inFocusMode
                                 focusedSubtreeIds nodes)) = length nodes /\
  forall k n,
    nodes !! k = Some n ->
    exists n',
      sim_nodes (applyForces dragState random focusedNodeId inFocusMode
                             focusedSubtreeIds nodes) !! k = Some n' /\
      same_node n n'.
Proof.
  split.
  - apply applyForces_length.
  - intros k n Hk. unfold applyForces.
    apply (steps_same_node dragState random focusedNodeId inFocusMode focusedSubtreeIds
             (buildNodeMap nodes) (lookupFocusedNode focusedNodeId (buildNodeMap nodes) nodes)
             (seq 0 (length nodes)) (mkSim nodes (lit 0) 0) k n Hk).
Qed.

Section SimulatorDisplacement.
Local Open Scope R_scope.
Implicit Types (n : CloudNode R) (st : Sim R).

Lemma displacement_same_place n n' : same_place n n' -> displacement n n' = 0.
Proof.
  intros H. apply same_place_fields in H as (_ & _ & Hx & Hy & _).
  unfold displacement. rewrite Hx, Hy.
  replace ((node_x n - node_x n) * (node_x n - node_x n)
           + (node_y n - node_y n) * (node_y n - node_y n)) with 0 by ring.
  apply sqrt_0.
Qed.

Lemma speed_of_capped n : speed_of (capVelocity n) <= 5.
Proof.
  unfold capVelocity. destruct (lt _ _) eqn:Hlt.
  - apply lt_true in Hlt. unfold speed_of in *. simpl. real_ops.
    set (s := R_sqrt.sqrt (node_vx n * node_vx n + node_vy n * node_vy n)) in *.
    assert (Hs : 0 < s) by lra.
    replace (node_vx n / s * (5 * / 1)) with (node_vx n * (5 / s)) by (field; lra).
    replace (node_vy n / s * (5 * / 1)) with (node_vy n * (5 / s)) by (field; lra).
    rewrite norm_scale. fold s.
    rewrite Rabs_right.
    + replace (5 / s * s) with 5 by (field; lra). lra.
    + apply Rle_ge. apply Rlt_le. apply Rdiv_lt_0_compat; lra.
  - apply lt_false in Hlt. real_ops. lra.
Qed.

Lemma displacement_integrate n nodeA :
  same_place n nodeA -> displacement n (integrate nodeA) = speed_of nodeA.
Proof.
  intros H. apply same_place_fields in H as (_ & _ & Hx & Hy & _).
  unfold displacement, integrate, speed_of. simpl. rewrite Hx, Hy. real_ops.
  f_equal. ring.
Qed.

Lemma same_place_capped (random : nat -> R) k n :
  same_place n (capVelocity (jitterNode random k n).1).
Proof.
  unfold jitterNode, capVelocity. repeat case_match; simpl;
    repeat first [apply same_place_refl | apply same_place_set_velocity
                 | apply same_place_add_velocity
                 | eapply same_place_trans; [|apply same_place_set_velocity]].
Qed.

Lemma stepNode_displacement dragState random focusedNodeId inFocusMode focusedSubtreeIds
    nodeMap focusedNode k st nk :
  sim_nodes st !! k = Some nk ->
  is_dragged dragState nk = false ->
  exists n',
    sim_nodes (stepNode dragState random focusedNodeId inFocusMode focusedSubtreeIds
                        nodeMap focusedNode k st) !! k = Some n' /\
    displacement nk n' <= 5.
Proof.
  intros Hk Hd. unfold stepNode. rewrite Hk, Hd.
  assert (Halter : forall f, (forall n, same_place n (f n)) ->
            exists n', sim_nodes (with_nodes st (alter f k (sim_nodes st))) !! k = Some n' /\
                       displacement nk n' <= 5).
  { intros f Hf. exists (f nk). unfold with_nodes. cbn [sim_nodes].
    rewrite list_lookup_alter_eq, Hk. split; [done|].
    rewrite displacement_same_place by apply Hf. lra. }
  assert (Hst : exists n', sim_nodes st !! k = Some n' /\ displacement nk n' <= 5).
  { exists nk. split; [done|].
    rewrite displacement_same_place by apply same_place_refl. lra. }
  repeat case_match; try exact Hst;
    try (apply Halter; intros; first [apply same_place_set_velocity]).
  unfold simulateNode.
  fold (forces dragState false nodeMap false k (sim_nodes st)).
  destruct (forces_step dragState false nodeMap false k (sim_nodes st)) as [Hlen Hf].
  destruct (Hf k nk Hk) as (nodeA & HA & Hplace & _). rewrite HA.
  pose proof (same_place_capped random (sim_random st) nodeA) as Hcap.
  destruct (jitterNode random (sim_random st) nodeA) as [jittered j].
  cbn [fst] in Hcap. cbn [sim_nodes].
  exists (integrate (capVelocity jittered)).
  rewrite list_lookup_insert_eq by (rewrite Hlen; by eapply lookup_lt_Some).
  split; [done|].
  rewrite (displacement_integrate nk (capVelocity jittered))
    by (eapply same_place_trans; [exact Hplace|exact Hcap]).
  apply speed_of_capped.
Qed.
End SimulatorDisplacement.

(** X2 (exact arithmetic).  In one call of [applyForces], in either mode, a node
    that is not the dragged one moves by at most MAX_VELOCITY = 5. *)
Theorem applyForces_moves_at_most_max_velocity (dragState : DragState R) (random : nat -> R)
    (focusedNodeId : option string) (inFocusMode : bool)
    (focusedSubtreeIds : option (gset string)) (nodes : list (CloudNode R))
    (k : nat) (n : CloudNode R) :
  nodes !! k = Some n ->
  is_dragged dragState n = false ->
  exists n',
    sim_nodes (applyForces dragState random focusedNodeId inFocusMode
                           focusedSubtreeIds nodes) !! k = Some n' /\
    (displacement n n' <= 5)%R.
Proof.
  intros Hk Hd.
  destruct (applyForces_node dragState random focusedNodeId inFocusMode focusedSubtreeIds
              nodes k n Hk) as (nk & Hnk & Hp & Heq).
  destruct (stepNode_displacement dragState random focusedNodeId inFocusMode
              focusedSubtreeIds (buildNodeMap nodes)
              (lookupFocusedNode focusedNodeId (buildNodeMap nodes) nodes) k
              (stateBefore dragState random focusedNodeId inFocusMode focusedSubtreeIds nodes k)
              nk Hnk) as (n' & Hn' & Hb).
  { rewrite Hp. exact Hd. }
  exists n'. split; [by rewrite Heq|].
  apply same_place_fields in Hp as (_ & _ & Hx & Hy & _).
  unfold displacement in *. by rewrite <- Hx, <- Hy.
Qed.

Lemma applyForces_moves_at_most_max_velocity_witness :
  example_nodes_R !! 2%nat = Some (mkCloudNode "b" task 10%R 0%R 3%R 4%R 45%R (Some "g")) /\
  is_dragged initialDragState (mkCloudNode "b" task 10%R 0%R 3%R 4%R 45%R (Some "g")) = false /\
  exists n',
    sim_nodes (applyForces initialDragState example_random_R None false None
                           example_nodes_R) !! 2%nat = Some n' /\
    (displacement (mkCloudNode "b" task 10%R 0%R 3%R 4%R 45%R (Some "g")) n' <= 5)%R.
Proof.
  split; [reflexivity|]. split; [reflexivity|].
  apply (applyForces_moves_at_most_max_velocity initialDragState example_random_R None false
           None example_nodes_R 2 (mkCloudNode "b" task 10%R 0%R 3%R 4%R 45%R (Some "g")));
    reflexivity.
Defined.

(** * The drag state *)

Section DragReleased.
Context {num : Type} `{!JsNumber num}.
Implicit Types (d : DragState num) (l : list (CloudNode num)).

Lemma foldl_pointwise {A B} (f g : A -> B -> A) (xs : list B) (a : A) :
  (forall a b, f a b = g a b) -> foldl f a xs = foldl g a xs.
Proof.
  intros Hfg. revert a. induction xs as [|b xs IH]; intros a; [done|].
  simpl. by rewrite Hfg, IH.
Qed.

Lemma isDragging_released d : drag_nodeId d = None -> isDragging d = false.
Proof.
  intros Hd. unfold isDragging. rewrite Hd. apply bool_decide_eq_false_2. by intros H.
Qed.

Lemma is_dragged_released d n : drag_nodeId d = None -> is_dragged d n = false.
Proof. intros Hd. unfold is_dragged. rewrite Hd. by apply bool_decide_eq_false_2. Qed.

Lemma repel_released d1 d2 isDragged i j l :
  drag_nodeId d1 = None -> drag_nodeId d2 = None ->
  repel d1 isDragged i j l = repel d2 isDragged i j l.
Proof.
  intros H1 H2. unfold repel.
  destruct (l !! i) as [nodeA|]; [|done]. destruct (l !! j) as [nodeB|]; [|done].
  rewrite (isDragging_released d1 H1), (isDragging_released d2 H2).
  rewrite (is_dragged_released d1 nodeB H1), (is_dragged_released d2 nodeB H2).
  done.
Qed.

Lemma repelLoop_released d1 d2 isDragged i l :
  drag_nodeId d1 = None -> drag_nodeId d2 = None ->
  repelLoop d1 isDragged i l = repelLoop d2 isDragged i l.
Proof.
  intros H1 H2. unfold repelLoop. apply foldl_pointwise.
  intros. by apply repel_released.
Qed.

Lemma pushFromDrag_released d i l : drag_nodeId d = None -> pushFromDrag d i l = l.
Proof. intros Hd. unfold pushFromDrag. by rewrite Hd. Qed.

Lemma stepNode_released d1 d2 random focusedNodeId inFocusMode focusedSubtreeIds
    nodeMap focusedNode i (st : Sim num) :
  drag_nodeId d1 = None -> drag_nodeId d2 = None ->
  stepNode d1 random focusedNodeId inFocusMode focusedSubtreeIds nodeMap focusedNode i st
  = stepNode d2 random focusedNodeId inFocusMode focusedSubtreeIds nodeMap focusedNode i st.
Proof.
  intros H1 H2. unfold stepNode.
  destruct (sim_nodes st !! i) as [nodeA|]; [|done].
  rewrite (is_dragged_released d1 nodeA H1), (is_dragged_released d2 nodeA H2).
  unfold simulateNode.
  rewrite (repelLoop_released d1 d2) by done.
  by rewrite !pushFromDrag_released.
Qed.
End DragReleased.

(** X3.  While no drag is active ([dragState.nodeId] is null), the result of
    [applyForces] does not depend on the drag state: the coordinates and the
    velocity the last drag left behind are never read. *)
Theorem applyForces_ignores_released_drag {num : Type} `{!JsNumber num}
    (d1 d2 : DragState num) (random : nat -> num) (focusedNodeId : option string)
    (inFocusMode : bool) (focusedSubtreeIds : option (gset string))
    (nodes : list (CloudNode num)) :
  drag_nodeId d1 = None ->
  drag_nodeId d2 = None ->
  applyForces d1 random focusedNodeId inFocusMode focusedSubtreeIds nodes
  = applyForces d2 random focusedNodeId inFocusMode focusedSubtreeIds nodes.
Proof.
  intros H1 H2. unfold applyForces. apply foldl_pointwise.
  intros st i. by apply stepNode_released.
Qed.

Lemma applyForces_ignores_released_drag_witness :
  let d1 := (endDragPhysics (updateDragPhysics (lit 30) (lit 40)
                               (startDragPhysics "a" (lit 0) (lit 0) initialDragState))).2 in
  drag_nodeId d1 = None /\ drag_nodeId (initialDragState (num := float)) = None /\
  applyForces d1 example_random None false None example_nodes
  = applyForces initialDragState example_random None false None example_nodes.
Proof.
  intros d1. split; [reflexivity|]. split; [reflexivity|].
  apply (applyForces_ignores_released_drag d1 initialDragState example_random None false
           None example_nodes); reflexivity.
Defined.

Section DragSmoothing.
Local Open Scope R_scope.

Lemma dragAlong_S nodeId x0 y0 dx dy k (d : DragState R) :
  dragAlong nodeId x0 y0 dx dy (S k) d
  = updateDragPhysics (x0 + INR (S k) * dx) (y0 + INR (S k) * dy)
                      (dragAlong nodeId x0 y0 dx dy k d).
Proof.
  unfold dragAlong. rewrite seq_S, foldl_app. cbn [foldl].
  replace (1 + k)%nat with (S k) by lia. rewrite of_nat_INR. done.
Qed.

Lemma dragAlong_state nodeId x0 y0 dx dy k (d : DragState R) :
  truthy_string nodeId = true ->
  let d' := dragAlong nodeId x0 y0 dx dy k d in
  drag_nodeId d' = Some nodeId /\
  drag_x d' = x0 + INR k * dx /\ drag_y d' = y0 + INR k * dy /\
  drag_vx d' = (1 - 0.2 ^ k) * dx /\ drag_vy d' = (1 - 0.2 ^ k) * dy.
Proof.
  intros Hid. induction k as [|k IH].
  - unfold dragAlong. simpl. real_ops. split_and!; [done|lra..].
  - rewrite dragAlong_S. destruct IH as (Hn & Hx & Hy & Hvx & Hvy).
    unfold updateDragPhysics. rewrite Hn, Hid. cbn [drag_nodeId drag_x drag_y drag_vx drag_vy].
    rewrite Hx, Hy, Hvx, Hvy. rewrite S_INR. real_ops.
    split_and!; [done|lra|lra|simpl; lra|simpl; lra].
Qed.
End DragSmoothing.

(** X4 (exact arithmetic).  The drag velocity is an exponential average.  When
    a drag starts at (x0, y0) and the pointer then moves by the same step
    (dx, dy) at each of [k] updates, the drag sits at the last pointer
    position and releasing it returns (1 - 0.2^k) (dx, dy): the returned
    velocity never exceeds the pointer's and approaches it. *)
Theorem drag_velocity_follows_pointer (nodeId : string) (x0 y0 dx dy : R) (k : nat)
    (d : DragState R) :
  truthy_string nodeId = true ->
  let dragged := dragAlong nodeId x0 y0 dx dy k d in
  drag_x dragged = (x0 + INR k * dx)%R /\ drag_y dragged = (y0 + INR k * dy)%R /\
  (endDragPhysics dragged).1 = (((1 - 0.2 ^ k) * dx)%R, ((1 - 0.2 ^ k) * dy)%R).
Proof.
  intros Hid dragged.
  destruct (dragAlong_state nodeId x0 y0 dx dy k d Hid) as (_ & Hx & Hy & Hvx & Hvy).
  fold dragged in Hx, Hy, Hvx, Hvy.
  split_and!; [done|done|]. unfold endDragPhysics. cbn [fst]. by rewrite Hvx, Hvy.
Qed.

Lemma drag_velocity_follows_pointer_witness :
  truthy_string "a" = true /\
  let dragged := dragAlong "a" 0%R 0%R 10%R 5%R 3 initialDragState in
  drag_x dragged = (0 + INR 3 * 10)%R /\ drag_y dragged = (0 + INR 3 * 5)%R /\
  (endDragPhysics dragged).1 = (((1 - 0.2 ^ 3) * 10)%R, ((1 - 0.2 ^ 3) * 5)%R).
Proof.
  split; [reflexivity|].
  apply (drag_velocity_follows_pointer "a" 0%R 0%R 10%R 5%R 3 initialDragState).
  reflexivity.
Defined.

(** * Hit testing *)

Section HitTest.
Context {num : Type} `{!JsNumber num} `{!JsLe num}.
Implicit Types (n : CloudNode num) (nodes : list (CloudNode num)).

Lemma scanDown_found x y padding nodes top n :
  scanDown x y padding nodes top = Some n ->
  exists i, i < top /\ nodes !! i = Some n /\ hitBy x y padding n = true /\
    forall j m, i < j < top -> nodes !! j = Some m -> hitBy x y padding m = false.
Proof.
  induction top as [|t IH]; [done|]. simpl.
  destruct (nodes !! t) as [node|] eqn:Ht.
  - destruct (hitBy x y padding node) eqn:Hhit.
    + intros [= <-]. exists t. split_and!; [lia|done|done|]. intros j m Hj. lia.
    + intros Hrec. destruct (IH Hrec) as (i & Hi & Hn & Hh & Hlater).
      exists i. split_and!; [lia|done|done|]. intros j m Hj Hm.
      destruct (decide (j = t)) as [->|Hne]; [congruence|]. apply (Hlater j m); [lia|done].
  - intros Hrec. destruct (IH Hrec) as (i & Hi & Hn & Hh & Hlater).
    exists i. split_and!; [lia|done|done|]. intros j m Hj Hm.
    destruct (decide (j = t)) as [->|Hne]; [congruence|]. apply (Hlater j m); [lia|done].
Qed.

Lemma scanDown_missed x y padding nodes top :
  scanDown x y padding nodes top = None <->
  forall j m, j < top -> nodes !! j = Some m -> hitBy x y padding m = false.
Proof.
  induction top as [|t IH]; simpl.
  - split; [intros _ j m Hj; lia|done].
  - destruct (nodes !! t) as [node|] eqn:Ht.
    + destruct (hitBy x y padding node) eqn:Hhit.
      * split; [done|]. intros Hall. specialize (Hall t node). rewrite Hhit in Hall.
        by discriminate Hall; [lia|].
      * rewrite IH. split; intros Hall j m Hj Hm.
        -- destruct (decide (j = t)) as [->|Hne]; [congruence|]. apply (Hall j m); [lia|done].
        -- apply (Hall j m); [lia|done].
    + rewrite IH. split; intros Hall j m Hj Hm.
      * destruct (decide (j = t)) as [->|Hne]; [congruence|]. apply (Hall j m); [lia|done].
      * apply (Hall j m); [lia|done].
Qed.
End HitTest.

(** X5.  [findNodeAt] returns the top-most hit: the node it returns is in the
    list and passes the distance test, and no node after it in the list
    (drawn above it) passes; it returns null exactly when no node passes. *)
Theorem findNodeAt_topmost_hit {num : Type} `{!JsNumber num} `{!JsLe num}
    (nodes : list (CloudNode num)) (x y : num) (useExtraHitArea : bool) :
  let padding := if useExtraHitArea then TOUCH_PADDING else lit 0 in
  match findNodeAt nodes x y useExtraHitArea with
  | Some n =>
      exists i, nodes !! i = Some n /\ hitBy x y padding n = true /\
        forall j m, i < j -> nodes !! j = Some m -> hitBy x y padding m = false
  | None => Forall (fun m => hitBy x y padding m = false) nodes
  end.
Proof.
  intros padding. unfold findNodeAt. fold padding.
  destruct (scanDown x y padding nodes (length nodes)) as [n|] eqn:Hscan.
  - destruct (scanDown_found _ _ _ _ _ _ Hscan) as (i & Hi & Hn & Hh & Hlater).
    exists i. split_and!; [done|done|]. intros j m Hj Hm.
    apply (Hlater j m); [|done]. split; [done|]. by eapply lookup_lt_Some.
  - apply Forall_lookup. intros j m Hm.
    apply (proj1 (scanDown_missed x y padding nodes (length nodes)) Hscan j m); [|done].
    by eapply lookup_lt_Some.
Qed.

Section HitTestReal.
Local Open Scope R_scope.

Lemma hitBy_within x y padding (n : CloudNode R) :
  hitBy x y padding n = true ->
  within x y (node_radius n + padding) n.
Proof.
  unfold hitBy, leq, real_le, within. rewrite bool_decide_eq_true. real_ops.
  set (s := (x - node_x n) * (x - node_x n) + (y - node_y n) * (y - node_y n)).
  intros Hle. pose proof (sqrt_pos s) as Hpos.
  assert (Hs : 0 <= s) by (unfold s; apply Rplus_le_le_0_compat; apply Rle_0_sqr).
  rewrite <- (sqrt_sqrt s Hs).
  apply Rmult_le_compat; lra.
Qed.

Lemma hitBy_padding_mono x y (n : CloudNode R) :
  hitBy x y (lit 0) n = true -> hitBy x y TOUCH_PADDING n = true.
Proof.
  unfold hitBy, leq, real_le, TOUCH_PADDING. rewrite !bool_decide_eq_true. real_ops. lra.
Qed.
End HitTestReal.

(** X6 (exact arithmetic).  The node [findNodeAt] returns has the point within
    its radius, or within its radius plus 15 with the extra hit area; and
    whatever is hit without the extra hit area is hit with it: the touch test
    then returns that node or one drawn above it. *)
Theorem findNodeAt_touch_area (nodes : list (CloudNode R)) (x y : R) (n : CloudNode R)
    (useExtraHitArea : bool) :
  findNodeAt nodes x y useExtraHitArea = Some n ->
  within x y (node_radius n + (if useExtraHitArea then 15 else 0))%R n /\
  (useExtraHitArea = false ->
   exists i j m, nodes !! i = Some n /\ nodes !! j = Some m /\ i <= j /\
                 findNodeAt nodes x y true = Some m).
Proof.
  intros Hfound.
  unfold findNodeAt in Hfound.
  destruct (scanDown_found _ _ _ _ _ _ Hfound) as (i & Hi & Hn & Hh & Hlater).
  split.
  - apply hitBy_within in Hh. destruct useExtraHitArea; unfold TOUCH_PADDING in Hh;
      unfold within in *; real_ops; lra.
  - intros ->. unfold findNodeAt.
    destruct (scanDown x y TOUCH_PADDING nodes (length nodes)) as [m|] eqn:Hscan.
    + destruct (scanDown_found _ _ _ _ _ _ Hscan) as (j & Hj & Hm & Hhm & Hlaterm).
      exists i, j, m. split_and!; [done|done| |done].
      destruct (decide (i <= j)%nat) as [|Hgt]; [done|].
      assert (Hmiss : hitBy x y TOUCH_PADDING n = false)
        by (apply (Hlaterm i n); [lia|done]).
      rewrite (hitBy_padding_mono x y n Hh) in Hmiss. discriminate.
    + pose proof (proj1 (scanDown_missed x y TOUCH_PADDING nodes (length nodes)) Hscan
                    i n Hi Hn) as Hmiss.
      rewrite (hitBy_padding_mono x y n Hh) in Hmiss. discriminate.
Qed.

Lemma findNodeAt_touch_area_witness :
  let b := mkCloudNode "b" task 10%R 0%R 3%R 4%R 45%R (Some "g") in
  findNodeAt example_nodes_R 20%R 0%R false = Some b /\
  within 20 0 (node_radius b + 0)%R b /\
  (false = false ->
   exists i j m, example_nodes_R !! i = Some b /\ example_nodes_R !! j = Some m /\ i <= j /\
                 findNodeAt example_nodes_R 20%R 0%R true = Some m).
Proof.
  intros b.
  assert (Hfound : findNodeAt example_nodes_R 20%R 0%R false = Some b).
  { unfold findNodeAt, example_nodes_R. simpl. unfold hitBy, leq, real_le. simpl.
    rewrite bool_decide_eq_true_2; [done|]. real_ops.
    replace ((20 - 10) * (20 - 10) + (0 - 0) * (0 - 0))%R with (10 * 10)%R by ring.
    rewrite sqrt_square by lra. lra. }
  split; [exact Hfound|].
  exact (findNodeAt_touch_area example_nodes_R 20%R 0%R b false Hfound).
Defined.

(** * Neighbours and their cache *)

Section NeighborCacheFacts.
Context {num : Type} `{!JsNumber num}.
Implicit Types (n : CloudNode num) (nodes : list (CloudNode num))
               (cache : NeighborCache num).

Lemma cache_get_entry cache nodeId nodes neighbors :
  cache_get cache nodeId nodes = Some neighbors ->
  exists entry, cache !! nodeId = Some entry /\ entry_neighbors entry = neighbors.
Proof.
  unfold cache_get. destruct (cache !! nodeId) as [entry|]; [|done].
  repeat case_match; try done. intros [= <-]. eauto.
Qed.

Lemma freshNeighbors_exclude (targetNode : CloudNode num) nodes :
  Forall (fun node => node_id node <> node_id targetNode)
         (filter (fun node => isNeighbor targetNode node = true) nodes).
Proof.
  apply Forall_forall. intros node [Hnb _]%list_elem_of_filter.
  unfold isNeighbor in Hnb. intros Hid.
  by rewrite (bool_decide_eq_true_2 _ Hid) in Hnb.
Qed.
End NeighborCacheFacts.

(** X7.  [findNeighbors] never lists the target among its neighbours, whether
    the list is computed or served from the cache.  The cache keeps the
    property that makes this so, and the empty cache has it. *)
Theorem findNeighbors_excludes_target {num : Type} `{!JsNumber num}
    (cache : NeighborCache num) (nodes : list (CloudNode num)) (targetNode : CloudNode num) :
  excludes_target cache ->
  Forall (fun node => node_id node <> node_id targetNode)
         (findNeighbors cache nodes targetNode).1 /\
  excludes_target (findNeighbors cache nodes targetNode).2 /\
  excludes_target (clearNeighborCache cache).
Proof.
  intros Hcache. unfold findNeighbors.
  destruct (cache_get cache (node_id targetNode) nodes) as [cached|] eqn:Hget.
  - destruct (cache_get_entry _ _ _ _ Hget) as (entry & Hentry & <-).
    split_and!; [by eapply Hcache|done|]. intros nodeId e He. cbv [clearNeighborCache cache_clear NeighborCache] in He.
    by rewrite lookup_empty in He.
  - cbn [fst snd]. split_and!.
    + apply freshNeighbors_exclude.
    + intros nodeId e. unfold cache_set, NeighborCache in *.
      destruct (decide (nodeId = node_id targetNode)) as [->|Hne].
      * rewrite lookup_insert_eq. intros [= <-]. apply freshNeighbors_exclude.
      * rewrite lookup_insert_ne by done. apply Hcache.
    + intros nodeId e He. cbv [clearNeighborCache cache_clear NeighborCache] in He.
      by rewrite lookup_empty in He.
Qed.

Lemma findNeighbors_excludes_target_witness :
  let a := mkCloudNode "a" task (lit 0) (lit 0) (lit 1) (lit 0) (lit 45) (Some "g") in
  excludes_target (∅ : NeighborCache float) /\
  Forall (fun node => node_id node <> node_id a) (findNeighbors ∅ example_nodes a).1 /\
  excludes_target (findNeighbors ∅ example_nodes a).2 /\
  excludes_target (clearNeighborCache (∅ : NeighborCache float)).
Proof.
  intros a.
  assert (Hempty : excludes_target (∅ : NeighborCache float)).
  { intros nodeId e He. unfold NeighborCache in He. by rewrite lookup_empty in He. }
  split; [exact Hempty|].
  exact (findNeighbors_excludes_target ∅ example_nodes a Hempty).
Defined.

(** X8.  [findNeighbors] is idempotent: a second call with the same nodes and
    target returns the same neighbours as the first and leaves the cache as
    the first call left it. *)
Theorem findNeighbors_twice {num : Type} `{!JsNumber num}
    (cache : NeighborCache num) (nodes : list (CloudNode num)) (targetNode : CloudNode num) :
  let first := findNeighbors cache nodes targetNode in
  findNeighbors first.2 nodes targetNode = first.
Proof.
  intros first. unfold first, findNeighbors.
  destruct (cache_get cache (node_id targetNode) nodes) as [cached|] eqn:Hget.
  - cbn [snd]. by rewrite Hget.
  - cbn [snd].
    destruct (cache_get (cache_set cache (node_id targetNode) _ nodes) (node_id targetNode) nodes)
      as [cached|] eqn:Hget2.
    + destruct (cache_get_entry _ _ _ _ Hget2) as (entry & Hentry & <-).
      unfold cache_set, NeighborCache in Hentry. rewrite lookup_insert_eq in Hentry.
      by injection Hentry as <-.
    + f_equal. unfold cache_set, NeighborCache in *. by rewrite insert_insert_eq.
Qed.

Section SnapshotFacts.
Context {num : Type} `{!JsNumber num}.
Implicit Types (n : CloudNode num) (nodes : list (CloudNode num)).

Lemma snapshot_foldl nodes (m : gmap string (num * num)) :
  dom (foldl (fun positions node => <[node_id node := (node_x node, node_y node)]> positions)
             m nodes)
  = dom m ∪ list_to_set (node_id <$> nodes).
Proof.
  revert m. induction nodes as [|n nodes IH]; intros m.
  - rewrite fmap_nil, list_to_set_nil. cbn [foldl]. by rewrite (right_id_L ∅ (∪)).
  - cbn [foldl]. rewrite IH, dom_insert_L, fmap_cons, list_to_set_cons.
    by rewrite (comm_L (∪) {[node_id n]} (dom m)), <- (assoc_L (∪)).
Qed.

Lemma snapshot_dom nodes :
  dom (snapshotPositions nodes) = list_to_set (node_id <$> nodes).
Proof.
  unfold snapshotPositions. by rewrite snapshot_foldl, dom_empty_L, (left_id_L ∅ (∪)).
Qed.

Lemma size_list_to_set_le (ids : list string) :
  size (list_to_set ids : gset string) <= length ids.
Proof.
  induction ids as [|x ids IH]; [done|].
  rewrite list_to_set_cons, size_union_alt, size_singleton. cbn [length].
  assert (Hsub : list_to_set ids ∖ {[x]} ⊆ (list_to_set ids : gset string)).
  { intros z Hz. apply elem_of_difference in Hz. tauto. }
  apply subseteq_size in Hsub. lia.
Qed.

Lemma size_list_to_set_NoDup (ids : list string) :
  size (list_to_set ids : gset string) = length ids <-> NoDup ids.
Proof.
  split; [|apply size_list_to_set].
  induction ids as [|x ids IH]; [constructor|].
  rewrite list_to_set_cons. cbn [length].
  intros Hsize. pose proof (size_list_to_set_le ids) as Hle.
  destruct (decide (x ∈ ids)) as [Hin|Hnotin].
  - rewrite (subseteq_union_1_L {[x]} (list_to_set ids : gset string)) in Hsize.
    + lia.
    + apply singleton_subseteq_l. by apply elem_of_list_to_set.
  - rewrite size_union in Hsize.
    + rewrite size_singleton in Hsize. constructor; [done|]. apply IH. lia.
    + apply disjoint_singleton_l. by rewrite elem_of_list_to_set.
Qed.

Lemma snapshot_size nodes :
  size (snapshotPositions nodes) = length nodes <-> NoDup (node_id <$> nodes).
Proof.
  rewrite <- size_dom, snapshot_dom.
  rewrite <- size_list_to_set_NoDup. by rewrite length_fmap.
Qed.

Lemma snapshot_foldl_lookup nodes (m : gmap string (num * num)) n :
  n ∈ nodes -> NoDup (node_id <$> nodes) ->
  foldl (fun positions node => <[node_id node := (node_x node, node_y node)]> positions)
        m nodes !! node_id n = Some (node_x n, node_y n).
Proof.
  revert m. induction nodes as [|n0 nodes IH]; intros m Hin Hnd; [by inversion Hin|].
  simpl. rewrite fmap_cons in Hnd. apply NoDup_cons in Hnd as [Hnotin Hnd].
  apply elem_of_cons in Hin as [->|Hin].
  - clear IH. assert (Hkeep : forall (l : list (CloudNode num)) (m' : gmap string (num * num)) v,
              m' !! node_id n0 = Some v -> node_id n0 ∉ node_id <$> l ->
              foldl (fun positions node =>
                       <[node_id node := (node_x node, node_y node)]> positions) m' l
                !! node_id n0 = Some v).
    { induction l as [|a l IHl]; intros m' v Hv Hl; [done|]. simpl.
      rewrite fmap_cons in Hl. apply not_elem_of_cons in Hl as [Hne Hl].
      apply IHl; [|done]. by rewrite lookup_insert_ne. }
    apply Hkeep; [by rewrite lookup_insert_eq|done].
  - by apply IH.
Qed.

Lemma snapshot_lookup nodes n :
  n ∈ nodes -> NoDup (node_id <$> nodes) ->
  snapshotPositions nodes !! node_id n = Some (node_x n, node_y n).
Proof. apply snapshot_foldl_lookup. Qed.
End SnapshotFacts.

Section NeighborCacheReal.
Local Open Scope R_scope.

Lemma positionKept_snapshot (nodes : list (CloudNode R)) n :
  n ∈ nodes -> NoDup (node_id <$> nodes) ->
  positionKept (snapshotPositions nodes) n = true.
Proof.
  intros Hin Hnd. unfold positionKept. rewrite snapshot_lookup by done.
  cbn [fst snd]. unfold POSITION_THRESHOLD. real_ops.
  rewrite !Rminus_diag, Rabs_R0.
  rewrite bool_decide_eq_false_2 by lra. done.
Qed.
End NeighborCacheReal.

(** X9 (exact arithmetic).  What [set] stored is what [get] returns for the
    same nodes exactly when the node ids are pairwise different; with a
    repeated id the stored position map is smaller than the node list and
    the cache never answers. *)
Theorem neighbor_cache_round_trip (cache : NeighborCache R) (nodeId : string)
    (neighbors nodes : list (CloudNode R)) :
  cache_get (cache_set cache nodeId neighbors nodes) nodeId nodes = Some neighbors
  <-> NoDup (node_id <$> nodes).
Proof.
  unfold cache_get, cache_set, NeighborCache in *. rewrite lookup_insert_eq. cbn [entry_positions entry_neighbors].
  split.
  - destruct (forallb _ nodes); [|done]. case_bool_decide as Hsize; [|done].
    intros _. by apply snapshot_size.
  - intros Hnd.
    assert (Hall : forallb (positionKept (snapshotPositions nodes)) nodes = true).
    { apply forallb_forall. intros n Hn. apply positionKept_snapshot; [|done].
      by apply list_elem_of_In. }
    rewrite Hall. rewrite bool_decide_eq_true_2; [done|]. by apply snapshot_size.
Qed.

Section NeighborSymmetry.
Local Open Scope R_scope.

Lemma isNeighbor_sym (a b : CloudNode R) : isNeighbor a b = isNeighbor b a.
Proof.
  unfold isNeighbor.
  assert (E1 : bool_decide (node_id a = node_id b) = bool_decide (node_id b = node_id a))
    by (apply bool_decide_ext; split; congruence).
  assert (E2 : bool_decide (node_parentId a = node_parentId b)
               = bool_decide (node_parentId b = node_parentId a))
    by (apply bool_decide_ext; split; congruence).
  assert (E3 : bool_decide (Some (node_id a) = node_parentId b)
               = bool_decide (node_parentId b = Some (node_id a)))
    by (apply bool_decide_ext; split; congruence).
  assert (E4 : bool_decide (node_parentId a = Some (node_id b))
               = bool_decide (Some (node_id b) = node_parentId a))
    by (apply bool_decide_ext; split; congruence).
  assert (E5 : lt (sqrt (add (mul (sub (node_x a) (node_x b)) (sub (node_x a) (node_x b)))
                             (mul (sub (node_y a) (node_y b)) (sub (node_y a) (node_y b)))))
                  (add (add (node_radius b) (node_radius a)) (lit 50))
               = lt (sqrt (add (mul (sub (node_x b) (node_x a)) (sub (node_x b) (node_x a)))
                               (mul (sub (node_y b) (node_y a)) (sub (node_y b) (node_y a)))))
                    (add (add (node_radius a) (node_radius b)) (lit 50))).
  { real_ops. apply bool_decide_ext.
    replace ((node_x b - node_x a) * (node_x b - node_x a)
             + (node_y b - node_y a) * (node_y b - node_y a))
      with ((node_x a - node_x b) * (node_x a - node_x b)
            + (node_y a - node_y b) * (node_y a - node_y b)) by ring.
    replace (node_radius a + node_radius b) with (node_radius b + node_radius a) by ring.
    done. }
  rewrite E1, E2, E3, E4, E5. clear E1 E2 E3 E4 E5.
  destruct (bool_decide (node_id b = node_id a)); [done|].
  destruct (decide (node_parentId b = node_parentId a)) as [Hp|Hp].
  - rewrite (bool_decide_eq_true_2 _ Hp). cbn [andb].
    replace (truthy_parent (node_parentId b)) with (truthy_parent (node_parentId a))
      by (by rewrite Hp).
    destruct (truthy_parent (node_parentId a)); [done|].
    by destruct (bool_decide (Some (node_id b) = node_parentId a)),
                (bool_decide (node_parentId b = Some (node_id a))).
  - rewrite (bool_decide_eq_false_2 _ Hp). cbn [andb].
    by destruct (bool_decide (Some (node_id b) = node_parentId a)),
                (bool_decide (node_parentId b = Some (node_id a))).
Qed.
End NeighborSymmetry.

(** X10 (exact arithmetic).  Being a neighbour is mutual.  With the cache
    cleared, if [b] is among the neighbours of [a], and [a] is among the
    nodes, then [a] is among the neighbours of [b]. *)
Theorem neighbors_are_mutual (nodes : list (CloudNode R)) (a b : CloudNode R) :
  a ∈ nodes ->
  b ∈ (findNeighbors ∅ nodes a).1 ->
  a ∈ (findNeighbors ∅ nodes b).1.
Proof.
  unfold findNeighbors, cache_get, NeighborCache. rewrite !lookup_empty. cbn [fst].
  intros Ha [Hnb Hb]%list_elem_of_filter.
  apply list_elem_of_filter. split; [|done]. by rewrite isNeighbor_sym.
Qed.

Lemma neighbors_are_mutual_witness :
  let a := mkCloudNode "a" task 0%R 0%R 1%R 0%R 45%R (Some "g") in
  let b := mkCloudNode "b" task 10%R 0%R 3%R 4%R 45%R (Some "g") in
  a ∈ example_nodes_R /\ b ∈ (findNeighbors ∅ example_nodes_R a).1 /\
  a ∈ (findNeighbors ∅ example_nodes_R b).1.
Proof.
  intros a b.
  assert (Ha : a ∈ example_nodes_R).
  { apply list_elem_of_lookup. exists 1%nat. reflexivity. }
  assert (Hb : b ∈ (findNeighbors ∅ example_nodes_R a).1).
  { unfold findNeighbors, cache_get, NeighborCache. rewrite lookup_empty. cbn [fst].
    apply list_elem_of_filter. split.
    - reflexivity.
    - apply list_elem_of_lookup. exists 2%nat. reflexivity. }
  split; [exact Ha|]. split; [exact Hb|].
  exact (neighbors_are_mutual example_nodes_R a b Ha Hb).
Defined.

(** * Further properties of the node graph *)

Section NodeGraphShape.
Context {num : Type} `{!JsNumber num} `{!JsTrig num}.
Implicit Types (n : CloudNode num) (ep : gmap string (num * num))
               (focusedNode : option (CloudNode num)).

Lemma subtaskNodes_sound ep t tx ty taskRadius n :
  n ∈ subtaskNodes ep t tx ty taskRadius ->
  node_vx n = lit 0 /\ node_vy n = lit 0 /\
  exists s, s ∈ task_subtasks t /\ is_subtask_node t s n.
Proof.
  unfold subtaskNodes. intros Hn.
  apply list_elem_of_lookup in Hn as [k Hk].
  rewrite list_lookup_imap in Hk.
  destruct (task_subtasks t !! k) as [s|] eqn:Hs; [|done]. simpl in Hk.
  assert (Hin : s ∈ task_subtasks t) by (by eapply list_elem_of_lookup_2).
  destruct (ep !! subtask_id s) as [[sx sy]|]; injection Hk as <-;
    (split_and!; [done|done|]; exists s; by split).
Qed.

Lemma subtaskNodes_complete ep t tx ty taskRadius s :
  s ∈ task_subtasks t ->
  exists n, n ∈ subtaskNodes ep t tx ty taskRadius /\ is_subtask_node t s n.
Proof.
  intros [k Hk]%list_elem_of_lookup. eexists. split.
  - apply list_elem_of_lookup. exists k. unfold subtaskNodes.
    rewrite list_lookup_imap, Hk. simpl. reflexivity.
  - by destruct (ep !! subtask_id s) as [[sx sy]|].
Qed.

(** One round of [tasks.forEach]. *)
Lemma taskNodes_cons random ep focusedNode milestoneId mx my taskCount j t rest k :
  exists taskNode tx ty k1,
    (taskNodes random ep focusedNode milestoneId mx my taskCount j (t :: rest) k).1
    = taskNode
      :: (if isTaskFocused focusedNode t || isSubtaskFocused focusedNode t
          then subtaskNodes ep t tx ty (taskRadiusOf t) else [])
      ++ (taskNodes random ep focusedNode milestoneId mx my taskCount (S j) rest k1).1 /\
    is_task_node milestoneId t taskNode /\
    node_vx taskNode = lit 0 /\ node_vy taskNode = lit 0.
Proof.
  simpl. destruct (ep !! task_id t) as [p|]; simpl.
  - exists (mkCloudNode (task_id t) task p.1 p.2 (lit 0) (lit 0) (taskRadiusOf t)
                        (Some milestoneId)), p.1, p.2, k.
    by destruct (taskNodes random ep focusedNode milestoneId mx my taskCount (S j) rest k).
  - eexists _, _, _, (S k).
    destruct (taskNodes random ep focusedNode milestoneId mx my taskCount (S j) rest (S k)).
    simpl. split; [reflexivity|done].
Qed.

Lemma taskNodes_sound random ep focusedNode milestoneId mx my taskCount j tasks k n :
  n ∈ (taskNodes random ep focusedNode milestoneId mx my taskCount j tasks k).1 ->
  node_vx n = lit 0 /\ node_vy n = lit 0 /\
  ((exists t, t ∈ tasks /\ is_task_node milestoneId t n) \/
   (exists t s, t ∈ tasks /\ s ∈ task_subtasks t /\
                isTaskFocused focusedNode t || isSubtaskFocused focusedNode t = true /\
                is_subtask_node t s n)).
Proof.
  revert j k. induction tasks as [|t rest IH]; intros j k.
  - by intros ?%elem_of_nil.
  - destruct (taskNodes_cons random ep focusedNode milestoneId mx my taskCount j t rest k)
      as (taskNode & tx & ty & k1 & -> & Htask & Hvx & Hvy).
    intros Hn. apply elem_of_cons in Hn as [->|Hn];
      [|apply elem_of_app in Hn as [Hsub|Hothers]].
    + split_and!; [done|done|]. left. exists t. split; [apply elem_of_cons; by left|done].
    + destruct (_ || _) eqn:Hfocus; [|by apply elem_of_nil in Hsub].
      apply subtaskNodes_sound in Hsub as (? & ? & s & Hs & Hsn).
      split_and!; [done|done|]. right. exists t, s.
      split_and!; [apply elem_of_cons; by left|done|done|done].
    + destruct (IH _ _ Hothers) as (? & ? & [(t' & Ht' & ?)|(t' & s & Ht' & ? & ? & ?)]).
      * split_and!; [done|done|]. left. exists t'. split; [apply elem_of_cons; by right|done].
      * split_and!; [done|done|]. right. exists t', s.
        split_and!; [apply elem_of_cons; by right|done|done|done].
Qed.

Lemma taskNodes_complete random ep focusedNode milestoneId mx my taskCount j tasks k t :
  t ∈ tasks ->
  (exists n, n ∈ (taskNodes random ep focusedNode milestoneId mx my taskCount j tasks k).1 /\
             is_task_node milestoneId t n) /\
  (isTaskFocused focusedNode t || isSubtaskFocused focusedNode t = true ->
   forall s, s ∈ task_subtasks t ->
     exists n, n ∈ (taskNodes random ep focusedNode milestoneId mx my taskCount j tasks k).1 /\
               is_subtask_node t s n).
Proof.
  revert j k. induction tasks as [|t' rest IH]; intros j k Ht.
  - by apply elem_of_nil in Ht.
  - destruct (taskNodes_cons random ep focusedNode milestoneId mx my taskCount j t' rest k)
      as (taskNode & tx & ty & k1 & -> & Htask & _).
    apply elem_of_cons in Ht as [->|Ht].
    + split.
      * exists taskNode. split; [apply elem_of_cons; by left|done].
      * intros Hfocus s Hs. rewrite Hfocus.
        destruct (subtaskNodes_complete ep t' tx ty (taskRadiusOf t') s Hs) as (n & Hn & Hsn).
        exists n. split; [|done]. apply elem_of_cons. right. apply elem_of_app. by left.
    + destruct (IH (S j) k1 Ht) as [(n & Hn & Htn) Hsubs]. split.
      * exists n. split; [|done]. apply elem_of_cons. right. apply elem_of_app. by right.
      * intros Hfocus s Hs. destruct (Hsubs Hfocus s Hs) as (n' & Hn' & Hsn).
        exists n'. split; [|done]. apply elem_of_cons. right. apply elem_of_app. by right.
Qed.

(** One round of [milestones.forEach]. *)
Lemma milestoneNodes_cons random ep focusedNode width height milestoneCount i m rest k :
  exists milestoneNode mx my,
    (milestoneNodes random ep focusedNode width height milestoneCount i (m :: rest) k).1
    = milestoneNode
      :: (taskNodes random ep focusedNode (milestone_id m) mx my
                    (length (milestone_tasks m)) 0 (milestone_tasks m) k).1
      ++ (milestoneNodes random ep focusedNode width height milestoneCount (S i) rest
            (taskNodes random ep focusedNode (milestone_id m) mx my
                       (length (milestone_tasks m)) 0 (milestone_tasks m) k).2).1 /\
    is_milestone_node m milestoneNode /\
    node_vx milestoneNode = lit 0 /\ node_vy milestoneNode = lit 0.
Proof.
  simpl.
  set (pos := match milestone_x m, milestone_y m with
              | Some sx, Some sy => (sx, sy) | _, _ => _ end).
  destruct pos as [mx my].
  exists (mkCloudNode (milestone_id m) milestone mx my (lit 0) (lit 0)
                      LAYOUT.MILESTONE_RADIUS None), mx, my.
  destruct (taskNodes random ep focusedNode (milestone_id m) mx my
                      (length (milestone_tasks m)) 0 (milestone_tasks m) k) as [tasks k1].
  cbn [fst snd].
  by destruct (milestoneNodes random ep focusedNode width height milestoneCount (S i) rest k1).
Qed.

Lemma milestoneNodes_sound random ep focusedNode width height milestoneCount i milestones k n :
  n ∈ (milestoneNodes random ep focusedNode width height milestoneCount i milestones k).1 ->
  node_vx n = lit 0 /\ node_vy n = lit 0 /\ node_of_tree focusedNode milestones n.
Proof.
  revert i k. induction milestones as [|m rest IH]; intros i k.
  - by intros ?%elem_of_nil.
  - destruct (milestoneNodes_cons random ep focusedNode width height milestoneCount i m rest k)
      as (milestoneNode & mx & my & -> & Hm & Hvx & Hvy).
    intros Hn. apply elem_of_cons in Hn as [->|Hn];
      [|apply elem_of_app in Hn as [Htasks|Hothers]].
    + split_and!; [done|done|]. left. exists m. split; [apply elem_of_cons; by left|done].
    + apply taskNodes_sound in Htasks
        as (? & ? & [(t & Ht & ?)|(t & s & Ht & ? & ? & ?)]).
      * split_and!; [done|done|]. right. left. exists m, t.
        split_and!; [apply elem_of_cons; by left|done|done].
      * split_and!; [done|done|]. right. right. exists m, t, s.
        split_and!; [apply elem_of_cons; by left|done|done|done|done].
    + destruct (IH _ _ Hothers) as (? & ? & Htree). split_and!; [done|done|].
      destruct Htree as [(m' & ? & ?)|[(m' & t & ? & ? & ?)|(m' & t & s & ? & ? & ? & ? & ?)]].
      * left. exists m'. split; [apply elem_of_cons; by right|done].
      * right. left. exists m', t. split_and!; [apply elem_of_cons; by right|done|done].
      * right. right. exists m', t, s.
        split_and!; [apply elem_of_cons; by right|done|done|done|done].
Qed.

Lemma milestoneNodes_complete random ep focusedNode width height milestoneCount i
    milestones k m :
  m ∈ milestones ->
  let nodes :=
    (milestoneNodes random ep focusedNode width height milestoneCount i milestones k).1 in
  (exists n, n ∈ nodes /\ is_milestone_node m n) /\
  forall t, t ∈ milestone_tasks m ->
    (exists n, n ∈ nodes /\ is_task_node (milestone_id m) t n) /\
    (isTaskFocused focusedNode t || isSubtaskFocused focusedNode t = true ->
     forall s, s ∈ task_subtasks t -> exists n, n ∈ nodes /\ is_subtask_node t s n).
Proof.
  revert i k. induction milestones as [|m' rest IH]; intros i k Hm.
  - by apply elem_of_nil in Hm.
  - cbv zeta.
    destruct (milestoneNodes_cons random ep focusedNode width height milestoneCount i m' rest k)
      as (milestoneNode & mx & my & -> & Hmn & _).
    apply elem_of_cons in Hm as [->|Hm].
    + split.
      * exists milestoneNode. split; [apply elem_of_cons; by left|done].
      * intros t Ht.
        destruct (taskNodes_complete random ep focusedNode (milestone_id m') mx my
                    (length (milestone_tasks m')) 0 (milestone_tasks m') k t Ht)
          as [(n & Hn & Htn) Hsubs].
        split.
        -- exists n. split; [|done]. apply elem_of_cons. right. apply elem_of_app. by left.
        -- intros Hfocus s Hs. destruct (Hsubs Hfocus s Hs) as (n' & Hn' & Hsn).
           exists n'. split; [|done]. apply elem_of_cons. right. apply elem_of_app. by left.
    + pose proof (IH (S i)
                    (taskNodes random ep focusedNode (milestone_id m') mx my
                               (length (milestone_tasks m')) 0 (milestone_tasks m') k).2
                    Hm) as IH'.
      cbv zeta in IH'. destruct IH' as [(n & Hn & Hmn') Htasks]. split.
      * exists n. split; [|done]. apply elem_of_cons. right. apply elem_of_app. by right.
      * intros t Ht. destruct (Htasks t Ht) as [(n' & Hn' & Htn) Hsubs]. split.
        -- exists n'. split; [|done]. apply elem_of_cons. right. apply elem_of_app. by right.
        -- intros Hfocus s Hs. destruct (Hsubs Hfocus s Hs) as (n'' & Hn'' & Hsn).
           exists n''. split; [|done]. apply elem_of_cons. right. apply elem_of_app. by right.
Qed.
End NodeGraphShape.

(** X11.  Every node [createNodes] returns is at rest (velocity 0, also when its
    position was taken over from [existingNodes]) and comes from the entity
    tree: it is the node of a milestone, of a task under its milestone, or of
    a subtask under a task that is focused or holds the focused subtask; its
    id, kind, parent and radius are those of that entity. *)
Theorem createNodes_nodes_come_from_tree {num : Type} `{!JsNumber num} `{!JsTrig num}
    (random : nat -> num) (milestones : list (Milestone num)) (width height : num)
    (focusedNode : option (CloudNode num)) (existingNodes : option (list (CloudNode num)))
    (n : CloudNode num) :
  n ∈ createNodes random milestones width height focusedNode existingNodes ->
  node_vx n = lit 0 /\ node_vy n = lit 0 /\ node_of_tree focusedNode milestones n.
Proof. unfold createNodes. apply milestoneNodes_sound. Qed.

Lemma createNodes_nodes_come_from_tree_witness :
  let n := mkCloudNode "g" milestone 0%R 0%R (lit 0) (lit 0) LAYOUT.MILESTONE_RADIUS None in
  n ∈ createNodes example_random_R example_milestones 800%R 600%R None (Some example_previous) /\
  node_vx n = lit 0 /\ node_vy n = lit 0 /\ node_of_tree None example_milestones n.
Proof.
  intros n.
  assert (Hn : n ∈ createNodes example_random_R example_milestones 800%R 600%R None
                               (Some example_previous)).
  { apply list_elem_of_lookup. exists 0%nat. reflexivity. }
  split; [exact Hn|].
  exact (createNodes_nodes_come_from_tree example_random_R example_milestones 800%R 600%R
           None (Some example_previous) n Hn).
Defined.

(** X12.  [createNodes] leaves nothing out: every milestone has its node, every
    task of a milestone has a node under that milestone, and every subtask of
    a task that is focused, or that holds the focused subtask, has a node
    under that task. *)
Theorem createNodes_covers_tree {num : Type} `{!JsNumber num} `{!JsTrig num}
    (random : nat -> num) (milestones : list (Milestone num)) (width height : num)
    (focusedNode : option (CloudNode num)) (existingNodes : option (list (CloudNode num)))
    (m : Milestone num) :
  m ∈ milestones ->
  let nodes := createNodes random milestones width height focusedNode existingNodes in
  (exists n, n ∈ nodes /\ is_milestone_node m n) /\
  forall t, t ∈ milestone_tasks m ->
    (exists n, n ∈ nodes /\ is_task_node (milestone_id m) t n) /\
    (isTaskFocused focusedNode t || isSubtaskFocused focusedNode t = true ->
     forall s, s ∈ task_subtasks t -> exists n, n ∈ nodes /\ is_subtask_node t s n).
Proof. unfold createNodes. apply milestoneNodes_complete. Qed.

Lemma createNodes_covers_tree_witness :
  let m := mkMilestone "g" (Some 0%R) (Some 0%R) [mkTask "a" false [mkSubtask "s" false]] in
  m ∈ example_tree /\
  let nodes := createNodes example_random_R example_tree 800%R 600%R (Some example_focus)
                           (Some example_known) in
  (exists n, n ∈ nodes /\ is_milestone_node m n) /\
  forall t, t ∈ milestone_tasks m ->
    (exists n, n ∈ nodes /\ is_task_node (milestone_id m) t n) /\
    (isTaskFocused (Some example_focus) t || isSubtaskFocused (Some example_focus) t = true ->
     forall s, s ∈ task_subtasks t -> exists n, n ∈ nodes /\ is_subtask_node t s n).
Proof.
  intros m.
  assert (Hm : m ∈ example_tree).
  { apply list_elem_of_lookup. exists 0%nat. reflexivity. }
  split; [exact Hm|].
  exact (createNodes_covers_tree example_random_R example_tree 800%R 600%R
           (Some example_focus) (Some example_known) m Hm).
Defined.

(** X13.  The graph [createNodes] returns is closed under parents: a milestone
    node names no parent, the parent a task node names is a milestone node of
    the graph, the parent a subtask node names is a task node of the graph. *)
Theorem createNodes_parents_present {num : Type} `{!JsNumber num} `{!JsTrig num}
    (random : nat -> num) (milestones : list (Milestone num)) (width height : num)
    (focusedNode : option (CloudNode num)) (existingNodes : option (list (CloudNode num)))
    (n : CloudNode num) :
  n ∈ createNodes random milestones width height focusedNode existingNodes ->
  parent_present (createNodes random milestones width height focusedNode existingNodes) n.
Proof.
  intros Hn. unfold createNodes in *.
  destruct (milestoneNodes_sound _ _ _ _ _ _ _ _ _ _ Hn) as (_ & _ & Htree).
  unfold parent_present.
  destruct Htree as [(m & Hm & _ & Hty & -> & _)
                    |[(m & t & Hm & Ht & _ & Hty & -> & _)
                     |(m & t & s & Hm & Ht & Hs & Hfocus & _ & Hty & -> & _)]].
  - done.
  - destruct (milestoneNodes_complete random (existingPositionsOf existingNodes) focusedNode
                width height (length milestones) 0 milestones 0 m Hm)
      as [(p & Hp & Hid & Hpty & _) _].
    exists p. rewrite Hty. done.
  - destruct (milestoneNodes_complete random (existingPositionsOf existingNodes) focusedNode
                width height (length milestones) 0 milestones 0 m Hm) as [_ Htasks].
    destruct (Htasks t Ht) as [(p & Hp & Hid & Hpty & _) _].
    exists p. rewrite Hty. done.
Qed.

Lemma createNodes_parents_present_witness :
  let n := mkCloudNode "s" subtask 130%R 0%R (lit 0) (lit 0) LAYOUT.SUBTASK_RADIUS (Some "a") in
  n ∈ createNodes example_random_R example_tree 800%R 600%R (Some example_focus)
                  (Some example_known) /\
  parent_present (createNodes example_random_R example_tree 800%R 600%R (Some example_focus)
                              (Some example_known)) n.
Proof.
  intros n.
  assert (Hn : n ∈ createNodes example_random_R example_tree 800%R 600%R (Some example_focus)
                               (Some example_known)).
  { apply list_elem_of_lookup. exists 2%nat. reflexivity. }
  split; [exact Hn|].
  exact (createNodes_parents_present example_random_R example_tree 800%R 600%R
           (Some example_focus) (Some example_known) n Hn).
Defined.

(** X14.  Subtask nodes exist only in focus.  A subtask node in the result of
    [createNodes] means that a node is focused, and that it is the subtask's
    task or a subtask itself; without a focused node the graph holds
    milestones and tasks only. *)
Theorem createNodes_subtasks_need_focus {num : Type} `{!JsNumber num} `{!JsTrig num}
    (random : nat -> num) (milestones : list (Milestone num)) (width height : num)
    (focusedNode : option (CloudNode num)) (existingNodes : option (list (CloudNode num)))
    (n : CloudNode num) :
  n ∈ createNodes random milestones width height focusedNode existingNodes ->
  node_type n = subtask ->
  exists focused,
    focusedNode = Some focused /\
    (node_parentId n = Some (node_id focused) \/ node_type focused = subtask).
Proof.
  intros Hn Hty. unfold createNodes in Hn.
  destruct (milestoneNodes_sound _ _ _ _ _ _ _ _ _ _ Hn) as (_ & _ & Htree).
  destruct Htree as [(m & _ & _ & Hty' & _)
                    |[(m & t & _ & _ & _ & Hty' & _)
                     |(m & t & s & _ & _ & _ & Hfocus & _ & _ & Hparent & _)]];
    [congruence|congruence|].
  unfold isTaskFocused, isSubtaskFocused in Hfocus.
  destruct focusedNode as [focused|]; [|done].
  exists focused. split; [done|].
  apply orb_true_iff in Hfocus as [Hid|Hsub].
  - left. apply bool_decide_eq_true in Hid. by rewrite Hparent, Hid.
  - right. apply andb_true_iff in Hsub as [Hsub _]. by apply bool_decide_eq_true in Hsub.
Qed.

Lemma createNodes_subtasks_need_focus_witness :
  let n := mkCloudNode "s" subtask 130%R 0%R (lit 0) (lit 0) LAYOUT.SUBTASK_RADIUS (Some "a") in
  n ∈ createNodes example_random_R example_tree 800%R 600%R (Some example_focus)
                  (Some example_known) /\
  node_type n = subtask /\
  exists focused,
    Some example_focus = Some focused /\
    (node_parentId n = Some (node_id focused) \/ node_type focused = subtask).
Proof.
  intros n.
  assert (Hn : n ∈ createNodes example_random_R example_tree 800%R 600%R (Some example_focus)
                               (Some example_known)).
  { apply list_elem_of_lookup. exists 2%nat. reflexivity. }
  split; [exact Hn|]. split; [reflexivity|].
  exact (createNodes_subtasks_need_focus example_random_R example_tree 800%R 600%R
           (Some example_focus) (Some example_known) n Hn eq_refl).
Defined.

(** * The seeded generator *)

Section SeededRandomFacts.
Local Open Scope Z_scope.

Lemma ToInt32_range (z : Z) : - 2 ^ 31 <= SeededRandom.ToInt32 z < 2 ^ 31.
Proof.
  unfold SeededRandom.ToInt32.
  pose proof (Z.mod_pos_bound (z + 2 ^ 31) (2 ^ 32) eq_refl). lia.
Qed.

Lemma ToInt32_period (z k : Z) :
  SeededRandom.ToInt32 (z + 2 ^ 32 * k) = SeededRandom.ToInt32 z.
Proof.
  unfold SeededRandom.ToInt32.
  replace (z + 2 ^ 32 * k + 2 ^ 31) with (z + 2 ^ 31 + k * 2 ^ 32) by ring.
  by rewrite Z_mod_plus_full.
Qed.

Lemma ToUint32_period (z k : Z) :
  SeededRandom.ToUint32 (z + 2 ^ 32 * k) = SeededRandom.ToUint32 z.
Proof.
  unfold SeededRandom.ToUint32.
  replace (z + 2 ^ 32 * k) with (z + k * 2 ^ 32) by ring.
  by rewrite Z_mod_plus_full.
Qed.

Lemma hashStep_range (hash : Z) (a : ascii) :
  - 2 ^ 31 <= SeededRandom.hashStep hash a < 2 ^ 31.
Proof.
  unfold SeededRandom.hashStep, SeededRandom.and32. rewrite Z.land_diag.
  apply ToInt32_range.
Qed.

Lemma hashString_range (str : string) :
  - 2 ^ 31 <= SeededRandom.hashString str < 2 ^ 31.
Proof.
  unfold SeededRandom.hashString.
  generalize (list_ascii_of_string str). intros l.
  destruct (decide (l = [])) as [->|Hne]; [cbn [foldl]; lia|].
  destruct (exists_last Hne) as (l' & a & ->).
  rewrite foldl_app. cbn [foldl]. apply hashStep_range.
Qed.
End SeededRandomFacts.

(** X15.  The seed [createMorphSeed] computes is the absolute value of a 32-bit
    hash: an integer from 0 to 2^31, for every id, mode and size. *)
Theorem createMorphSeed_range {num : Type} `{!JsNumber num}
    (nodeId mode : string) (requiredW requiredH : num) :
  (0 <= SeededRandom.createMorphSeed nodeId mode requiredW requiredH <= 2 ^ 31)%Z.
Proof.
  unfold SeededRandom.createMorphSeed, SeededRandom.ushr, SeededRandom.ToUint32.
  rewrite Z.shiftr_0_r.
  match goal with |- context [SeededRandom.hashString ?s] =>
    pose proof (hashString_range s) as Hrange; generalize dependent (SeededRandom.hashString s)
  end.
  intros hash Hrange. rewrite Z.mod_small; lia.
Qed.

(** X16 (exact arithmetic).  [next()] returns a number in [0, 1) and advances
    the state by 0x6D2B79F5; the number depends on the state modulo 2^32
    only, so that states that differ by a multiple of 2^32 give the same
    number. *)
Theorem seeded_next_unit_interval (state k : Z) :
  (0 <= (SeededRandom.next (num := R) state).1 < 1)%R /\
  (SeededRandom.next (num := R) state).2 = (state + 0x6D2B79F5)%Z /\
  (SeededRandom.next (num := R) (state + 2 ^ 32 * k)).1
  = (SeededRandom.next (num := R) state).1.
Proof.
  split; [|split].
  - apply (rng_next_unit state).
  - unfold SeededRandom.next, SeededRandom.next_state. cbn [snd]. reflexivity.
  - unfold SeededRandom.next. cbn [fst]. f_equal. f_equal.
    unfold SeededRandom.next_bits, SeededRandom.xor32, SeededRandom.or32, SeededRandom.ushr.
    replace (state + 2 ^ 32 * k + 1831565813)%Z
      with ((state + 1831565813) + 2 ^ 32 * k)%Z by ring.
    by rewrite !ToInt32_period, !ToUint32_period.
Qed.

(** * Further properties of shapes and morphing *)

Section PuffCount.
Local Open Scope R_scope.

Lemma loop_bound_IZR (z : Z) : loop_bound (IZR z) = Z.to_nat z.
Proof.
  unfold loop_bound, real_number. f_equal. apply Zceil_eq. lra.
Qed.

Lemma floor_IZR (r : R) : floor r = IZR (Zfloor r).
Proof. done. Qed.

(** The child profile: 4 ring puffs, and interior puffs up to [totalPuffCount]. *)
Lemma child_loop_bounds (n : nat) (rc : R) :
  let p := childProfile n rc in
  let interiorCount := floor (mul (totalPuffCount p) (interiorRatio p)) in
  let ringCount := sub (totalPuffCount p) interiorCount in
  let actualRingCount := min (lit 4) ringCount in
  loop_bound actualRingCount = 4%nat /\
  loop_bound (sub (sub (totalPuffCount p) actualRingCount) (lit 1))
  = (Nat.max 10 (2 * n) - 5)%nat.
Proof.
  cbv zeta. unfold childProfile. cbn [totalPuffCount interiorRatio].
  rewrite of_nat_INR, INR_IZR_INZ, floor_IZR. real_ops.
  set (T := Z.max 10 (2 * Z.of_nat n)).
  assert (HT : Rmax (10 * / 1) (IZR (Z.of_nat n) * (2 * / 1)) = IZR T).
  { unfold T. destruct (Z.max_spec 10 (2 * Z.of_nat n)) as [[Hlt ->]|[Hle ->]].
    - rewrite mult_IZR. apply IZR_lt in Hlt. rewrite mult_IZR in Hlt.
      rewrite Rmax_right; lra.
    - apply IZR_le in Hle. rewrite mult_IZR in Hle. rewrite Rmax_left; lra. }
  rewrite HT.
  assert (HT10 : (10 <= T)%Z) by (unfold T; lia).
  pose proof (IZR_le _ _ HT10) as HT10R.
  set (I := Zfloor (IZR T * (65 * / 100))).
  pose proof (Zfloor_bound (IZR T * (65 * / 100))) as [HI _]. fold I in HI.
  assert (Hring : (4 <= T - I)%Z).
  { apply le_IZR. rewrite minus_IZR.
    assert (Hlt : IZR 3 < IZR T - IZR I) by lra.
    rewrite <- minus_IZR in Hlt. apply lt_IZR in Hlt.
    rewrite <- minus_IZR. apply IZR_le. lia. }
  assert (Hmin : Rmin (4 * / 1) (IZR T - IZR I) = IZR 4).
  { rewrite Rmin_left; [lra|]. rewrite <- minus_IZR. apply IZR_le in Hring. lra. }
  rewrite Hmin. split.
  - by rewrite loop_bound_IZR.
  - replace (IZR T - IZR 4 - 1 * / 1) with (IZR (T - 5)) by (rewrite minus_IZR; lra).
    rewrite loop_bound_IZR. unfold T. lia.
Qed.

(** The focused profile: [ringCount - 1] ring puffs and [interiorCount]
    interior ones, [totalPuffCount - 1] together. *)
Lemma focused_loop_bounds (rx ry rc : R) :
  let p := focusedProfile rx ry rc in
  let interiorCount := floor (mul (totalPuffCount p) (interiorRatio p)) in
  let ringCount := sub (totalPuffCount p) interiorCount in
  (23 <= loop_bound (sub ringCount (lit 1)) + loop_bound interiorCount <= 33)%nat.
Proof.
  cbv zeta. unfold focusedProfile. cbn [totalPuffCount interiorRatio].
  rewrite !floor_IZR. real_ops.
  set (F := Zfloor (PI * rx * ry / (5500 * / 1))).
  set (T := Z.min 34 (Z.max 24 (18 + F))).
  assert (HT : Rmin (34 * / 1) (Rmax (24 * / 1) (18 * / 1 + IZR F)) = IZR T).
  { unfold T.
    assert (Hmax : Rmax (24 * / 1) (18 * / 1 + IZR F) = IZR (Z.max 24 (18 + F))).
    { destruct (Z.max_spec 24 (18 + F)) as [[Hlt ->]|[Hle ->]].
      - apply IZR_lt in Hlt. rewrite plus_IZR in *. rewrite Rmax_right; lra.
      - apply IZR_le in Hle. rewrite plus_IZR in *. rewrite Rmax_left; lra. }
    rewrite Hmax.
    destruct (Z.min_spec 34 (Z.max 24 (18 + F))) as [[Hlt ->]|[Hle ->]].
    - apply IZR_lt in Hlt. rewrite Rmin_left; lra.
    - apply IZR_le in Hle. rewrite Rmin_right; lra. }
  rewrite HT.
  assert (HTr : (24 <= T <= 34)%Z) by (unfold T; lia).
  destruct HTr as [HT24 HT34].
  pose proof (IZR_le _ _ HT24) as HT24R. pose proof (IZR_le _ _ HT34) as HT34R.
  set (I := Zfloor (IZR T * (80 * / 100))).
  pose proof (Zfloor_bound (IZR T * (80 * / 100))) as [HI HI']. fold I in HI, HI'.
  assert (HI0 : (0 <= I)%Z).
  { apply Zfloor_lub. lra. }
  assert (Hring : (5 <= T - I)%Z).
  { assert (Hlt : IZR 4 < IZR (T - I)) by (rewrite minus_IZR; lra).
    apply lt_IZR in Hlt. lia. }
  replace (IZR T - IZR I - 1 * / 1) with (IZR (T - I - 1)) by (rewrite !minus_IZR; lra).
  rewrite !loop_bound_IZR. lia.
Qed.
End PuffCount.


(** X18.  What [update] leaves alone.  The morph block never touches the node,
    the mode, the resting puffs, the target puffs, the coverage radius or the
    hit area; with [morphComplete] set it changes nothing at all; and after a
    tick of a running morph there are exactly as many current puffs as
    target puffs. *)
Theorem updateMorph_frame {num : Type} `{!JsNumber num} (deltaTime : num) (c : Cloud num) :
  let c' := updateMorph deltaTime c in
  cloud_node c' = cloud_node c /\
  isChildOfFocusedNode c' = isChildOfFocusedNode c /\
  basePuffs c' = basePuffs c /\ targetPuffs c' = targetPuffs c /\
  coverageR c' = coverageR c /\ hitArea c' = hitArea c /\
  (if morphComplete c then c' = c
   else length (currentPuffs c') = length (targetPuffs c)).
Proof.
  cbv zeta. unfold updateMorph. destruct (morphComplete c) eqn:Hc.
  - done.
  - cbn [cloud_node isChildOfFocusedNode basePuffs targetPuffs coverageR hitArea currentPuffs].
    split_and!; try done.
    rewrite length_fmap, length_imap. unfold resizePuffs.
    rewrite length_take, length_app, length_replicate. lia.
Qed.

Section ResetFocus.
Local Open Scope R_scope.

Lemma needsMorph_same (p : Puff R) : needsMorph p p = false.
Proof.
  apply needsMorph_false. unfold puffDistance.
  rewrite !Rminus_diag, Rabs_R0. unfold Rmax. repeat destruct (Rle_dec _ _); lra.
Qed.

Lemma interpolate_at_rest deltaTime (c : Cloud R) :
  targetPuffs c = currentPuffs c ->
  imap (interpolatePuff deltaTime c) (currentPuffs c)
  = (fun p => (p, false)) <$> currentPuffs c.
Proof.
  intros Htarget. apply list_eq. intros i.
  rewrite list_lookup_imap, list_lookup_fmap.
  destruct (currentPuffs c !! i) as [p|] eqn:Hp; [|done]. simpl.
  unfold interpolatePuff, targetOf. rewrite Htarget, Hp.
  by rewrite needsMorph_same.
Qed.

Lemma updateMorph_at_rest deltaTime (c : Cloud R) :
  targetPuffs c = currentPuffs c ->
  currentPuffs (updateMorph deltaTime c) = currentPuffs c /\
  morphComplete (updateMorph deltaTime c) = true.
Proof.
  intros Htarget. unfold updateMorph. destruct (morphComplete c) eqn:Hc; [done|].
  cbn [currentPuffs morphComplete]. rewrite Htarget, resizePuffs_same.
  rewrite (interpolate_at_rest deltaTime c Htarget). split.
  - rewrite <- list_fmap_compose. by rewrite list_fmap_id.
  - rewrite bool_decide_eq_false_2 by lia. cbn [negb andb]. rewrite orb_false_r.
    apply forallb_forall. intros q Hq. apply list_elem_of_In in Hq.
    apply list_elem_of_fmap in Hq as (p & -> & _). done.
Qed.
End ResetFocus.

(** X19 (exact arithmetic).  [resetFocus] puts the cloud back to rest at once.
    It sets [requiredCoverageR] to 0, clears the child mode and makes the
    current and the target puffs the resting ones; the next [update] then
    moves no puff and leaves [morphComplete] set, whatever the morph was
    doing before. *)
Theorem resetFocus_rests (deltaTime : R) (c : Cloud R) :
  let reset := (resetFocus c).2 in
  (resetFocus c).1 = 0%R /\
  isChildOfFocusedNode reset = false /\
  currentPuffs reset = basePuffs c /\ targetPuffs reset = basePuffs c /\
  currentPuffs (updateMorph deltaTime reset) = basePuffs c /\
  morphComplete (updateMorph deltaTime reset) = true.
Proof.
  cbv zeta. unfold resetFocus. cbn [fst snd].
  split; [real_ops; lra|]. split_and!; [done|done|done| |].
  - by apply (updateMorph_at_rest deltaTime (mkCloud _ _ _ _ _ _ _ _)).
  - by apply (updateMorph_at_rest deltaTime (mkCloud _ _ _ _ _ _ _ _)).
Qed.

(** X20 (exact arithmetic).  The content layouts stay inside their coverage.
    For measured content bounds that are not negative, the coverage radius
    that [layoutFocusedContent] animates towards is the layout's
    [requiredCoverageR] plus 10, at least 65, and every target puff is inside
    it; the same holds for [layoutChildContent] of a cloud in child mode,
    with at least 55. *)
Theorem content_layout_contained (b_width b_height : R) (c : Cloud R) :
  (0 <= b_width)%R ->
  (0 <= b_height)%R ->
  let focused := layoutFocusedContent b_width b_height c in
  let child := layoutChildContent b_width b_height c in
  (coverageR focused.2 = focused.1 + 10 /\ 65 <= coverageR focused.2 /\
   Forall (inside (coverageR focused.2)) (targetPuffs focused.2))%R /\
  (isChildOfFocusedNode c = true ->
   coverageR child.2 = child.1 + 10 /\ 55 <= coverageR child.2 /\
   Forall (inside (coverageR child.2)) (targetPuffs child.2))%R.
Proof.
  intros Hw Hh. cbv zeta.
  unfold layoutFocusedContent, layoutChildContent, PADDING_X, PADDING_Y. cbn [fst snd].
  assert (Hfocused :
    (coverageR (computeMorphPuffs (b_width + lit 40 * lit 2)%num
                                  (b_height + lit 32 * lit 2)%num c)
     = Rmax ((b_width + 80) / 2) ((b_height + 64) / 2) + 25)%R).
  { rewrite coverageR_computeMorphPuffs. real_ops. f_equal. f_equal; field. }
  assert (Hchild :
    (coverageR (computeMorphPuffs (b_width + lit 30 * lit 2)%num
                                  (b_height + lit 25 * lit 2)%num c)
     = Rmax ((b_width + 60) / 2) ((b_height + 50) / 2) + 25)%R).
  { rewrite coverageR_computeMorphPuffs. real_ops. f_equal. f_equal; field. }
  split.
  - assert (Hbig : (65 <= Rmax ((b_width + 80) / 2) ((b_height + 64) / 2) + 25)%R).
    { pose proof (Rmax_l ((b_width + 80) / 2) ((b_height + 64) / 2)). lra. }
    split_and!.
    + rewrite Hfocused. real_ops. unfold Rmax. repeat destruct (Rle_dec _ _); lra.
    + by rewrite Hfocused.
    + apply computeMorphPuffs_inside. rewrite Hfocused. destruct (isChildOfFocusedNode c); lra.
  - intros Hmode.
    assert (Hbig : (55 <= Rmax ((b_width + 60) / 2) ((b_height + 50) / 2) + 25)%R).
    { pose proof (Rmax_l ((b_width + 60) / 2) ((b_height + 50) / 2)). lra. }
    split_and!.
    + rewrite Hchild. real_ops. unfold Rmax. repeat destruct (Rle_dec _ _); lra.
    + by rewrite Hchild.
    + apply computeMorphPuffs_inside. rewrite Hchild, Hmode. lra.
Qed.

Lemma content_layout_contained_witness :
  (0 <= 120)%R /\ (0 <= 40)%R /\
  let focused := layoutFocusedContent 120%R 40%R example_childCloud in
  let child := layoutChildContent 120%R 40%R example_childCloud in
  (coverageR focused.2 = focused.1 + 10 /\ 65 <= coverageR focused.2 /\
   Forall (inside (coverageR focused.2)) (targetPuffs focused.2))%R /\
  (isChildOfFocusedNode example_childCloud = true ->
   coverageR child.2 = child.1 + 10 /\ 55 <= coverageR child.2 /\
   Forall (inside (coverageR child.2)) (targetPuffs child.2))%R.
Proof.
  split; [lra|]. split; [lra|].
  apply (content_layout_contained 120%R 40%R example_childCloud); lra.
Defined.

(** * Further properties of the focus layout *)

Section FocusLayoutShape.
Context {num : Type} `{!JsNumber num} `{!JsTrig num}.
Implicit Types (nodes : list (CloudNode num)) (n : CloudNode num).

Lemma placeChild_lookup p orbitRadius childCount nodes i c k n :
  nodes !! k = Some n ->
  exists n', placeChild p orbitRadius childCount nodes i c !! k = Some n' /\
             same_node n n' /\ (k <> c -> n' = n).
Proof.
  intros Hk. unfold placeChild. destruct (nodes !! p) as [parentNode|].
  - destruct (decide (k = c)) as [->|Hne].
    + eexists. rewrite list_lookup_alter_eq, Hk. simpl. split; [done|]. by split.
    + exists n. rewrite list_lookup_alter_ne by done. by split.
  - exists n. by split.
Qed.

Lemma placeChild_length p orbitRadius childCount nodes i c :
  length (placeChild p orbitRadius childCount nodes i c) = length nodes.
Proof.
  unfold placeChild. destruct (nodes !! p); [|done]. by rewrite length_alter.
Qed.

Lemma placeChildren_pairs_lookup p orbitRadius childCount (ics : list (nat * nat))
    nodes k n :
  nodes !! k = Some n ->
  exists n',
    foldl (fun ns ic => placeChild p orbitRadius childCount ns ic.1 ic.2) nodes ics !! k
    = Some n' /\
    same_node n n' /\ (k ∉ ics.*2 -> n' = n).
Proof.
  revert nodes n. induction ics as [|[i c] ics IH]; intros nodes n Hk; cbn [foldl].
  - exists n. by split.
  - destruct (placeChild_lookup p orbitRadius childCount nodes i c k n Hk)
      as (n1 & Hk1 & Hsame1 & Hfix1).
    destruct (IH _ _ Hk1) as (n2 & Hk2 & Hsame2 & Hfix2).
    exists n2. split; [done|]. split.
    + destruct Hsame1 as (?&?&?&?), Hsame2 as (?&?&?&?). unfold same_node.
      split_and!; congruence.
    + rewrite fmap_cons. intros Hnotin. apply not_elem_of_cons in Hnotin as [Hc Hrest].
      rewrite Hfix2 by done. by apply Hfix1.
Qed.

Lemma placeChildren_pairs_length p orbitRadius childCount (ics : list (nat * nat)) nodes :
  length (foldl (fun ns ic => placeChild p orbitRadius childCount ns ic.1 ic.2) nodes ics)
  = length nodes.
Proof.
  revert nodes. induction ics as [|[i c] ics IH]; intros nodes; cbn [foldl]; [done|].
  by rewrite IH, placeChild_length.
Qed.

Lemma imap_pair_snd {A} (l : list A) : (imap pair l).*2 = l.
Proof.
  apply list_eq. intros k. rewrite list_lookup_fmap, list_lookup_imap.
  by destruct (l !! k).
Qed.

Lemma placeChildren_lookup p orbitRadius childIndices nodes k n :
  nodes !! k = Some n ->
  exists n', placeChildren p orbitRadius childIndices nodes !! k = Some n' /\
             same_node n n' /\ (k ∉ childIndices -> n' = n).
Proof.
  intros Hk. unfold placeChildren.
  destruct (placeChildren_pairs_lookup p orbitRadius (length childIndices)
              (imap pair childIndices) nodes k n Hk) as (n' & Hk' & Hsame & Hfix).
  exists n'. split; [done|]. split; [done|]. by rewrite imap_pair_snd in Hfix.
Qed.

Lemma placeChildren_length p orbitRadius childIndices nodes :
  length (placeChildren p orbitRadius childIndices nodes) = length nodes.
Proof. apply placeChildren_pairs_length. Qed.

Lemma omap_cons_Some {A B} (f : A -> option B) (a : A) (r : list A) (y : B) :
  f a = Some y -> omap f (a :: r) = y :: omap f r.
Proof. intros Hfa. simpl. by rewrite Hfa. Qed.

Lemma omap_cons_None {A B} (f : A -> option B) (a : A) (r : list A) :
  f a = None -> omap f (a :: r) = omap f r.
Proof. intros Hfa. simpl. by rewrite Hfa. Qed.

(** Reading the nodes at the child indices gives the children, in order. *)
Lemma children_from focusedId (pre l : list (CloudNode num)) :
  omap (fun c => (pre ++ l) !! c)
       (filter (fun kn : nat * CloudNode num => node_parentId kn.2 = Some focusedId)
               (imap (fun k => pair (length pre + k)) l)).*1
  = filter (fun n => node_parentId n = Some focusedId) l.
Proof.
  revert pre. induction l as [|x l IH]; intros pre; [done|].
  cbn [imap]. rewrite !filter_cons. cbn [snd].
  assert (Hshift : imap ((fun k => pair (length pre + k)) ∘ S) l
                   = imap (fun k => pair (length (pre ++ [x]) + k)) l).
  { apply imap_ext. intros k y _. simpl. rewrite length_app. simpl. f_equal. lia. }
  specialize (IH (pre ++ [x])). rewrite <- (assoc_L (++)) in IH. cbn [app] in IH.
  destruct (decide (node_parentId x = Some focusedId)).
  - rewrite fmap_cons. cbn [fst]. rewrite Nat.add_0_r.
    rewrite (omap_cons_Some _ _ _ x).
    + f_equal. rewrite Hshift. apply IH.
    + rewrite lookup_app_r by lia. by rewrite Nat.sub_diag.
  - rewrite Hshift. apply IH.
Qed.

Lemma children_by_index focusedId nodes :
  omap (fun c => nodes !! c) (childIndicesOf focusedId nodes)
  = filter (fun n => node_parentId n = Some focusedId) nodes.
Proof. unfold childIndicesOf. apply (children_from focusedId [] nodes). Qed.

Lemma omap_same_ids (placed nodes : list (CloudNode num)) (cs : list nat) :
  (forall c child, nodes !! c = Some child ->
     exists child1, placed !! c = Some child1 /\ node_id child1 = node_id child) ->
  length placed = length nodes ->
  node_id <$> omap (fun c => placed !! c) cs = node_id <$> omap (fun c => nodes !! c) cs.
Proof.
  intros Hsame Hlen. induction cs as [|c cs IH]; [done|].
  destruct (nodes !! c) as [child|] eqn:Hc.
  - destruct (Hsame c child Hc) as (child1 & Hc1 & Hid).
    rewrite (omap_cons_Some (fun c => placed !! c) c cs child1 Hc1).
    rewrite (omap_cons_Some (fun c => nodes !! c) c cs child Hc).
    by rewrite !fmap_cons, Hid, IH.
  - assert (Hnone : placed !! c = None).
    { apply lookup_ge_None. rewrite Hlen. by apply lookup_ge_None. }
    rewrite (omap_cons_None (fun c => placed !! c) c cs Hnone).
    by rewrite (omap_cons_None (fun c => nodes !! c) c cs Hc).
Qed.

(** The nodes after [refreshFocusLayout]: the input, or the input with the
    children placed. *)
Lemma refreshFocusLayout_nodes clouds focusedNode nodes layout :
  (refreshFocusLayout clouds focusedNode (nodes, layout)).1 = nodes \/
  exists focused p orbitRadius,
    focusedNode = Some focused /\
    (refreshFocusLayout clouds focusedNode (nodes, layout)).1
    = placeChildren p orbitRadius (childIndicesOf (node_id focused) nodes) nodes.
Proof.
  unfold refreshFocusLayout. destruct focusedNode as [focused|]; [|by left].
  destruct (parentIndexOf (node_id focused) nodes) as [p|]; [|by left].
  destruct (nodes !! p) as [parentNode|]; [|by left].
  case_bool_decide; [by left|].
  destruct (clouds !! node_id parentNode) as [requiredCoverageR|]; [|by left].
  right. eexists focused, p, _. split; [done|]. reflexivity.
Qed.
End FocusLayoutShape.

(** X21.  What [refreshFocusLayout] leaves alone.  It returns as many nodes as
    it was given, each with its id, kind, radius and parent; and a node that
    is not a child of the focused node comes back unchanged, the focused node
    included unless it names itself as parent. *)
Theorem refreshFocusLayout_frame {num : Type} `{!JsNumber num} `{!JsTrig num}
    (clouds : gmap string num) (focusedNode : option (CloudNode num))
    (nodes : list (CloudNode num)) (layout : gmap string (num * num)) :
  let after := (refreshFocusLayout clouds focusedNode (nodes, layout)).1 in
  length after = length nodes /\
  forall k n,
    nodes !! k = Some n ->
    exists n',
      after !! k = Some n' /\ same_node n n' /\
      ((forall focused, focusedNode = Some focused ->
                        node_parentId n <> Some (node_id focused)) -> n' = n).
Proof.
  cbv zeta.
  destruct (refreshFocusLayout_nodes clouds focusedNode nodes layout)
    as [->|(focused & p & orbitRadius & -> & ->)].
  - split; [done|]. intros k n Hk. exists n. by split.
  - split; [apply placeChildren_length|]. intros k n Hk.
    destruct (placeChildren_lookup p orbitRadius (childIndicesOf (node_id focused) nodes)
                nodes k n Hk) as (n' & Hk' & Hsame & Hfix).
    exists n'. split; [done|]. split; [done|]. intros Hnotchild. apply Hfix.
    intros Hin. apply childIndicesOf_spec in Hin as (n0 & Hn0 & Hparent).
    rewrite Hk in Hn0. injection Hn0 as <-. by apply (Hnotchild focused).
Qed.

Section LayoutMap.
Context {num : Type} `{!JsNumber num}.
Implicit Types (nodes : list (CloudNode num)) (layout : gmap string (num * num)).

(** Every entry of the map is the position of a node with that id. *)
Lemma layout_fold_sound nodes (cs : list nat) layout id pos :
  (forall id pos, layout !! id = Some pos ->
     exists n, n ∈ nodes /\ node_id n = id /\ positionOf n = pos) ->
  foldl (fun m c => match nodes !! c with
                    | Some child => <[node_id child := positionOf child]> m
                    | None => m
                    end) layout cs !! id = Some pos ->
  exists n, n ∈ nodes /\ node_id n = id /\ positionOf n = pos.
Proof.
  revert layout. induction cs as [|c cs IH]; intros layout Hlayout; cbn [foldl].
  - apply Hlayout.
  - apply IH. intros id' pos'. destruct (nodes !! c) as [child|] eqn:Hc; [|apply Hlayout].
    destruct (decide (id' = node_id child)) as [->|Hne].
    + rewrite lookup_insert_eq. intros [= <-]. exists child.
      split; [by eapply list_elem_of_lookup_2|done].
    + rewrite lookup_insert_ne by done. apply Hlayout.
Qed.

Lemma layout_fold_dom nodes (cs : list nat) layout :
  dom (foldl (fun m c => match nodes !! c with
                         | Some child => <[node_id child := positionOf child]> m
                         | None => m
                         end) layout cs)
  = dom layout ∪ list_to_set (node_id <$> omap (fun c => nodes !! c) cs).
Proof.
  revert layout. induction cs as [|c cs IH]; intros layout; simpl.
  - by rewrite (right_id_L ∅ (∪)).
  - rewrite IH. destruct (nodes !! c) as [child|]; [|done].
    rewrite dom_insert_L, fmap_cons, list_to_set_cons.
    by rewrite (comm_L (∪) {[node_id child]} (dom layout)), <- (assoc_L (∪)).
Qed.
End LayoutMap.

(** The map after [refreshFocusLayout], when it is rebuilt. *)
Lemma refreshFocusLayout_layout {num : Type} `{!JsNumber num} `{!JsTrig num}
    (clouds : gmap string num) (focused parentNode : CloudNode num) (p : nat)
    (nodes : list (CloudNode num)) (layout : gmap string (num * num)) :
  list_find (fun n => node_id n = node_id focused) nodes = Some (p, parentNode) ->
  childIndicesOf (node_id focused) nodes = [] \/ is_Some (clouds !! node_id parentNode) ->
  let after := refreshFocusLayout clouds (Some focused) (nodes, layout) in
  dom after.2
  = {[ node_id focused ]}
    ∪ list_to_set (node_id <$> filter (fun n => node_parentId n = Some (node_id focused)) nodes) /\
  forall id pos,
    after.2 !! id = Some pos ->
    exists n, n ∈ after.1 /\ node_id n = id /\ positionOf n = pos.
Proof.
  intros Hfind Hbranch. cbv zeta.
  pose proof Hfind as Hfind'. apply list_find_Some in Hfind' as (Hp & Hid & _).
  assert (Hchildren :
    node_id <$> omap (fun c => nodes !! c) (childIndicesOf (node_id focused) nodes)
    = node_id <$> filter (fun n => node_parentId n = Some (node_id focused)) nodes)
    by (by rewrite children_by_index).
  unfold refreshFocusLayout, parentIndexOf. rewrite Hfind.
  change (fst <$> Some (p, parentNode)) with (Some p). cbv iota beta. rewrite Hp.
  case_bool_decide as Hnone.
  - apply length_zero_iff_nil in Hnone. cbn [fst snd].
    rewrite Hnone in Hchildren. simpl in Hchildren.
    rewrite <- Hchildren, list_to_set_nil, (right_id_L ∅ (∪)), dom_singleton_L, Hid.
    split; [done|]. intros id pos Hlookup.
    apply lookup_singleton_Some in Hlookup as [<- <-].
    exists parentNode. split; [by eapply list_elem_of_lookup_2|done].
  - destruct Hbranch as [Hnil|[requiredCoverageR Hcloud]].
    { rewrite Hnil in Hnone. done. }
    rewrite Hcloud. cbn [fst snd].
    set (placed := placeChildren _ _ _ _).
    destruct (placeChildren_lookup p
                (orbitRadiusOf (or_else requiredCoverageR (node_radius parentNode))
                   (maxChildCoverage clouds
                      (omap (fun c => nodes !! c) (childIndicesOf (node_id focused) nodes)))
                   (length (childIndicesOf (node_id focused) nodes)))
                (childIndicesOf (node_id focused) nodes) nodes p parentNode Hp)
      as (parent1 & Hparent1 & (Hid1 & _) & _).
    fold placed in Hparent1. rewrite Hparent1. split.
    + rewrite layout_fold_dom, dom_singleton_L, Hid1, Hid. f_equal.
      rewrite <- Hchildren. f_equal.
      apply (omap_same_ids placed nodes).
      * intros c child Hc.
        destruct (placeChildren_lookup p
                    (orbitRadiusOf (or_else requiredCoverageR (node_radius parentNode))
                       (maxChildCoverage clouds
                          (omap (fun c => nodes !! c)
                                (childIndicesOf (node_id focused) nodes)))
                       (length (childIndicesOf (node_id focused) nodes)))
                    (childIndicesOf (node_id focused) nodes) nodes c child Hc)
          as (child1 & Hchild1 & (Hidc & _) & _).
        exists child1. by split.
      * apply placeChildren_length.
    + intros id pos. apply layout_fold_sound. intros id' pos' Hlookup.
      apply lookup_singleton_Some in Hlookup as [<- <-].
      exists parent1. split; [by eapply list_elem_of_lookup_2|done].
Qed.

(** X22.  The Focus Layout Map that [refreshFocusLayout] writes.  When the
    focused node is found among the nodes and either has no children or has
    a cloud, the map is rebuilt: its keys are the id of the focused node and
    the ids of its children, and every entry is the position at which a node
    with that id now sits. *)
Theorem refreshFocusLayout_map {num : Type} `{!JsNumber num} `{!JsTrig num}
    (clouds : gmap string num) (focused parentNode : CloudNode num) (p : nat)
    (nodes : list (CloudNode num)) (layout : gmap string (num * num)) :
  list_find (fun n => node_id n = node_id focused) nodes = Some (p, parentNode) ->
  childIndicesOf (node_id focused) nodes = [] \/ is_Some (clouds !! node_id parentNode) ->
  let after := refreshFocusLayout clouds (Some focused) (nodes, layout) in
  dom after.2
  = {[ node_id focused ]}
    ∪ list_to_set (node_id <$> filter (fun n => node_parentId n = Some (node_id focused)) nodes) /\
  forall id pos,
    after.2 !! id = Some pos ->
    exists n, n ∈ after.1 /\ node_id n = id /\ positionOf n = pos.
Proof. apply refreshFocusLayout_layout. Qed.

Lemma refreshFocusLayout_map_witness :
  let focused := mkCloudNode "g" milestone 100%R 100%R 1%R 0%R 80%R None in
  list_find (fun n => node_id n = node_id focused) example_nodes_R = Some (0%nat, focused) /\
  (childIndicesOf (node_id focused) example_nodes_R = [] \/
   is_Some (example_clouds !! node_id focused)) /\
  let after := refreshFocusLayout example_clouds (Some focused) (example_nodes_R, ∅) in
  dom after.2
  = {[ node_id focused ]}
    ∪ list_to_set (node_id <$> filter (fun n => node_parentId n = Some (node_id focused))
                                       example_nodes_R) /\
  forall id pos,
    after.2 !! id = Some pos ->
    exists n, n ∈ after.1 /\ node_id n = id /\ positionOf n = pos.
Proof.
  intros focused.
  assert (Hfind : list_find (fun n => node_id n = node_id focused) example_nodes_R
                  = Some (0%nat, focused)) by reflexivity.
  assert (Hcloud : childIndicesOf (node_id focused) example_nodes_R = [] \/
                   is_Some (example_clouds !! node_id focused)).
  { right. exists 120%R. reflexivity. }
  split; [exact Hfind|]. split; [exact Hcloud|].
  exact (refreshFocusLayout_map example_clouds focused focused 0 example_nodes_R ∅
           Hfind Hcloud).
Defined.

(** * The ticker *)

Section TickerFacts.
Context {num : Type} `{!JsNumber num}.
Implicit Types (nodes : list (CloudNode num)) (n : CloudNode num).

Lemma size_pos_of_lookup (layout : gmap string (num * num)) id pos :
  layout !! id = Some pos -> 0 < size layout.
Proof.
  intros Hlookup. destruct (decide (size layout = 0)) as [Hzero|]; [|lia].
  apply map_size_empty_iff in Hzero. rewrite Hzero in Hlookup.
  by rewrite lookup_empty in Hlookup.
Qed.
End TickerFacts.

(** A ticker step on a node that has a layout entry. *)
Lemma tickPhysics_laid_out {num : Type} `{!JsNumber num}
    (dragState : DragState num) (random : nat -> num) (focused : CloudNode num)
    (layout : gmap string (num * num)) (draggedCloud : option string)
    (nodes : list (CloudNode num)) (k : nat) (n : CloudNode num) (pos : num * num) :
  nodes !! k = Some n ->
  layout !! node_id n = Some pos ->
  draggedCloud <> Some (node_id n) ->
  is_dragged dragState n = false ->
  tickPhysics dragState random (Some focused) layout draggedCloud nodes !! k
  = Some (set_velocity (lit 0) (lit 0) (set_position pos.1 pos.2 n)).
Proof.
  intros Hk Hlayout Hcloud Hdrag. unfold tickPhysics, enforceFocusLayout.
  pose proof (size_pos_of_lookup layout _ _ Hlayout) as Hsize.
  rewrite (bool_decide_eq_true_2 _ Hsize).
  assert (Henforced : (enforceNode layout draggedCloud <$> nodes) !! k
                      = Some (set_velocity (lit 0) (lit 0) (set_position pos.1 pos.2 n))).
  { rewrite list_lookup_fmap, Hk. cbn [fmap option_fmap option_map].
    unfold enforceNode. rewrite Hlayout. by rewrite (bool_decide_eq_false_2 _ Hcloud). }
  rewrite bool_decide_eq_true_2
    by (rewrite length_fmap; apply lookup_lt_Some in Hk; lia).
  rewrite (applyForces_locked dragState random _ _ _ _ k _ Henforced).
  - done.
  - exact Hdrag.
  - unfold locked, in_focused_subtree. cbn [node_id set_velocity set_position].
    rewrite bool_decide_eq_true_2; [done|]. apply elem_of_dom. by exists pos.
Qed.

(** X23.  The layout wins over the simulation.  While a node is focused, a
    ticker step leaves every node that has an entry in the Focus Layout Map,
    and is neither the dragged cloud nor the node of the drag state, exactly
    at its layout position with velocity 0: the ticker writes the position
    back, and [applyForces], given the keys of the map, does not move it. *)
Theorem tick_enforces_layout {num : Type} `{!JsNumber num}
    (dragState : DragState num) (random : nat -> num) (focused : CloudNode num)
    (layout : gmap string (num * num)) (draggedCloud : option string)
    (nodes : list (CloudNode num)) (k : nat) (n : CloudNode num) (pos : num * num) :
  nodes !! k = Some n ->
  layout !! node_id n = Some pos ->
  draggedCloud <> Some (node_id n) ->
  is_dragged dragState n = false ->
  tickPhysics dragState random (Some focused) layout draggedCloud nodes !! k
  = Some (set_velocity (lit 0) (lit 0) (set_position pos.1 pos.2 n)).
Proof. apply tickPhysics_laid_out. Qed.

Lemma tick_enforces_layout_witness :
  let a := mkCloudNode "a" task (lit 0) (lit 0) (lit 1) (lit 0) (lit 45) (Some "g") in
  let g := mkCloudNode "g" milestone (lit 100) (lit 100) (lit 1) (lit 0) (lit 80) None in
  let layout : gmap string (float * float) := {[ "a" := (lit 100, lit 5) ]} in
  example_nodes !! 1%nat = Some a /\
  layout !! node_id a = Some (lit 100, lit 5) /\
  (None : option string) <> Some (node_id a) /\
  is_dragged initialDragState a = false /\
  tickPhysics initialDragState example_random (Some g) layout None example_nodes !! 1%nat
  = Some (set_velocity (lit 0) (lit 0) (set_position (lit 100) (lit 5) a)).
Proof.
  intros a g layout.
  split; [reflexivity|]. split; [reflexivity|]. split; [discriminate|]. split; [reflexivity|].
  apply (tick_enforces_layout initialDragState example_random g layout None example_nodes 1 a
           (lit 100, lit 5)); [reflexivity|reflexivity|discriminate|reflexivity].
Defined.

Section LayoutStable.
Context {num : Type} `{!JsNumber num} `{!JsTrig num}.

Lemma refreshFocusLayout_ids clouds focusedNode (nodes : list (CloudNode num))
    (layout : gmap string (num * num)) :
  node_id <$> (refreshFocusLayout clouds focusedNode (nodes, layout)).1 = node_id <$> nodes.
Proof.
  destruct (refreshFocusLayout_nodes clouds focusedNode nodes layout)
    as [->|(focused & p & orbitRadius & -> & ->)]; [done|].
  apply list_eq. intros k. rewrite !list_lookup_fmap.
  destruct (nodes !! k) as [n|] eqn:Hk.
  - destruct (placeChildren_lookup p orbitRadius (childIndicesOf (node_id focused) nodes)
                nodes k n Hk) as (n' & -> & (Hid & _) & _).
    simpl. by rewrite Hid.
  - assert (Hnone : placeChildren p orbitRadius (childIndicesOf (node_id focused) nodes)
                      nodes !! k = None).
    { apply lookup_ge_None. rewrite placeChildren_length. by apply lookup_ge_None. }
    by rewrite Hnone.
Qed.
End LayoutStable.

(** X24.  The focus layout is stable.  When node ids are pairwise different and
    [refreshFocusLayout] has rebuilt the Focus Layout Map, a ticker step
    leaves every node with an entry in the map exactly where the layout put
    it, with velocity 0, unless the node is being dragged: layout and
    simulation never fight over a node. *)
Theorem focus_layout_is_stable {num : Type} `{!JsNumber num} `{!JsTrig num}
    (clouds : gmap string num) (focused parentNode : CloudNode num) (p : nat)
    (nodes : list (CloudNode num)) (layout : gmap string (num * num))
    (dragState : DragState num) (random : nat -> num) (draggedCloud : option string)
    (k : nat) (n : CloudNode num) :
  list_find (fun n => node_id n = node_id focused) nodes = Some (p, parentNode) ->
  childIndicesOf (node_id focused) nodes = [] \/ is_Some (clouds !! node_id parentNode) ->
  NoDup (node_id <$> nodes) ->
  let after := refreshFocusLayout clouds (Some focused) (nodes, layout) in
  after.1 !! k = Some n ->
  node_id n ∈ dom after.2 ->
  draggedCloud <> Some (node_id n) ->
  is_dragged dragState n = false ->
  tickPhysics dragState random (Some focused) after.2 draggedCloud after.1 !! k
  = Some (set_velocity (lit 0) (lit 0) n).
Proof.
  intros Hfind Hbranch Hnd after Hk Hdom Hcloud Hdrag.
  destruct (refreshFocusLayout_layout clouds focused parentNode p nodes layout Hfind Hbranch)
    as [_ Hsound].
  fold after in Hsound.
  apply elem_of_dom in Hdom as [pos Hpos].
  destruct (Hsound _ _ Hpos) as (n' & Hn' & Hid & Hposition).
  assert (Hsame : n' = n).
  { apply list_elem_of_lookup in Hn' as [k' Hk'].
    assert (k' = k) as ->.
    { eapply NoDup_lookup.
      - rewrite <- (refreshFocusLayout_ids clouds (Some focused) nodes layout) in Hnd.
        exact Hnd.
      - fold after. rewrite list_lookup_fmap, Hk'. simpl. by rewrite Hid.
      - fold after. by rewrite list_lookup_fmap, Hk. }
    congruence. }
  subst n'.
  rewrite (tickPhysics_laid_out dragState random focused after.2 draggedCloud after.1 k n pos
             Hk Hpos Hcloud Hdrag).
  rewrite <- Hposition. by destruct n.
Qed.

Lemma focus_layout_is_stable_witness :
  let focused := mkCloudNode "g" milestone 100%R 100%R 1%R 0%R 80%R None in
  list_find (fun n => node_id n = node_id focused) example_nodes_R = Some (0%nat, focused) /\
  (childIndicesOf (node_id focused) example_nodes_R = [] \/
   is_Some (example_clouds !! node_id focused)) /\
  NoDup (node_id <$> example_nodes_R) /\
  let after := refreshFocusLayout example_clouds (Some focused) (example_nodes_R, ∅) in
  after.1 !! 0%nat = Some focused /\
  node_id focused ∈ dom after.2 /\
  (None : option string) <> Some (node_id focused) /\
  is_dragged initialDragState focused = false /\
  tickPhysics initialDragState example_random_R (Some focused) after.2 None after.1 !! 0%nat
  = Some (set_velocity (lit 0) (lit 0) focused).
Proof.
  intros focused.
  assert (Hfind : list_find (fun n => node_id n = node_id focused) example_nodes_R
                  = Some (0%nat, focused)) by reflexivity.
  assert (Hcloud : childIndicesOf (node_id focused) example_nodes_R = [] \/
                   is_Some (example_clouds !! node_id focused)).
  { right. exists 120%R. reflexivity. }
  assert (Hnd : NoDup (node_id <$> example_nodes_R)).
  { apply (bool_decide_unpack (NoDup (node_id <$> example_nodes_R))). reflexivity. }
  assert (Hk : (refreshFocusLayout example_clouds (Some focused) (example_nodes_R, ∅)).1
               !! 0%nat = Some focused) by reflexivity.
  assert (Hdom : node_id focused
                 ∈ dom (refreshFocusLayout example_clouds (Some focused)
                                           (example_nodes_R, ∅)).2).
  { destruct (refreshFocusLayout_layout example_clouds focused focused 0 example_nodes_R ∅
                Hfind Hcloud) as [-> _].
    apply elem_of_union_l. by apply elem_of_singleton_2. }
  assert (Hnotdragged : (None : option string) <> Some (node_id focused)) by discriminate.
  split; [exact Hfind|]. split; [exact Hcloud|]. split; [exact Hnd|].
  split; [exact Hk|]. split; [exact Hdom|]. split; [exact Hnotdragged|].
  split; [reflexivity|].
  exact (focus_layout_is_stable example_clouds focused focused 0 example_nodes_R ∅
           initialDragState example_random_R None 0 focused
           Hfind Hcloud Hnd Hk Hdom Hnotdragged eq_refl).
Defined.

(** * The resting shape, and the room the orbit leaves *)

Section RestingShape.
Local Open Scope R_scope.

Lemma basePuff_inside (r : R) (bumpCount i : nat) (s : Z) :
  0 <= r -> inside (1.1 * r) (basePuffBody r bumpCount i s).1.
Proof.
  intros Hr. unfold basePuffBody.
  pose proof (rng_next_unit s) as H1. destruct (rng_next s) as [u1 s1].
  pose proof (rng_next_unit s1) as H2. destruct (rng_next s1) as [u2 s2].
  pose proof (rng_next_unit s2) as H3. destruct (rng_next s2) as [u3 s3].
  cbn [fst] in *. unfold inside.
  rewrite outerEdge_polar; real_ops; nra.
Qed.
End RestingShape.

(** X25 (exact arithmetic).  The resting shape of a cloud.  A new cloud of a
    node with radius r >= 0 has one centre puff and 7, 6 or 5 edge puffs by
    kind; every puff's outer edge is within 1.1 r of the centre; and the
    cloud starts settled on it, so that [update] changes nothing until a
    layout sets new targets. *)
Theorem newCloud_resting_shape (node : CloudNode R) (deltaTime : R) :
  (0 <= node_radius node)%R ->
  length (basePuffs (newCloud node)) = S (bumpCountOf (node_type node)) /\
  Forall (inside (1.1 * node_radius node)) (basePuffs (newCloud node)) /\
  currentPuffs (newCloud node) = basePuffs (newCloud node) /\
  updateMorph deltaTime (newCloud node) = newCloud node.
Proof.
  intros Hr. split; [apply newCloud_basePuffs_length|].
  unfold newCloud. destruct (rng_next _) as [u s1].
  cbn [basePuffs currentPuffs]. split_and!; [|done|done].
  constructor.
  - unfold inside. rewrite outerEdge_centre. real_ops. lra.
  - apply for_puffs_Forall. intros j t. by apply basePuff_inside.
Qed.

Lemma newCloud_resting_shape_witness :
  let node := mkCloudNode "a" task 0%R 0%R 0%R 0%R 45%R (Some "g") in
  (0 <= node_radius node)%R /\
  length (basePuffs (newCloud node)) = S (bumpCountOf (node_type node)) /\
  Forall (inside (1.1 * node_radius node)) (basePuffs (newCloud node)) /\
  currentPuffs (newCloud node) = basePuffs (newCloud node) /\
  updateMorph 1%R (newCloud node) = newCloud node.
Proof.
  intros node.
  assert (Hr : (0 <= node_radius node)%R) by (simpl; lra).
  split; [exact Hr|]. exact (newCloud_resting_shape node 1%R Hr).
Defined.

Section OrbitRoom.
Local Open Scope R_scope.

Lemma maxChildCoverage_fold (clouds : gmap string R) (children : list (CloudNode R)) (m : R) :
  foldl (fun maxChildR child =>
           match clouds !! node_id child with
           | Some requiredCoverageR =>
               max maxChildR (or_else requiredCoverageR (add (node_radius child) (lit 40)))
           | None => max maxChildR (add (node_radius child) (lit 40))
           end) m children
  = foldl (fun maxChildR child => Rmax maxChildR (childCoverageOf clouds child)) m children.
Proof.
  revert m. induction children as [|child children IH]; intros m; [done|].
  cbn [foldl]. rewrite IH. f_equal. unfold childCoverageOf.
  by destruct (clouds !! node_id child).
Qed.

Lemma foldl_Rmax_le (f : CloudNode R -> R) (children : list (CloudNode R)) (m : R) :
  m <= foldl (fun acc child => Rmax acc (f child)) m children /\
  Forall (fun child => f child <= foldl (fun acc child => Rmax acc (f child)) m children)
         children.
Proof.
  revert m. induction children as [|child children IH]; intros m; cbn [foldl].
  - split; [lra|constructor].
  - destruct (IH (Rmax m (f child))) as [Hm Hall].
    pose proof (Rmax_l m (f child)). pose proof (Rmax_r m (f child)).
    split; [lra|]. constructor; [lra|done].
Qed.

Lemma maxChildCoverage_covers (clouds : gmap string R) (children : list (CloudNode R)) child :
  child ∈ children -> childCoverageOf clouds child <= maxChildCoverage clouds children.
Proof.
  intros Hin. unfold maxChildCoverage. rewrite maxChildCoverage_fold.
  destruct (foldl_Rmax_le (childCoverageOf clouds) children (lit 0)) as [_ Hall].
  rewrite Forall_forall in Hall. by apply Hall.
Qed.
End OrbitRoom.

(** X26 (exact arithmetic).  The orbit leaves room for every child.  The orbit
    radius computed from the largest child coverage is at least the
    coverage of the focused cloud, plus the gap of 15, plus the coverage of
    any one child: placed on the orbit, no child's coverage circle reaches
    into that of the focused cloud. *)
Theorem orbit_clears_focused_cloud (clouds : gmap string R) (parentCoverageR : R)
    (children : list (CloudNode R)) (child : CloudNode R) :
  child ∈ children ->
  (parentCoverageR + 15 + childCoverageOf clouds child
   <= orbitRadiusOf parentCoverageR (maxChildCoverage clouds children) (length children))%R.
Proof.
  intros Hin. pose proof (maxChildCoverage_covers clouds children child Hin) as Hmax.
  unfold orbitRadiusOf.
  set (byArc := div _ _).
  change (max ?a byArc) with (Rmax a byArc).
  etransitivity; [|apply Rmax_l]. real_ops. lra.
Qed.

Lemma orbit_clears_focused_cloud_witness :
  let a := mkCloudNode "a" task 0%R 0%R 1%R 0%R 45%R (Some "g") in
  let b := mkCloudNode "b" task 10%R 0%R 3%R 4%R 45%R (Some "g") in
  a ∈ [a; b] /\
  (120 + 15 + childCoverageOf example_clouds a
   <= orbitRadiusOf 120 (maxChildCoverage example_clouds [a; b]) (length [a; b]))%R.
Proof.
  intros a b.
  assert (Hin : a ∈ [a; b]) by (apply elem_of_cons; by left).
  split; [exact Hin|].
  exact (orbit_clears_focused_cloud example_clouds 120%R [a; b] a Hin).
Defined.

(** * The zoom of focus mode *)

Section FocusZoomFacts.
Local Open Scope R_scope.

Lemma focusContentRadius_fold (clouds : gmap string R) (f : CloudNode R) (focusX focusY : R)
    (entries : list (string * (R * R))) (start : R) :
  let result :=
    foldl (fun contentRadius entry =>
             if bool_decide (entry.1 <> node_id f)
             then max contentRadius (entryReach clouds focusX focusY entry.1 entry.2)
             else contentRadius) start entries in
  start <= result /\
  forall id pos, (id, pos) ∈ entries -> id <> node_id f ->
                 entryReach clouds focusX focusY id pos <= result.
Proof.
  revert start. induction entries as [|[id0 pos0] entries IH]; intros start; cbn [foldl].
  - split; [lra|]. by intros id pos ?%elem_of_nil.
  - cbn [fst snd]. case_bool_decide as Hid.
    + destruct (IH (max start (entryReach clouds focusX focusY id0 pos0))) as [Hstart Hall].
      cbv zeta in Hstart, Hall.
      pose proof (Rmax_l start (entryReach clouds focusX focusY id0 pos0)) as Hl.
      pose proof (Rmax_r start (entryReach clouds focusX focusY id0 pos0)) as Hr.
      change (max start (entryReach clouds focusX focusY id0 pos0))
        with (Rmax start (entryReach clouds focusX focusY id0 pos0)) in *.
      split; [lra|]. intros id pos Hin Hne.
      apply elem_of_cons in Hin as [[= -> ->]|Hin]; [lra|by apply Hall].
    + destruct (IH start) as [Hstart Hall]. cbv zeta in Hstart, Hall.
      split; [done|]. intros id pos Hin Hne.
      apply elem_of_cons in Hin as [[= -> ->]|Hin]; [done|by apply Hall].
Qed.
End FocusZoomFacts.

(** X27 (exact arithmetic).  The zoom of focus mode keeps the focused subtree
    in view.  The target scale is always between 0.8 and 2.5; and when the
    viewport is large enough for the content at scale 0.8, then at the target
    scale the focused node's radius and the reach of every entry of the Focus
    Layout Map (distance from the focus point, plus the entry's coverage,
    plus 20) fit into half the smaller screen side less the padding of 60. *)
Theorem focus_zoom_fits (clouds : gmap string R) (focused : CloudNode R) (focusX focusY : R)
    (entries : list (string * (R * R))) (screenWidth screenHeight : R) :
  (0 < node_radius focused)%R ->
  let contentRadius := focusContentRadius clouds focused focusX focusY entries in
  let targetScale := focusTargetScale screenWidth screenHeight contentRadius in
  (0.8 <= targetScale <= 2.5)%R /\
  (0.8 * (2 * contentRadius) <= Rmin screenWidth screenHeight - 120 ->
   node_radius focused * targetScale <= Rmin screenWidth screenHeight / 2 - 60 /\
   forall id pos,
     (id, pos) ∈ entries -> id <> node_id focused ->
     entryReach clouds focusX focusY id pos * targetScale
     <= Rmin screenWidth screenHeight / 2 - 60)%R.
Proof.
  intros Hradius contentRadius targetScale.
  destruct (focusContentRadius_fold clouds focused focusX focusY entries (node_radius focused))
    as [Hstart Hall].
  cbv zeta in Hstart, Hall. fold (focusContentRadius clouds focused focusX focusY entries) in *.
  fold contentRadius in Hstart, Hall.
  assert (Hpos : (0 < contentRadius)%R) by lra.
  unfold targetScale, focusTargetScale. real_ops.
  set (ideal := ((Rmin screenWidth screenHeight - 60 * / 1 * (2 * / 1))
                 / (contentRadius * (2 * / 1)))%R).
  split.
  - unfold Rmax, Rmin. repeat destruct (Rle_dec _ _); lra.
  - intros Hlarge.
    assert (Hideal : (ideal * (2 * contentRadius) = Rmin screenWidth screenHeight - 120)%R).
    { unfold ideal. field. lra. }
    assert (Hideal08 : (0.8 <= ideal)%R) by nra.
    assert (Hscale : (0.8 <= Rmax (8 * / 10) (Rmin (25 * / 10) ideal) <= ideal)%R).
    { unfold Rmax, Rmin. repeat destruct (Rle_dec _ _); lra. }
    set (scale := Rmax (8 * / 10) (Rmin (25 * / 10) ideal)) in *.
    assert (Hfit : forall reach, (reach <= contentRadius)%R ->
                    (reach * scale <= Rmin screenWidth screenHeight / 2 - 60)%R).
    { intros reach Hreach. nra. }
    split; [by apply Hfit|]. intros id pos Hin Hne. apply Hfit. by apply Hall.
Qed.

Lemma focus_zoom_fits_witness :
  let g := mkCloudNode "g" milestone 100%R 100%R 1%R 0%R 80%R None in
  let entries := [("g", (100%R, 100%R)); ("a", (100%R, 300%R))] in
  (0 < node_radius g)%R /\
  let contentRadius := focusContentRadius example_clouds g 100%R 100%R entries in
  let targetScale := focusTargetScale 1200%R 1000%R contentRadius in
  (0.8 <= targetScale <= 2.5)%R /\
  (0.8 * (2 * contentRadius) <= Rmin 1200 1000 - 120 ->
   node_radius g * targetScale <= Rmin 1200 1000 / 2 - 60 /\
   forall id pos,
     (id, pos) ∈ entries -> id <> node_id g ->
     entryReach example_clouds 100%R 100%R id pos * targetScale
     <= Rmin 1200 1000 / 2 - 60)%R.
Proof.
  intros g entries.
  assert (Hradius : (0 < node_radius g)%R) by (simpl; lra).
  split; [exact Hradius|].
  exact (focus_zoom_fits example_clouds g 100%R 100%R entries 1200%R 1000%R Hradius).
Defined.

(** * The drop zones at the screen edges *)

(** X28 (exact arithmetic).  The drop zones.  A position is never in the
    complete zone and in the delete zone at once; both intensities lie
    between 0 and 1; and a position in a zone has that zone's intensity 1. *)
Theorem zone_state_consistent (x y width height : R) :
  let zone := getZoneState x y width height in
  (inCompleteZone zone && inDeleteZone zone = false) /\
  (0 <= completeIntensity zone <= 1)%R /\
  (0 <= deleteIntensity zone <= 1)%R /\
  (inCompleteZone zone = true -> completeIntensity zone = 1%R) /\
  (inDeleteZone zone = true -> deleteIntensity zone = 1%R).
Proof.
  cbv zeta. unfold getZoneState.
  cbn [inCompleteZone inDeleteZone completeIntensity deleteIntensity].
  unfold isInCompleteZone, isInDeleteZone, calculateCompleteZoneIntensity,
    calculateDeleteZoneIntensity, INTERACTION.DELETE_ZONE_SIZE, INTERACTION.ZONE_FADE_START,
    leq, real_le.
  real_ops.
  set (minDist := Rmin (Rmin x (width - x)) (height - y)).
  assert (Hmin : (minDist <= x /\ minDist <= width - x /\ minDist <= height - y)%R).
  { unfold minDist, Rmin. repeat destruct (Rle_dec _ _); lra. }
  split; [|split; [|split; [|split]]].
  - by destruct (bool_decide (y < 80 * / 1)%R).
  - repeat case_bool_decide; lra.
  - repeat case_bool_decide; lra.
  - repeat case_bool_decide; (done || lra).
  - repeat case_bool_decide; cbn [orb]; (done || lra).
Qed.

(** * Blending colours *)

Section Bytes.
Local Open Scope Z_scope.

Lemma ToInt32_small (z : Z) : - 2 ^ 31 <= z < 2 ^ 31 -> SeededRandom.ToInt32 z = z.
Proof. intros Hz. unfold SeededRandom.ToInt32. rewrite Z.mod_small; lia. Qed.

Lemma and32_byte (a : Z) : SeededRandom.and32 a 0xFF = SeededRandom.ToInt32 a mod 256.
Proof.
  unfold SeededRandom.and32. rewrite (ToInt32_small 255) by lia.
  change 255 with (Z.ones 8). by rewrite Z.land_ones.
Qed.

Lemma channel_spec (color shift : Z) :
  0 <= shift ->
  channel color shift = (SeededRandom.ToInt32 color / 2 ^ shift) mod 256.
Proof.
  intros Hs. unfold channel, sar. rewrite and32_byte, Z.shiftr_div_pow2 by done.
  rewrite ToInt32_small; [done|].
  assert (H31 : - 2 ^ 31 <= SeededRandom.ToInt32 color < 2 ^ 31).
  { unfold SeededRandom.ToInt32.
    pose proof (Z.mod_pos_bound (color + 2 ^ 31) (2 ^ 32) eq_refl). lia. }
  pose proof (Z.pow_pos_nonneg 2 shift ltac:(lia) Hs) as Hpow.
  split.
  - apply Z.div_le_lower_bound; [lia|]. nia.
  - apply Z.div_lt_upper_bound; [lia|]. nia.
Qed.

Lemma byte_range (a : Z) : 0 <= a mod 256 < 256.
Proof. apply Z.mod_pos_bound. lia. Qed.

Lemma lor_disjoint (hi lo n : Z) :
  0 <= n -> 0 <= lo < 2 ^ n -> Z.lor (hi * 2 ^ n) lo = hi * 2 ^ n + lo.
Proof.
  intros Hn Hlo. rewrite <- Z.add_lor_land.
  assert (Hand : Z.land (hi * 2 ^ n) lo = 0); [|lia].
  apply Z.bits_inj'. intros i Hi. rewrite Z.land_spec, Z.bits_0.
  destruct (Z.lt_ge_cases i n) as [Hlt|Hge].
  - by rewrite Z.mul_pow2_bits_low.
  - rewrite andb_comm.
    destruct (Z.eq_dec lo 0) as [->|Hne]; [by rewrite Z.bits_0|].
    rewrite Z.bits_above_log2; [done|lia|].
    apply Z.log2_lt_pow2; [lia|]. eapply Z.lt_le_trans; [apply Hlo|].
    apply Z.pow_le_mono_r; lia.
Qed.

(** Three bytes packed into a colour. *)
Lemma pack_bytes (r g b : Z) :
  0 <= r < 256 -> 0 <= g < 256 -> 0 <= b < 256 ->
  SeededRandom.or32 (SeededRandom.or32 (SeededRandom.shl r 16) (SeededRandom.shl g 8)) b
  = r * 65536 + g * 256 + b.
Proof.
  intros Hr Hg Hb. unfold SeededRandom.or32, SeededRandom.shl.
  rewrite (ToInt32_small r), (ToInt32_small g), (ToInt32_small b) by lia.
  rewrite !Z.shiftl_mul_pow2 by lia.
  rewrite (ToInt32_small (r * 2 ^ 16)), (ToInt32_small (g * 2 ^ 8)) by lia.
  rewrite (ToInt32_small (r * 2 ^ 16)), (ToInt32_small (g * 2 ^ 8)) by lia.
  rewrite <- (Z.shiftl_mul_pow2 r 16), <- (Z.shiftl_mul_pow2 g 8) by lia.
  replace (Z.shiftl r 16) with (Z.shiftl (Z.shiftl r 8) 8)
    by (rewrite Z.shiftl_shiftl by lia; done).
  rewrite <- Z.shiftl_lor. rewrite !Z.shiftl_mul_pow2 by lia.
  rewrite (lor_disjoint r g 8) by lia.
  rewrite (ToInt32_small ((r * 2 ^ 8 + g) * 2 ^ 8)) by lia.
  rewrite (lor_disjoint (r * 2 ^ 8 + g) b 8) by lia. lia.
Qed.

Lemma unpack_bytes (r g b : Z) :
  0 <= r < 256 -> 0 <= g < 256 -> 0 <= b < 256 ->
  channel (r * 65536 + g * 256 + b) 16 = r /\
  channel (r * 65536 + g * 256 + b) 8 = g /\
  SeededRandom.and32 (r * 65536 + g * 256 + b) 0xFF = b.
Proof.
  intros Hr Hg Hb. rewrite !channel_spec, and32_byte by lia.
  rewrite (ToInt32_small (r * 65536 + g * 256 + b)) by lia.
  change (2 ^ 16) with 65536. change (2 ^ 8) with 256.
  split_and!; Z.div_mod_to_equations; lia.
Qed.
End Bytes.

Section Blend.
Local Open Scope R_scope.

Lemma blendChannel_between (c1 c2 : Z) (ratio : R) :
  0 <= ratio <= 1 ->
  exists z, blendChannel c1 c2 ratio = RInt z /\ (Z.min c1 c2 <= z <= Z.max c1 c2)%Z.
Proof.
  intros Hratio. unfold blendChannel, round, real_number, of_Z, inject_Z. real_ops.
  eexists. split; [reflexivity|].
  set (t := IZR c1 * / 1 + (IZR c2 * / 1 - IZR c1 * / 1) * ratio).
  assert (Ht : IZR (Z.min c1 c2) <= t <= IZR (Z.max c1 c2)).
  { unfold t.
    destruct (Z.le_ge_cases c1 c2) as [Hle|Hge].
    - rewrite Z.min_l, Z.max_r by done. apply IZR_le in Hle. nra.
    - rewrite Z.min_r, Z.max_l by lia. apply IZR_le in Hge. nra. }
  pose proof (Zfloor_bound (t + / 2)) as [Hlo Hhi].
  split.
  - apply Zfloor_lub. lra.
  - assert (Hlt : IZR (Zfloor (t + / 2)) < IZR (Z.max c1 c2 + 1)).
    { rewrite plus_IZR. lra. }
    apply lt_IZR in Hlt. lia.
Qed.

Lemma blendChannel_start (c1 c2 : Z) : blendChannel c1 c2 (0 : R) = RInt c1.
Proof.
  unfold blendChannel, round, real_number, of_Z, inject_Z. real_ops. f_equal.
  apply Zfloor_eq. lra.
Qed.
End Blend.

(** X29 (exact arithmetic).  [blendColors] with a ratio between 0 and 1
    returns a 24-bit colour each of whose channels lies between the
    channels of the two colours; and with ratio 0 it returns the first
    colour (its low 24 bits). *)
Theorem blendColors_between (color1 color2 : Z) (ratio : R) :
  (0 <= ratio <= 1)%R ->
  let blended := blendColors color1 color2 ratio in
  (0 <= blended < 2 ^ 24)%Z /\
  (Z.min (channel color1 16) (channel color2 16) <= channel blended 16
   <= Z.max (channel color1 16) (channel color2 16))%Z /\
  (Z.min (channel color1 8) (channel color2 8) <= channel blended 8
   <= Z.max (channel color1 8) (channel color2 8))%Z /\
  (Z.min (channel color1 0) (channel color2 0) <= channel blended 0
   <= Z.max (channel color1 0) (channel color2 0))%Z /\
  blendColors color1 color2 (0 : R) = (SeededRandom.ToInt32 color1 mod 2 ^ 24)%Z.
Proof.
  intros Hratio. cbv zeta.
  assert (Hlow : forall c, channel c 0 = SeededRandom.and32 c 0xFF).
  { intros c. rewrite channel_spec, and32_byte by lia. by rewrite Z.div_1_r. }
  assert (Hbyte : forall c s, (0 <= s)%Z -> (0 <= channel c s < 256)%Z).
  { intros c s Hs. rewrite channel_spec by done. apply byte_range. }
  split; [|split; [|split; [|split]]].
  5: {
    unfold blendColors. rewrite !blendChannel_start. cbn [int_of_rounded].
    rewrite <- (Hlow color1).
    rewrite pack_bytes by (apply Hbyte; lia).
    rewrite !channel_spec by lia. rewrite Z.pow_0_r, Z.div_1_r.
    change (2 ^ 16)%Z with 65536%Z. change (2 ^ 8)%Z with 256%Z.
    change (2 ^ 24)%Z with 16777216%Z.
    generalize (SeededRandom.ToInt32 color1). intros c.
    Z.div_mod_to_equations. lia. }
  all: unfold blendColors; rewrite <- !Hlow;
    destruct (blendChannel_between (channel color1 16) (channel color2 16) ratio Hratio)
      as (r & -> & Hr);
    destruct (blendChannel_between (channel color1 8) (channel color2 8) ratio Hratio)
      as (g & -> & Hg);
    destruct (blendChannel_between (channel color1 0) (channel color2 0) ratio Hratio)
      as (b & -> & Hb);
    cbn [int_of_rounded];
    pose proof (Hbyte color1 16%Z ltac:(lia)) as H1r;
    pose proof (Hbyte color2 16%Z ltac:(lia)) as H2r;
    pose proof (Hbyte color1 8%Z ltac:(lia)) as H1g;
    pose proof (Hbyte color2 8%Z ltac:(lia)) as H2g;
    pose proof (Hbyte color1 0%Z ltac:(lia)) as H1b;
    pose proof (Hbyte color2 0%Z ltac:(lia)) as H2b;
    assert (Hrr : (0 <= r < 256)%Z) by lia;
    assert (Hgr : (0 <= g < 256)%Z) by lia;
    assert (Hbr : (0 <= b < 256)%Z) by lia;
    rewrite (pack_bytes r g b Hrr Hgr Hbr);
    destruct (unpack_bytes r g b Hrr Hgr Hbr) as (Hur & Hug & Hub);
    rewrite <- Hlow in Hub;
    rewrite ?Hur, ?Hug, ?Hub;
    change (2 ^ 24)%Z with 16777216%Z; lia.
Qed.

Lemma blendColors_between_witness :
  (0 <= / 2 <= 1)%R /\
  let blended := blendColors 0xef4444 0xffffff (/ 2)%R in
  (0 <= blended < 2 ^ 24)%Z /\
  (Z.min (channel 0xef4444 16) (channel 0xffffff 16) <= channel blended 16
   <= Z.max (channel 0xef4444 16) (channel 0xffffff 16))%Z /\
  (Z.min (channel 0xef4444 8) (channel 0xffffff 8) <= channel blended 8
   <= Z.max (channel 0xef4444 8) (channel 0xffffff 8))%Z /\
  (Z.min (channel 0xef4444 0) (channel 0xffffff 0) <= channel blended 0
   <= Z.max (channel 0xef4444 0) (channel 0xffffff 0))%Z /\
  blendColors 0xef4444 0xffffff (0 : R) = (SeededRandom.ToInt32 0xef4444 mod 2 ^ 24)%Z.
Proof.
  assert (Hratio : (0 <= / 2 <= 1)%R) by lra.
  split; [exact Hratio|].
  exact (blendColors_between 0xef4444 0xffffff (/ 2)%R Hratio).
Defined.

(** * Repulsion between two free nodes *)

(** X30 (exact arithmetic).  Repulsion is equal and opposite.  For two
    different nodes of which the second is not dragged (the first never is:
    the loop skips the dragged node before it repels), the repulsion step
    moves neither, changes no other node, and leaves the sum of the two
    velocities as it was: what it takes from one it gives to the other. *)
Theorem repel_equal_and_opposite (dragState : DragState R) (nodes : list (CloudNode R))
    (i j : nat) (a b : CloudNode R) :
  nodes !! i = Some a ->
  nodes !! j = Some b ->
  i <> j ->
  is_dragged dragState b = false ->
  let after := repel dragState false i j nodes in
  exists a' b',
    after !! i = Some a' /\ after !! j = Some b' /\
    same_place a a' /\ same_place b b' /\
    (node_vx a' + node_vx b' = node_vx a + node_vx b)%R /\
    (node_vy a' + node_vy b' = node_vy a + node_vy b)%R /\
    forall k, k <> i -> k <> j -> after !! k = nodes !! k.
Proof.
  intros Hi Hj Hne Hdrag. cbv zeta. unfold repel. rewrite Hi, Hj, Hdrag.
  assert (Hsame : exists a' b',
            nodes !! i = Some a' /\ nodes !! j = Some b' /\
            same_place a a' /\ same_place b b' /\
            (node_vx a' + node_vx b' = node_vx a + node_vx b)%R /\
            (node_vy a' + node_vy b' = node_vy a + node_vy b)%R /\
            forall k, k <> i -> k <> j -> nodes !! k = nodes !! k).
  { exists a, b. split_and!; try done; apply same_place_refl. }
  assert (Hforce : forall fx fy,
            exists a' b',
              alter (add_velocity fx fy) j (alter (sub_velocity fx fy) i nodes) !! i = Some a' /\
              alter (add_velocity fx fy) j (alter (sub_velocity fx fy) i nodes) !! j = Some b' /\
              same_place a a' /\ same_place b b' /\
              (node_vx a' + node_vx b' = node_vx a + node_vx b)%R /\
              (node_vy a' + node_vy b' = node_vy a + node_vy b)%R /\
              forall k, k <> i -> k <> j ->
                alter (add_velocity fx fy) j (alter (sub_velocity fx fy) i nodes) !! k
                = nodes !! k).
  { intros fx fy. exists (sub_velocity fx fy a), (add_velocity fx fy b).
    split; [|split; [|split; [|split; [|split; [|split]]]]].
    - rewrite list_lookup_alter_ne by done. by rewrite list_lookup_alter_eq, Hi.
    - rewrite list_lookup_alter_eq. rewrite list_lookup_alter_ne by done. by rewrite Hj.
    - apply same_place_sub_velocity.
    - apply same_place_add_velocity.
    - unfold sub_velocity, add_velocity. cbn [node_vx set_velocity]. real_ops. lra.
    - unfold sub_velocity, add_velocity. cbn [node_vy set_velocity]. real_ops. lra.
    - intros k Hki Hkj. by rewrite !list_lookup_alter_ne. }
  repeat case_match; try exact Hsame; cbn [negb orb]; apply Hforce.
Qed.

Lemma repel_equal_and_opposite_witness :
  let a := mkCloudNode "a" task 0%R 0%R 1%R 0%R 45%R (Some "g") in
  let b := mkCloudNode "b" task 10%R 0%R 3%R 4%R 45%R (Some "g") in
  example_nodes_R !! 1%nat = Some a /\ example_nodes_R !! 2%nat = Some b /\
  1%nat <> 2%nat /\ is_dragged initialDragState b = false /\
  let after := repel initialDragState false 1 2 example_nodes_R in
  exists a' b',
    after !! 1%nat = Some a' /\ after !! 2%nat = Some b' /\
    same_place a a' /\ same_place b b' /\
    (node_vx a' + node_vx b' = node_vx a + node_vx b)%R /\
    (node_vy a' + node_vy b' = node_vy a + node_vy b)%R /\
    forall k, k <> 1%nat -> k <> 2%nat -> after !! k = example_nodes_R !! k.
Proof.
  intros a b.
  split; [reflexivity|]. split; [reflexivity|]. split; [lia|]. split; [reflexivity|].
  apply (repel_equal_and_opposite initialDragState example_nodes_R 1 2 a b);
    [reflexivity|reflexivity|lia|reflexivity].
Defined.

(** * What a cloud keeps for life *)

Section CloudInvariants.
Context {num : Type} `{!JsNumber num} `{!JsTrig num}.
Implicit Types (c : Cloud num) (s : CloudStep num) (n node : CloudNode num).

Lemma newCloud_node node : cloud_node (newCloud node) = node.
Proof. unfold newCloud. by destruct (rng_next _). Qed.

Lemma updateMorph_keeps deltaTime c :
  cloud_node (updateMorph deltaTime c) = cloud_node c /\
  basePuffs (updateMorph deltaTime c) = basePuffs c.
Proof. unfold updateMorph. by destruct (morphComplete c). Qed.

(** No step writes the resting puffs. *)
Lemma cloudStep_basePuffs s c : basePuffs (cloudStep s c) = basePuffs c.
Proof. destruct s; try done. apply updateMorph_keeps. Qed.

(** No step changes the id the cloud was built for. *)
Lemma cloudStep_id s c id :
  node_id (cloud_node c) = id ->
  match s with SetNode node => node_id node = id | _ => True end ->
  node_id (cloud_node (cloudStep s c)) = id.
Proof.
  intros Hid Hs. destruct s; try done.
  cbn [cloudStep]. by rewrite (proj1 (updateMorph_keeps _ _)).
Qed.

Lemma steps_keep id (steps : list (CloudStep num)) c :
  steps_of id steps ->
  node_id (cloud_node c) = id ->
  node_id (cloud_node (foldl (fun c s => cloudStep s c) c steps)) = id /\
  basePuffs (foldl (fun c s => cloudStep s c) c steps) = basePuffs c.
Proof.
  intros Hsteps. revert c. induction Hsteps as [|s steps Hs _ IH]; intros c Hid; [done|].
  cbn [foldl]. destruct (IH (cloudStep s c)) as [Hid' Hbase]; [by apply cloudStep_id|].
  split; [done|]. by rewrite Hbase, cloudStep_basePuffs.
Qed.

Lemma cloudAfter_keeps node (steps : list (CloudStep num)) :
  steps_of (node_id node) steps ->
  node_id (cloud_node (cloudAfter node steps)) = node_id node /\
  length (basePuffs (cloudAfter node steps)) = S (bumpCountOf (node_type node)).
Proof.
  intros Hsteps. unfold cloudAfter.
  destruct (steps_keep (node_id node) steps (newCloud node) Hsteps) as [Hid Hbase].
  { by rewrite newCloud_node. }
  split; [done|]. by rewrite Hbase, newCloud_basePuffs_length.
Qed.

(** The entity a node of the graph stands for is listed with the node's
    id and kind. *)
Lemma node_of_tree_kind focusedNode (tree : list (Milestone num)) n :
  node_of_tree focusedNode tree n -> (node_id n, node_type n) ∈ treeKinds tree.
Proof.
  unfold treeKinds.
  intros [(m & Hm & Hid & Hty & _)
         |[(m & t & Hm & Ht & Hid & Hty & _)
          |(m & t & s & Hm & Ht & Hs & _ & Hid & Hty & _)]];
    apply list_elem_of_bind; exists m; (split; [|done]); unfold milestoneKinds;
    rewrite Hid, Hty.
  - apply elem_of_cons. by left.
  - apply elem_of_cons. right. apply list_elem_of_bind. exists t. split; [|done].
    apply elem_of_cons. by left.
  - apply elem_of_cons. right. apply list_elem_of_bind. exists t. split; [|done].
    apply elem_of_cons. right. apply list_elem_of_fmap. by exists s.
Qed.

Lemma createNodes_kind random (tree : list (Milestone num)) width height focusedNode
    existingNodes n :
  n ∈ createNodes random tree width height focusedNode existingNodes ->
  (node_id n, node_type n) ∈ treeKinds tree.
Proof.
  intros Hn. apply (node_of_tree_kind focusedNode).
  by apply (milestoneNodes_sound random _ _ _ _ _ _ _ _ n Hn).
Qed.

Lemma one_kind (tree1 tree2 : list (Milestone num)) id k1 k2 :
  one_kind_per_id tree1 tree2 ->
  (id, k1) ∈ treeKinds tree1 -> (id, k2) ∈ treeKinds tree2 -> k1 = k2.
Proof.
  unfold one_kind_per_id. rewrite Forall_forall. intros Hall H1 H2.
  specialize (Hall _ H1). rewrite Forall_forall in Hall.
  by apply (Hall _ H2).
Qed.

(** What [computeMorphPuffs] reads of the cloud. *)
Lemma computeMorphPuffs_reads requiredW requiredH c1 c2 :
  node_id (cloud_node c1) = node_id (cloud_node c2) ->
  isChildOfFocusedNode c1 = isChildOfFocusedNode c2 ->
  length (basePuffs c1) = length (basePuffs c2) ->
  targetPuffs (computeMorphPuffs requiredW requiredH c1)
  = targetPuffs (computeMorphPuffs requiredW requiredH c2) /\
  coverageR (computeMorphPuffs requiredW requiredH c1)
  = coverageR (computeMorphPuffs requiredW requiredH c2) /\
  hitArea (computeMorphPuffs requiredW requiredH c1)
  = hitArea (computeMorphPuffs requiredW requiredH c2).
Proof.
  intros Hid Hmode Hbase. unfold computeMorphPuffs.
  rewrite Hid, Hmode, Hbase. done.
Qed.
End CloudInvariants.



(** * The orbit of the focus layout *)

Section LargestChild.
Local Open Scope R_scope.

Lemma foldl_Rmax_attained (f : CloudNode R -> R) (children : list (CloudNode R)) (m : R) :
  foldl (fun acc child => Rmax acc (f child)) m children = m \/
  exists child, child ∈ children /\
                foldl (fun acc child => Rmax acc (f child)) m children = f child.
Proof.
  revert m. induction children as [|child children IH]; intros m; cbn [foldl]; [by left|].
  destruct (IH (Rmax m (f child))) as [->|(child' & Hin & ->)].
  - destruct (Rle_dec m (f child)).
    + right. exists child. split; [apply elem_of_cons; by left|by apply Rmax_right].
    + left. apply Rmax_left. lra.
  - right. exists child'. split; [apply elem_of_cons; by right|done].
Qed.

Lemma maxChildCoverage_attained (clouds : gmap string R) (children : list (CloudNode R)) :
  maxChildCoverage clouds children = 0 \/
  exists child, child ∈ children /\
                maxChildCoverage clouds children = childCoverageOf clouds child.
Proof.
  unfold maxChildCoverage. rewrite maxChildCoverage_fold.
  destruct (foldl_Rmax_attained (childCoverageOf clouds) children (lit 0))
    as [->|Hsome]; [left; apply lit_0|by right].
Qed.

Lemma specAngle_first (N : nat) : specAngle 0 N = - (Rtrigo1.PI / 2).
Proof. unfold specAngle. simpl INR. lra. Qed.

Lemma or_else_real (a b : R) : or_else a b = if decide (a = 0) then b else a.
Proof.
  unfold or_else, truthy, real_number.
  destruct (decide (a = 0)) as [->|Hne].
  - by rewrite bool_decide_eq_false_2 by (intros H; by apply H).
  - by rewrite bool_decide_eq_true_2.
Qed.
End LargestChild.

Section FocusLayoutClaim.
Local Open Scope R_scope.

(** C3 (exact arithmetic).  For a focused node with N >= 1 children, the
    children are put on a circle around the parent whose radius is
    max(parentCoverage + 15 + maxChildCoverage,
        N (2 maxChildCoverage + 30) / (2 pi)),
    where parentCoverage is the required coverage of the focused cloud (its
    node radius when that is 0) and maxChildCoverage is the largest coverage
    among the children, no child's coverage being above it and one child's
    being equal to it (or 0, when no child's is positive).  The radius is at
    least the density term and at least parentCoverage + 15 +
    maxChildCoverage.  The i-th child sits at angle -pi/2 + i (2 pi / N):
    the first straight above the parent (same x, y smaller by the radius, y
    growing downwards on the canvas), consecutive children 2 pi / N apart;
    each is given velocity zero and keeps its id and radius. *)
Theorem focus_layout_placement (clouds : gmap string R) (focused : CloudNode R)
    (nodes : list (CloudNode R)) (layout : gmap string (R * R))
    (p : nat) (parentNode : CloudNode R) (requiredCoverageR : R) :
  list_find (fun n => node_id n = node_id focused) nodes = Some (p, parentNode) ->
  clouds !! node_id parentNode = Some requiredCoverageR ->
  node_parentId parentNode <> Some (node_id focused) ->
  let childIndices := childIndicesOf (node_id focused) nodes in
  let N := length childIndices in
  (1 <= N)%nat ->
  exists parentCoverage largestChildCoverage orbitRadius : R,
    parentCoverage
    = (if decide (requiredCoverageR = 0) then node_radius parentNode else requiredCoverageR) /\
    (forall c child, c ∈ childIndices -> nodes !! c = Some child ->
       childCoverageOf clouds child <= largestChildCoverage) /\
    (largestChildCoverage = 0 \/
     exists c child, c ∈ childIndices /\ nodes !! c = Some child /\
                     largestChildCoverage = childCoverageOf clouds child) /\
    orbitRadius = specOrbitRadius parentCoverage 15 largestChildCoverage 30 N /\
    INR N * (2 * largestChildCoverage + 30) / (2 * Rtrigo1.PI) <= orbitRadius /\
    parentCoverage + 15 + largestChildCoverage <= orbitRadius /\
    specAngle 0 N = - Rtrigo1.PI / 2 /\
    (forall i, specAngle (S i) N - specAngle i N = 2 * Rtrigo1.PI / INR N) /\
    forall i c, childIndices !! i = Some c ->
      exists child child',
        nodes !! c = Some child /\
        (refreshFocusLayout clouds (Some focused) (nodes, layout)).1 !! c = Some child' /\
        node_x child' = node_x parentNode + orbitRadius * Rtrigo_def.cos (specAngle i N) /\
        node_y child' = node_y parentNode + orbitRadius * Rtrigo_def.sin (specAngle i N) /\
        (node_x child' - node_x parentNode) * (node_x child' - node_x parentNode)
        + (node_y child' - node_y parentNode) * (node_y child' - node_y parentNode)
        = orbitRadius * orbitRadius /\
        (i = 0%nat -> node_x child' = node_x parentNode /\
                      node_y child' = node_y parentNode - orbitRadius) /\
        node_vx child' = 0 /\ node_vy child' = 0 /\
        node_id child' = node_id child /\ node_radius child' = node_radius child.
Proof.
  intros Hfind Hcloud Hself childIndices N HN.
  set (children := omap (fun c => nodes !! c) childIndices).
  set (maxChildR := maxChildCoverage clouds children).
  set (parentCoverageR := or_else requiredCoverageR (node_radius parentNode)).
  set (orbitRadius := specOrbitRadius parentCoverageR 15 maxChildR 30 N).
  assert (HNpos : 0 < INR N) by (apply lt_0_INR; lia).
  exists parentCoverageR, maxChildR, orbitRadius. split_and!.
  - apply or_else_real.
  - intros c child Hc Hchild. apply maxChildCoverage_covers.
    apply list_elem_of_omap. by exists c.
  - destruct (maxChildCoverage_attained clouds children) as [Hzero|(child & Hin & Hmax)].
    + by left.
    + right. apply list_elem_of_omap in Hin as (c & Hc & Hchild). by exists c, child.
  - done.
  - apply Rmax_r.
  - apply Rmax_l.
  - unfold specAngle. simpl INR. lra.
  - intros i. unfold specAngle. rewrite S_INR. field. lra.
  - intros i c Hi.
    destruct (focus_layout_children clouds focused nodes layout p parentNode
                requiredCoverageR Hfind Hcloud Hself HN i c Hi) as (child & Hchild & Hplaced).
    exists child, (placedAt parentNode orbitRadius N i child).
    split; [done|]. split; [exact Hplaced|].
    unfold placedAt. cbn [node_x node_y node_vx node_vy node_id node_radius
                          set_velocity set_position].
    rewrite (childAngle_spec i N HN).
    unfold cos, sin, real_trig. real_ops.
    pose proof (sin2_cos2 (specAngle i N)) as Hsc. unfold Rsqr in Hsc.
    split_and!; try lra; try done;
      [|intros ->; rewrite specAngle_first, cos_neg, sin_neg, cos_PI2, sin_PI2; lra].
    replace (node_x parentNode + Rtrigo_def.cos (specAngle i N) * orbitRadius
             - node_x parentNode) with (Rtrigo_def.cos (specAngle i N) * orbitRadius) by ring.
    replace (node_y parentNode + Rtrigo_def.sin (specAngle i N) * orbitRadius
             - node_y parentNode) with (Rtrigo_def.sin (specAngle i N) * orbitRadius) by ring.
    replace (orbitRadius * orbitRadius)
      with ((Rtrigo_def.sin (specAngle i N) * Rtrigo_def.sin (specAngle i N)
             + Rtrigo_def.cos (specAngle i N) * Rtrigo_def.cos (specAngle i N))
            * (orbitRadius * orbitRadius)) by (rewrite Hsc; ring).
    ring.
Qed.

Lemma focus_layout_placement_witness :
  let focused := mkCloudNode "g" milestone 100 100 1 0 80 None in
  let a := mkCloudNode "a" task 0 0 1 0 45 (Some "g") in
  let nodes := example_nodes_R in
  let childIndices := childIndicesOf (node_id focused) nodes in
  let N := length childIndices in
  list_find (fun n => node_id n = node_id focused) nodes = Some (0%nat, focused) /\
  example_clouds !! node_id focused = Some 120 /\
  node_parentId focused <> Some (node_id focused) /\
  N = 2%nat /\
  exists orbitRadius : R,
    195 <= orbitRadius /\
    forall i c, childIndices !! i = Some c ->
      exists child child',
        nodes !! c = Some child /\
        (refreshFocusLayout example_clouds (Some focused) (nodes, ∅)).1 !! c = Some child' /\
        node_x child' = node_x focused + orbitRadius * Rtrigo_def.cos (specAngle i N) /\
        node_y child' = node_y focused + orbitRadius * Rtrigo_def.sin (specAngle i N) /\
        (node_x child' - node_x focused) * (node_x child' - node_x focused)
        + (node_y child' - node_y focused) * (node_y child' - node_y focused)
        = orbitRadius * orbitRadius /\
        (i = 0%nat -> node_x child' = node_x focused /\
                      node_y child' = node_y focused - orbitRadius) /\
        node_vx child' = 0 /\ node_vy child' = 0 /\
        node_id child' = node_id child /\ node_radius child' = node_radius child.
Proof.
  intros focused a nodes childIndices N.
  assert (Hfind : list_find (fun n => node_id n = node_id focused) nodes
                  = Some (0%nat, focused)) by reflexivity.
  assert (Hcloud : example_clouds !! node_id focused = Some 120) by reflexivity.
  assert (Hself : node_parentId focused <> Some (node_id focused)) by discriminate.
  assert (HN : N = 2%nat) by reflexivity.
  assert (Hge : (1 <= N)%nat) by (rewrite HN; lia).
  split; [exact Hfind|]. split; [exact Hcloud|]. split; [exact Hself|]. split; [exact HN|].
  destruct (focus_layout_placement example_clouds focused nodes ∅ 0 focused 120
              Hfind Hcloud Hself Hge)
    as (pc & mc & orbit & Hpc & Hcover & _ & _ & _ & Hroom & _ & _ & Hplaced).
  exists orbit. split; [|exact Hplaced].
  assert (Hpc' : pc = 120).
  { rewrite Hpc. destruct (decide (120 = 0)); [lra|done]. }
  assert (Hmc : 60 <= mc).
  { etransitivity; [|apply (Hcover 1%nat a)].
    - unfold childCoverageOf. change (example_clouds !! node_id a) with (Some 60).
      cbv iota beta. rewrite or_else_real. destruct (decide (60 = 0)); lra.
    - apply list_elem_of_lookup. exists 0%nat. reflexivity.
    - reflexivity. }
  lra.
Defined.
End FocusLayoutClaim.

(** * The value returned by the simulator *)

Section ReturnedSpeed.
Local Open Scope R_scope.
Implicit Types (n : CloudNode R) (st : Sim R).

Variable dragState : DragState R.
Variable random : nat -> R.
Variable focusedNodeId : option string.
Variable focusedSubtreeIds : option (gset string).

Local Notation "'stateAt'" :=
  (stateBefore dragState random focusedNodeId false focusedSubtreeIds) (only parsing).
Local Notation "'integrated'" :=
  (integratedAt dragState focusedNodeId focusedSubtreeIds) (only parsing).
Local Notation "'observed'" :=
  (observedSpeed dragState random focusedNodeId focusedSubtreeIds) (only parsing).

Lemma stateBefore_all (nodes : list (CloudNode R)) :
  applyForces dragState random focusedNodeId false focusedSubtreeIds nodes
  = stateAt nodes (length nodes).
Proof. reflexivity. Qed.

Lemma stateBefore_S (nodes : list (CloudNode R)) (m : nat) :
  stateAt nodes (S m)
  = stepNode dragState random focusedNodeId false focusedSubtreeIds
             (buildNodeMap nodes)
             (lookupFocusedNode focusedNodeId (buildNodeMap nodes) nodes)
             m (stateAt nodes m).
Proof.
  unfold stateBefore, steps. by rewrite seq_S, foldl_app.
Qed.

Lemma same_place_tests focusedNode n nk :
  same_place n nk ->
  is_dragged dragState nk = is_dragged dragState n /\
  locked focusedNodeId false focusedSubtreeIds focusedNode nk
  = locked focusedNodeId false focusedSubtreeIds focusedNode n.
Proof. intros ->. by destruct n. Qed.

Lemma speed_of_integrate_eq n : speed_of (integrate n) = 0.92 * speed_of n.
Proof.
  unfold integrate, speed_of. simpl. real_ops.
  rewrite norm_scale. rewrite Rabs_right by lra. lra.
Qed.

Lemma speed_of_cap_eq n : speed_of (capVelocity n) = Rmin (speed_of n) 5.
Proof.
  unfold capVelocity. destruct (lt _ _) eqn:Hlt.
  - apply lt_true in Hlt. unfold speed_of in *. simpl. real_ops.
    set (s := R_sqrt.sqrt (node_vx n * node_vx n + node_vy n * node_vy n)) in *.
    assert (Hs : 0 < s) by lra.
    replace (node_vx n / s * (5 * / 1)) with (node_vx n * (5 / s)) by (field; lra).
    replace (node_vy n / s * (5 * / 1)) with (node_vy n * (5 / s)) by (field; lra).
    rewrite norm_scale. fold s.
    rewrite Rabs_right by (apply Rle_ge, Rlt_le, Rdiv_lt_0_compat; lra).
    replace (5 / s * s) with 5 by (field; lra).
    rewrite Rmin_right; lra.
  - apply lt_false in Hlt. real_ops. rewrite Rmin_left; lra.
Qed.

Lemma observed_nonneg (nodes : list (CloudNode R)) k : 0 <= observed nodes k.
Proof.
  unfold observedSpeed. destruct (_ !! k); [apply speed_of_nonneg|].
  rewrite lit_0. lra.
Qed.

(** Iteration [k] of a free-mode call: an integrated node raises the running
    maximum to its observed speed and leaves at 0.92 times the capped
    speed; any other node leaves the maximum alone and is at rest. *)
Lemma free_step (nodes : list (CloudNode R)) k n :
  nodes !! k = Some n ->
  let st := stateAt nodes k in
  let st' := stateAt nodes (S k) in
  (integrated nodes k /\
   sim_maxVelocity st' = Rmax (sim_maxVelocity st) (observed nodes k) /\
   exists n', sim_nodes st' !! k = Some n' /\
              speed_of n' = 0.92 * Rmin (observed nodes k) 5) \/
  (~ integrated nodes k /\
   sim_maxVelocity st' = sim_maxVelocity st /\
   exists n', sim_nodes st' !! k = Some n' /\ speed_of n' = 0).
Proof.
  intros Hk st st'.
  set (nodeMap := buildNodeMap nodes).
  set (focusedNode := lookupFocusedNode focusedNodeId nodeMap nodes).
  destruct (applyForces_node dragState random focusedNodeId false focusedSubtreeIds
              nodes k n Hk) as (nk & Hnk & Hplace & _).
  fold st in Hnk.
  destruct (same_place_tests focusedNode n nk Hplace) as [Hdrag Hlock].
  assert (Hnot : forall P : Prop, (is_dragged dragState n = true \/
              locked focusedNodeId false focusedSubtreeIds focusedNode n = true) ->
            ~ integrated nodes k).
  { intros _ Hor (n0 & Hn0 & Hd0 & Hl0). rewrite Hk in Hn0. injection Hn0 as <-.
    fold nodeMap focusedNode in Hl0. destruct Hor; congruence. }
  unfold st'. rewrite stateBefore_S. fold nodeMap focusedNode st.
  destruct (is_dragged dragState n) eqn:Hd.
  { right. split; [apply (Hnot True); by left|].
    unfold stepNode. rewrite Hnk, Hdrag. unfold with_nodes. cbn [sim_maxVelocity sim_nodes].
    split; [done|]. exists (pinToDrag dragState nk).
    rewrite list_lookup_alter_eq, Hnk. split; [done|apply speed_of_pinToDrag]. }
  destruct (locked focusedNodeId false focusedSubtreeIds focusedNode n) eqn:Hl.
  { right. split; [apply (Hnot True); by right|].
    assert (Hstep : sim_nodes (stepNode dragState random focusedNodeId false
                                focusedSubtreeIds nodeMap focusedNode k st) !! k
                    = Some (set_velocity (lit 0) (lit 0) nk)).
    { apply stepNode_locked; [done|congruence|congruence]. }
    split.
    - unfold stepNode. rewrite Hnk, Hdrag.
      unfold locked in Hlock. cbn [negb andb] in Hlock.
      destruct (in_focused_subtree focusedSubtreeIds nk); [done|].
      destruct (isFocused focusedNodeId nk || isParentOfFocusedSubtask focusedNode nk);
        [done|].
      cbn [orb] in Hlock. by rewrite Hlock.
    - exists (set_velocity (lit 0) (lit 0) nk). split; [done|apply speed_of_zero]. }
  left. split; [by exists n|].
  assert (Hsim : stepNode dragState random focusedNodeId false focusedSubtreeIds
                          nodeMap focusedNode k st
                 = simulateNode dragState random false nodeMap false k st).
  { unfold stepNode. rewrite Hnk, Hdrag.
    unfold locked in Hlock. cbn [negb andb] in Hlock.
    apply orb_false_iff in Hlock as [Hsub Hrest].
    apply orb_false_iff in Hrest as [Hfoc Hmil].
    by rewrite Hsub, Hfoc, Hmil. }
  rewrite Hsim. unfold simulateNode, observedSpeed. fold nodeMap st.
  fold (forces dragState false nodeMap false k (sim_nodes st)).
  set (pushed := forces dragState false nodeMap false k (sim_nodes st)).
  assert (Hlen : length pushed = length (sim_nodes st)) by apply forces_step.
  destruct (lookup_lt_is_Some_2 pushed k) as [nodeA HA].
  { rewrite Hlen. by eapply lookup_lt_Some. }
  rewrite HA. destruct (jitterNode random (sim_random st) nodeA) as [jittered j].
  cbn [sim_maxVelocity sim_nodes fst]. split; [done|].
  exists (integrate (capVelocity jittered)).
  rewrite list_lookup_insert_eq by (by eapply lookup_lt_Some).
  split; [done|]. by rewrite speed_of_integrate_eq, speed_of_cap_eq.
Qed.

Lemma integrated_in_range (nodes : list (CloudNode R)) k :
  integrated nodes k -> (k < length nodes)%nat.
Proof. intros (n & Hn & _). by eapply lookup_lt_Some. Qed.

(** The running maximum when the loop reaches index [m]. *)
Lemma running_max (nodes : list (CloudNode R)) (m : nat) :
  (m <= length nodes)%nat ->
  let v := sim_maxVelocity (stateAt nodes m) in
  0 <= v /\
  (forall k, (k < m)%nat -> integrated nodes k -> observed nodes k <= v) /\
  ((exists k, (k < m)%nat /\ integrated nodes k /\ v = observed nodes k) \/
   ((forall k, (k < m)%nat -> ~ integrated nodes k) /\ v = 0)).
Proof.
  induction m as [|m IH]; intros Hm; cbv zeta.
  - cbn [stateBefore steps seq foldl sim_maxVelocity]. rewrite lit_0.
    split; [lra|]. split; [intros; lia|]. right. split; [intros; lia|done].
  - destruct IH as (Hpos & Hub & Hmax); [lia|].
    destruct (lookup_lt_is_Some_2 nodes m) as [n Hn]; [lia|].
    pose proof (observed_nonneg nodes m) as Hobs.
    destruct (free_step nodes m n Hn) as [(Hint & -> & _)|(Hnot & -> & _)].
    + pose proof (Rmax_l (sim_maxVelocity (stateAt nodes m)) (observed nodes m)).
      pose proof (Rmax_r (sim_maxVelocity (stateAt nodes m)) (observed nodes m)).
      split; [lra|]. split.
      * intros k Hk Hik. destruct (decide (k = m)) as [->|Hne]; [done|].
        etransitivity; [apply Hub; [lia|done]|done].
      * left. destruct (Rle_dec (sim_maxVelocity (stateAt nodes m)) (observed nodes m)).
        -- exists m. rewrite Rmax_right by done. split_and!; [lia|done|done].
        -- rewrite Rmax_left by lra.
           destruct Hmax as [(k & Hk & Hik & Hv)|[_ Hv]]; [|lra].
           exists k. split_and!; [lia|done|done].
    + split; [done|]. split.
      * intros k Hk Hik. destruct (decide (k = m)) as [->|Hne]; [done|].
        apply Hub; [lia|done].
      * destruct Hmax as [(k & Hk & Hik & Hv)|[Hnone Hv]].
        -- left. exists k. split_and!; [lia|done|done].
        -- right. split; [|done]. intros k Hk.
           destruct (decide (k = m)) as [->|Hne]; [done|]. apply Hnone. lia.
Qed.

Lemma returned_max (nodes : list (CloudNode R)) :
  let r := applyForces dragState random focusedNodeId false focusedSubtreeIds nodes in
  (forall k, integrated nodes k -> observed nodes k <= sim_maxVelocity r) /\
  ((exists k, integrated nodes k /\ sim_maxVelocity r = observed nodes k) \/
   ((forall k, ~ integrated nodes k) /\ sim_maxVelocity r = 0)).
Proof.
  cbv zeta. rewrite stateBefore_all.
  destruct (running_max nodes (length nodes)) as (_ & Hub & Hmax); [done|]. split.
  - intros k Hk. apply Hub; [by apply integrated_in_range|done].
  - destruct Hmax as [(k & _ & Hk & Hv)|[Hnone Hv]].
    + left. by exists k.
    + right. split; [|done]. intros k Hk. apply (Hnone k); [|done].
      by apply integrated_in_range.
Qed.

Lemma speed_after (nodes : list (CloudNode R)) k n' :
  sim_nodes (applyForces dragState random focusedNodeId false focusedSubtreeIds nodes) !! k
  = Some n' ->
  (integrated nodes k -> speed_of n' = 0.92 * Rmin (observed nodes k) 5) /\
  (~ integrated nodes k -> speed_of n' = 0).
Proof.
  intros Hk.
  assert (Hlt : (k < length nodes)%nat).
  { apply lookup_lt_Some in Hk. by rewrite applyForces_length in Hk. }
  destruct (lookup_lt_is_Some_2 nodes k Hlt) as [n Hn].
  destruct (applyForces_node dragState random focusedNodeId false focusedSubtreeIds
              nodes k n Hn) as (_ & _ & _ & Heq).
  rewrite Heq, <- stateBefore_S in Hk.
  destruct (free_step nodes k n Hn) as [(Hint & _ & n1 & Hn1 & Hs)|(Hnot & _ & n1 & Hn1 & Hs)];
    rewrite Hn1 in Hk; injection Hk as <-; split; done.
Qed.
End ReturnedSpeed.

(** C4, as the code has it (exact arithmetic).  In free mode the returned
    value is the largest [speed] of line 448 over the nodes that reach the
    integration block: it is at least the observed speed of each of them and
    equal to that of one of them, and 0 when no node is integrated.  It bounds
    the speed with which every node leaves the call: an integrated node leaves
    at 0.92 times its observed speed capped at 5, any other node at rest.  In
    focus mode the call returns 0 whatever the velocities are. *)
Theorem free_mode_speed_bound (dragState : DragState R) (random : nat -> R)
    (focusedNodeId : option string) (focusedSubtreeIds : option (gset string))
    (nodes : list (CloudNode R)) :
  let r := applyForces dragState random focusedNodeId false focusedSubtreeIds nodes in
  let integrated := integratedAt dragState focusedNodeId focusedSubtreeIds nodes in
  let speed := observedSpeed dragState random focusedNodeId focusedSubtreeIds nodes in
  (forall k, integrated k -> speed k <= sim_maxVelocity r)%R /\
  ((exists k, integrated k /\ sim_maxVelocity r = speed k) \/
   ((forall k, ~ integrated k) /\ sim_maxVelocity r = 0%R)) /\
  (forall k n', sim_nodes r !! k = Some n' ->
     (speed_of n' <= sim_maxVelocity r)%R /\
     (integrated k -> speed_of n' = 0.92 * Rmin (speed k) 5)%R /\
     (~ integrated k -> speed_of n' = 0%R)) /\
  sim_maxVelocity (applyForces dragState random focusedNodeId true focusedSubtreeIds nodes)
  = 0%R.
Proof.
  cbv zeta.
  destruct (returned_max dragState random focusedNodeId focusedSubtreeIds nodes)
    as [Hub Hmax].
  split; [exact Hub|]. split; [exact Hmax|]. split.
  - intros k n' Hk. split; [by eapply free_mode_bound|].
    by apply speed_after.
  - rewrite applyForces_focus by done. cbn [sim_maxVelocity]. apply lit_0.
Qed.

Lemma free_mode_speed_bound_witness :
  let r := applyForces initialDragState example_random_R None false None example_nodes_R in
  let integrated := integratedAt initialDragState None None example_nodes_R in
  let speed := observedSpeed initialDragState example_random_R None None example_nodes_R in
  integrated 2%nat /\ ~ integrated 0%nat /\
  (speed 2%nat <= sim_maxVelocity r)%R /\
  (exists k, integrated k /\ sim_maxVelocity r = speed k) /\
  (forall n', sim_nodes r !! 2%nat = Some n' ->
     speed_of n' <= sim_maxVelocity r /\ speed_of n' = 0.92 * Rmin (speed 2%nat) 5)%R /\
  (forall n', sim_nodes r !! 0%nat = Some n' -> speed_of n' = 0%R) /\
  sim_maxVelocity (applyForces initialDragState example_random_R None true None
                               example_nodes_R) = 0%R.
Proof.
  intros r integrated speed.
  assert (Hb : integrated 2%nat).
  { eexists. split; [reflexivity|]. split; reflexivity. }
  assert (Hg : ~ integrated 0%nat).
  { intros (n & Hn & _ & Hl). injection Hn as <-. discriminate Hl. }
  destruct (free_mode_speed_bound initialDragState example_random_R None None example_nodes_R)
    as (Hub & Hmax & Hafter & Hfocus).
  split; [exact Hb|]. split; [exact Hg|]. split; [exact (Hub 2%nat Hb)|]. split.
  - destruct Hmax as [Hsome|[Hnone _]]; [exact Hsome|]. destruct (Hnone 2%nat Hb).
  - split; [|split; [|exact Hfocus]].
    + intros n' Hn'. destruct (Hafter 2%nat n' Hn') as (Hle & Hint & _).
      split; [exact Hle|exact (Hint Hb)].
    + intros n' Hn'. destruct (Hafter 0%nat n' Hn') as (_ & _ & Hrest). exact (Hrest Hg).
Defined.

(** C4 as stated fails: in focus mode the moving background task ["b"] keeps
    85% of its velocity, and the call returns 0. *)
Lemma speed_bound_fails_in_focus_mode :
  ~ bounds_speeds (applyForces initialDragState example_random (Some "a") true
                               (Some {[ "a" ]}) example_nodes).
Proof.
  intros Hbound.
  specialize (Hbound (dampBackground
                        (mkCloudNode "b" task (lit 10) (lit 0) (lit 3) (lit 4)
                                     (lit 45) (Some "g")))).
  assert (Hfalse : true = false); [|discriminate].
  rewrite <- Hbound.
  - vm_compute. reflexivity.
  - apply list_elem_of_lookup. exists 2. vm_compute. reflexivity.
Qed.

(** * Coverage and containment of the synthesized shapes *)

Section ContainmentClaim.
Local Open Scope R_scope.

Lemma coverage_at_least (w h : R) (c : Cloud R) :
  Rmax w h / 2 <= coverageR (computeMorphPuffs w h c).
Proof.
  rewrite coverageR_computeMorphPuffs.
  unfold Rmax. repeat destruct (Rle_dec _ _); lra.
Qed.

(** C6 (exact arithmetic).  [computeMorphPuffs] is private; it is called by
    [layoutFocusedContent] with the measured content bounds plus 2 x 40 and
    2 x 32 of padding, and by [layoutChildContent] with the bounds plus
    2 x 30 and 2 x 25.  For bounds that are not negative, every shape so
    synthesized has coverage radius max(requiredW/2, requiredH/2) + 25, at
    least max(requiredW, requiredH)/2, and the outer edge (distance of the
    centre from the origin plus radius) of every target puff, the clamped
    ring puffs of the child profile among them, is within the coverage
    radius.  For [layoutChildContent] this is for a cloud in child mode, as
    [setChildOfFocused(true)] calls it, or for content at least 7 wide or 17
    high, which the 16 x 16 checkbox of the child content ensures when
    [computeRequiredSizeNow] calls it on a cloud whose flag is not set.  For
    any required size at all, the coverage radius has the stated value, and
    the puffs are inside when it is at least 32.5 (child profile) or 58.5
    (focused profile). *)
Theorem shape_coverage_and_containment (b_width b_height : R) (c : Cloud R) :
  0 <= b_width ->
  0 <= b_height ->
  let focusedShape := (layoutFocusedContent b_width b_height c).2 in
  let childShape := (layoutChildContent b_width b_height c).2 in
  (coverageR focusedShape = Rmax ((b_width + 80) / 2) ((b_height + 64) / 2) + 25 /\
   Rmax (b_width + 80) (b_height + 64) / 2 <= coverageR focusedShape /\
   Forall (inside (coverageR focusedShape)) (targetPuffs focusedShape)) /\
  (coverageR childShape = Rmax ((b_width + 60) / 2) ((b_height + 50) / 2) + 25 /\
   Rmax (b_width + 60) (b_height + 50) / 2 <= coverageR childShape /\
   (isChildOfFocusedNode c = true \/ 7 <= b_width \/ 17 <= b_height ->
    Forall (inside (coverageR childShape)) (targetPuffs childShape))) /\
  (forall requiredW requiredH,
     let shape := computeMorphPuffs requiredW requiredH c in
     coverageR shape = Rmax (requiredW / 2) (requiredH / 2) + 25 /\
     Rmax requiredW requiredH / 2 <= coverageR shape /\
     ((if isChildOfFocusedNode c then 32.5 else 58.5) <= coverageR shape ->
      Forall (inside (coverageR shape)) (targetPuffs shape))).
Proof.
  intros Hw Hh. cbv zeta.
  unfold layoutFocusedContent, layoutChildContent, PADDING_X, PADDING_Y. cbn [fst snd].
  assert (Hfw : (b_width + lit 40 * lit 2)%num = b_width + 80) by (real_ops; lra).
  assert (Hfh : (b_height + lit 32 * lit 2)%num = b_height + 64) by (real_ops; lra).
  assert (Hcw : (b_width + lit 30 * lit 2)%num = b_width + 60) by (real_ops; lra).
  assert (Hch : (b_height + lit 25 * lit 2)%num = b_height + 50) by (real_ops; lra).
  rewrite Hfw, Hfh, Hcw, Hch. split_and!.
  - apply coverageR_computeMorphPuffs.
  - apply coverage_at_least.
  - apply computeMorphPuffs_inside. rewrite coverageR_computeMorphPuffs.
    pose proof (Rmax_l ((b_width + 80) / 2) ((b_height + 64) / 2)).
    destruct (isChildOfFocusedNode c); lra.
  - apply coverageR_computeMorphPuffs.
  - apply coverage_at_least.
  - intros Hmode. apply computeMorphPuffs_inside. rewrite coverageR_computeMorphPuffs.
    pose proof (Rmax_l ((b_width + 60) / 2) ((b_height + 50) / 2)).
    pose proof (Rmax_r ((b_width + 60) / 2) ((b_height + 50) / 2)).
    destruct (isChildOfFocusedNode c); [lra|].
    destruct Hmode as [Hmode|[Hwide|Hhigh]]; [done|lra|lra].
  - intros requiredW requiredH. split_and!.
    + apply coverageR_computeMorphPuffs.
    + apply coverage_at_least.
    + apply computeMorphPuffs_inside.
Qed.

Lemma shape_coverage_and_containment_witness :
  let focusedShape := (layoutFocusedContent 16 16 example_childCloud).2 in
  let childShape := (layoutChildContent 16 16 example_childCloud).2 in
  0 <= 16 /\ isChildOfFocusedNode example_childCloud = true /\
  (coverageR focusedShape = 73 /\
   Forall (inside (coverageR focusedShape)) (targetPuffs focusedShape)) /\
  (coverageR childShape = 63 /\
   Forall (inside (coverageR childShape)) (targetPuffs childShape)).
Proof.
  intros focusedShape childShape.
  assert (H16 : 0 <= 16) by lra.
  destruct (shape_coverage_and_containment 16 16 example_childCloud H16 H16)
    as ((Hfr & _ & Hfin) & (Hcr & _ & Hcin) & _).
  split; [exact H16|]. split; [reflexivity|]. split; [split; [|exact Hfin]|split].
  - unfold focusedShape. rewrite Hfr. rewrite Rmax_left; lra.
  - unfold childShape. rewrite Hcr. rewrite Rmax_left; lra.
  - apply Hcin. by left.
Defined.
End ContainmentClaim.

(** * Degenerate distances in binary64 *)

Section FloatFacts.
Implicit Types (x y f g : float).

Lemma SFsub_diag (v : spec_float) :
  SF64sub v v = S754_nan \/ exists s, SF64sub v v = S754_zero s.
Proof.
  destruct v as [s|s| |s m e]; unfold SF64sub, SFsub.
  - right. destruct s; eauto.
  - left. by destruct s.
  - by left.
  - right. exists false. rewrite Z.sub_diag. done.
Qed.

Lemma SFeqb_same (v w : spec_float) :
  SFeqb v w = true ->
  (exists s t, v = S754_zero s /\ w = S754_zero t) \/ v = w.
Proof.
  unfold SFeqb, SFcompare.
  destruct v as [s|s| |s m e], w as [t|t| |t m' e'];
    try destruct s; try destruct t; simpl; try discriminate; eauto.
  - destruct (e ?= e')%Z eqn:He; simpl; try discriminate.
    apply Z.compare_eq in He as ->.
    destruct (PosDef.Pos.compare_cont Eq m m') eqn:Hm; simpl; try discriminate.
    apply Pos.compare_eq in Hm as ->. by right.
  - destruct (e ?= e')%Z eqn:He; simpl; try discriminate.
    apply Z.compare_eq in He as ->.
    destruct (PosDef.Pos.compare_cont Eq m m') eqn:Hm; simpl; try discriminate.
    apply Pos.compare_eq in Hm as ->. by right.
Qed.

Lemma sub_same x y : sameCoordinate x y -> zero_or_nan (x - y) /\ zero_or_nan (y - x).
Proof.
  unfold zero_or_nan. rewrite !FloatAxioms.sub_spec.
  intros [->|Heq].
  - split; apply SFsub_diag.
  - rewrite FloatAxioms.eqb_spec in Heq.
    apply SFeqb_same in Heq as [(s & t & -> & ->)| ->].
    + split; right; destruct s, t; simpl; eauto.
    + split; apply SFsub_diag.
Qed.

Lemma mul_zero_or_nan f g : zero_or_nan f -> zero_or_nan g -> zero_or_nan (f * g).
Proof.
  unfold zero_or_nan. rewrite FloatAxioms.mul_spec.
  intros [->|[s ->]] [->|[t ->]]; simpl; eauto.
Qed.

Lemma add_zero_or_nan f g : zero_or_nan f -> zero_or_nan g -> zero_or_nan (f + g).
Proof.
  unfold zero_or_nan. rewrite FloatAxioms.add_spec.
  intros [->|[s ->]] [->|[t ->]]; simpl; eauto.
  right. destruct s, t; eauto.
Qed.

Lemma sqrt_zero_or_nan f : zero_or_nan f -> zero_or_nan (PrimFloat.sqrt f).
Proof.
  unfold zero_or_nan. rewrite FloatAxioms.sqrt_spec.
  intros [->|[s ->]]; simpl; eauto.
Qed.

(** Such a float is not greater than 0: the tests [dist > 0] and
    [distSq > 0] fail on it. *)
Lemma not_positive f : zero_or_nan f -> lt (lit 0) f = false.
Proof.
  unfold lt, float_number. rewrite FloatAxioms.ltb_spec.
  intros [->|[s ->]]; reflexivity.
Qed.

Lemma distSq_not_positive (dx dy : float) :
  zero_or_nan dx -> zero_or_nan dy -> lt (lit 0) (add (mul dx dx) (mul dy dy)) = false.
Proof.
  intros Hx Hy. apply not_positive.
  apply add_zero_or_nan; by apply mul_zero_or_nan.
Qed.

Lemma dist_not_positive (dx dy : float) :
  zero_or_nan dx -> zero_or_nan dy ->
  lt (lit 0) (sqrt (add (mul dx dx) (mul dy dy))) = false.
Proof.
  intros Hx Hy. apply not_positive, sqrt_zero_or_nan.
  apply add_zero_or_nan; by apply mul_zero_or_nan.
Qed.
End FloatFacts.

(** * The array reads of [applyForces] stay inside the array *)

Section ChecksPass.
Context {num : Type} `{!JsNumber num}.

Variable dragState : DragState num.
Variable random : nat -> num.
Variable focusedNodeId : option string.
Variable focusedSubtreeIds : option (gset string).

Lemma repel_length isDragged i j (nodes : list (CloudNode num)) :
  length (repel dragState isDragged i j nodes) = length nodes.
Proof. apply (repel_step dragState isDragged i j nodes). Qed.

Lemma repel_foldE isDragged i (js : list nat) (nodes : list (CloudNode num)) :
  Forall (fun j => j < length nodes) js ->
  foldl (fun acc j =>
           ns ← acc; ns !! j ≫= fun _ => Some (repel dragState isDragged i j ns))
        (Some nodes) js
  = Some (foldl (fun ns j => repel dragState isDragged i j ns) nodes js).
Proof.
  intros Hjs. revert nodes Hjs. induction js as [|j js IH]; intros nodes Hjs; [done|].
  apply Forall_cons in Hjs as [Hj Hjs]. cbn [foldl mbind option_bind].
  destruct (lookup_lt_is_Some_2 _ _ Hj) as [nodeB ->]. cbn [mbind option_bind].
  apply IH. rewrite repel_length. exact Hjs.
Qed.

Lemma repelLoopE_returns isDragged i (nodes : list (CloudNode num)) :
  repelLoopE dragState isDragged i nodes = Some (repelLoop dragState isDragged i nodes).
Proof.
  unfold repelLoopE, repelLoop. apply repel_foldE.
  apply Forall_seq. intros j Hj. lia.
Qed.

Lemma simulateNodeE_returns inFocusMode nodeMap isDragged i (st : Sim num) :
  i < length (sim_nodes st) ->
  simulateNodeE dragState random inFocusMode nodeMap isDragged i st
  = Some (simulateNode dragState random inFocusMode nodeMap isDragged i st).
Proof.
  intros Hi. unfold simulateNodeE, simulateNode.
  rewrite repelLoopE_returns. cbn [mbind option_bind].
  set (pushed := pushFromDrag _ _ _).
  assert (Hlen : length pushed = length (sim_nodes st)).
  { unfold pushed. fold (forces dragState inFocusMode nodeMap isDragged i (sim_nodes st)).
    apply forces_step. }
  destruct (lookup_lt_is_Some_2 pushed i) as [nodeA ->]; [by rewrite Hlen|].
  cbn [mbind option_bind]. by destruct (jitterNode _ _ _).
Qed.

Lemma stepNodeE_returns inFocusMode nodeMap focusedNode i (st : Sim num) :
  i < length (sim_nodes st) ->
  stepNodeE dragState random focusedNodeId inFocusMode focusedSubtreeIds
            nodeMap focusedNode i st
  = Some (stepNode dragState random focusedNodeId inFocusMode focusedSubtreeIds
                   nodeMap focusedNode i st).
Proof.
  intros Hi. unfold stepNodeE, stepNode.
  destruct (lookup_lt_is_Some_2 _ _ Hi) as [nodeA ->]. cbn [mbind option_bind].
  repeat case_match; try done. by apply simulateNodeE_returns.
Qed.

Lemma stepsE_return inFocusMode nodeMap focusedNode (indices : list nat) (st : Sim num) :
  Forall (fun i => i < length (sim_nodes st)) indices ->
  foldl (fun acc i =>
           st ← acc;
           stepNodeE dragState random focusedNodeId inFocusMode focusedSubtreeIds
                     nodeMap focusedNode i st)
        (Some st) indices
  = Some (steps dragState random focusedNodeId inFocusMode focusedSubtreeIds
                nodeMap focusedNode indices st).
Proof.
  intros His. revert st His. induction indices as [|i indices IH]; intros st His; [done|].
  apply Forall_cons in His as [Hi His]. cbn [foldl mbind option_bind].
  rewrite stepNodeE_returns by done. rewrite steps_cons. apply IH.
  eapply Forall_impl; [exact His|]. intros k Hk. cbv beta in *.
  by rewrite (proj1 (stepNode_step dragState random focusedNodeId inFocusMode
                       focusedSubtreeIds nodeMap focusedNode i st)).
Qed.

Lemma applyForcesE_returns inFocusMode (nodes : list (CloudNode num)) :
  applyForcesE dragState random focusedNodeId inFocusMode focusedSubtreeIds nodes
  = Some (applyForces dragState random focusedNodeId inFocusMode focusedSubtreeIds nodes).
Proof.
  unfold applyForcesE, applyForces.
  apply (stepsE_return inFocusMode (buildNodeMap nodes)
           (lookupFocusedNode focusedNodeId (buildNodeMap nodes) nodes)
           (seq 0 (length nodes)) (mkSim nodes (lit 0) 0)).
  apply Forall_seq. intros j Hj. cbn [sim_nodes]. lia.
Qed.
End ChecksPass.

(** * The guards of the three forces, in binary64 *)

Section SimulatorFloat.
Variable dragState : DragState float.

Lemma repel_coincident isDragged i j (nodes : list (CloudNode float)) a b :
  nodes !! i = Some a -> nodes !! j = Some b ->
  sameCoordinate (node_x a) (node_x b) -> sameCoordinate (node_y a) (node_y b) ->
  repel dragState isDragged i j nodes = nodes.
Proof.
  intros Hi Hj Hx Hy. unfold repel. rewrite Hi, Hj.
  destruct (isDragging dragState && _); [done|].
  destruct (_ || _); [done|].
  rewrite distSq_not_positive.
  - by rewrite andb_false_r.
  - apply (sub_same _ _ Hx).
  - apply (sub_same _ _ Hy).
Qed.

Lemma pushFromDrag_coincident i (nodes : list (CloudNode float)) a :
  nodes !! i = Some a ->
  sameCoordinate (node_x a) (drag_x dragState) ->
  sameCoordinate (node_y a) (drag_y dragState) ->
  pushFromDrag dragState i nodes = nodes.
Proof.
  intros Hi Hx Hy. unfold pushFromDrag. rewrite Hi.
  destruct (drag_nodeId dragState) as [d|]; [|done].
  destruct (truthy_string d); [|done].
  rewrite dist_not_positive.
  - by rewrite andb_false_r.
  - apply (sub_same _ _ Hx).
  - apply (sub_same _ _ Hy).
Qed.

Lemma attractToParent_coincident inFocusMode nodeMap i (nodes : list (CloudNode float))
    a pid p parent :
  nodes !! i = Some a ->
  node_parentId a = Some pid ->
  nodeMap !! pid = Some p -> nodes !! p = Some parent ->
  sameCoordinate (node_x a) (node_x parent) ->
  sameCoordinate (node_y a) (node_y parent) ->
  attractToParent inFocusMode nodeMap i nodes = nodes.
Proof.
  intros Hi Hpid Hmap Hp Hx Hy. unfold attractToParent.
  rewrite Hi, Hpid, Hmap. cbn [mbind option_bind]. rewrite Hp.
  destruct (_ && _); [|done].
  rewrite dist_not_positive; [done| |].
  - apply (sub_same _ _ Hx).
  - apply (sub_same _ _ Hy).
Qed.
End SimulatorFloat.

(** C7. Degenerate inputs, in binary64, the numbers the simulator computes
    with.  The call never raises: with the two array reads [nodes[i]] and
    [nodes[j]] made fallible, [applyForcesE] returns what [applyForces]
    returns, for every input; on no nodes that is no nodes, 0, and no call of
    [Math.random].  A pair at identical coordinates fails the test
    [distSq > 0] and is skipped by the repulsion; a node at the drag point
    fails [dist > 0] and is skipped by the push and the wake; a node at its
    parent's position fails [dist > 0] and is skipped by the attraction.  In
    each case the node list is left as it was: no quotient by the zero
    distance is formed, and no NaN enters a velocity.  Identical means the
    same value or equal under [===]; the values may be any floats. *)
Theorem simulator_degenerate_inputs (dragState : DragState float) (random : nat -> float)
    (focusedNodeId : option string) (inFocusMode : bool)
    (focusedSubtreeIds : option (gset string)) (nodes : list (CloudNode float)) :
  applyForcesE dragState random focusedNodeId inFocusMode focusedSubtreeIds nodes
  = Some (applyForces dragState random focusedNodeId inFocusMode focusedSubtreeIds nodes) /\
  applyForcesE dragState random focusedNodeId inFocusMode focusedSubtreeIds []
  = Some (mkSim [] (lit 0) 0) /\
  (forall isDragged i j a b,
     nodes !! i = Some a -> nodes !! j = Some b ->
     sameCoordinate (node_x a) (node_x b) -> sameCoordinate (node_y a) (node_y b) ->
     repel dragState isDragged i j nodes = nodes) /\
  (forall i a,
     nodes !! i = Some a ->
     sameCoordinate (node_x a) (drag_x dragState) ->
     sameCoordinate (node_y a) (drag_y dragState) ->
     pushFromDrag dragState i nodes = nodes) /\
  (forall nodeMap i a pid p parent,
     nodes !! i = Some a ->
     node_parentId a = Some pid -> nodeMap !! pid = Some p -> nodes !! p = Some parent ->
     sameCoordinate (node_x a) (node_x parent) ->
     sameCoordinate (node_y a) (node_y parent) ->
     attractToParent inFocusMode nodeMap i nodes = nodes).
Proof.
  split_and!.
  - apply applyForcesE_returns.
  - reflexivity.
  - intros. by eapply repel_coincident.
  - intros. by eapply pushFromDrag_coincident.
  - intros. by eapply attractToParent_coincident.
Qed.

Lemma simulator_degenerate_inputs_witness :
  let g : CloudNode float := mkCloudNode "g" milestone (lit 7) (lit 3) (lit 0) (lit 0) (lit 80) None in
  let a : CloudNode float := mkCloudNode "a" task (lit 7) (lit 3) (lit 1) (lit 0) (lit 45) (Some "g") in
  let b : CloudNode float := mkCloudNode "b" task (lit 7) (lit 3) (lit 0) (lit 0) (lit 45) (Some "g") in
  example_overlap !! 1%nat = Some a /\
  example_overlap !! 2%nat = Some b /\
  drag_nodeId example_drag = Some "b" /\
  applyForcesE example_drag example_random None false None example_overlap
  = Some (applyForces example_drag example_random None false None example_overlap) /\
  repel example_drag false 1 2 example_overlap = example_overlap /\
  pushFromDrag example_drag 1 example_overlap = example_overlap /\
  attractToParent false (buildNodeMap example_overlap) 1 example_overlap = example_overlap.
Proof.
  intros g a b.
  assert (Ha : example_overlap !! 1%nat = Some a) by reflexivity.
  assert (Hb : example_overlap !! 2%nat = Some b) by reflexivity.
  assert (Hsame : forall x : float, sameCoordinate x x) by (intros x; by left).
  destruct (simulator_degenerate_inputs example_drag example_random None false None
              example_overlap)
    as (Hreturns & _ & Hrepel & Hpush & Hattract).
  split; [exact Ha|]. split; [exact Hb|]. split; [reflexivity|].
  split; [exact Hreturns|].
  split; [apply (Hrepel false 1%nat 2%nat a b Ha Hb); apply Hsame|].
  split; [apply (Hpush 1%nat a Ha); apply Hsame|].
  apply (Hattract (buildNodeMap example_overlap) 1%nat a "g" 0%nat g Ha);
    try reflexivity; apply Hsame.
Defined.

(** * Reconciliation of the node graph *)

Section Reconcile.
Context {num : Type} `{!JsNumber num} `{!JsTrig num}.
Implicit Types (n e : CloudNode num).

(** [existingPositions] holds, for an id, the position of the last node of
    [existingNodes] with that id. *)
Lemma existingPositions_last (previous : list (CloudNode num)) i e :
  previous !! i = Some e ->
  (forall j e', i < j -> previous !! j = Some e' -> node_id e' <> node_id e) ->
  existingPositionsOf (Some previous) !! node_id e = Some (node_x e, node_y e).
Proof.
  intros Hi Hlast. unfold existingPositionsOf. rewrite existingPositions_foldl.
  assert (Hlen : i < length previous) by (by eapply lookup_lt_Some).
  destruct (list_find (fun n0 => node_id n0 = node_id e) (reverse previous))
    as [[k e1]|] eqn:Hfind.
  - apply list_find_Some in Hfind as (Hk & Hid & Hbefore).
    assert (Hklen : k < length previous).
    { apply lookup_lt_Some in Hk. by rewrite length_reverse in Hk. }
    rewrite reverse_lookup in Hk by done.
    destruct (decide (length previous - S k = i)) as [Heq|Hne].
    + rewrite Heq, Hi in Hk. by injection Hk as <-.
    + destruct (decide (i < length previous - S k)) as [Hlt|Hge].
      * destruct (Hlast _ e1 Hlt Hk Hid).
      * exfalso. apply (Hbefore (length previous - S i) e); [|lia|done].
        rewrite reverse_lookup by lia.
        replace (length previous - S (length previous - S i)) with i by lia. done.
  - apply list_find_None in Hfind. rewrite Forall_forall in Hfind.
    destruct (Hfind e); [|done]. apply elem_of_reverse. by eapply list_elem_of_lookup_2.
Qed.

Variable random : nat -> num.

(** A milestone node of the result is the node of a milestone of the tree,
    at the stored position when there is one. *)
Lemma milestoneNodes_at_stored ep focusedNode width height milestoneCount i milestones k n :
  n ∈ (milestoneNodes random ep focusedNode width height milestoneCount i milestones k).1 ->
  node_type n = milestone ->
  exists m, m ∈ milestones /\ node_id n = milestone_id m /\
    forall sx sy, milestone_x m = Some sx -> milestone_y m = Some sy ->
                  node_x n = sx /\ node_y n = sy.
Proof.
  revert i k. induction milestones as [|m rest IH]; intros i k; simpl.
  - by intros ?%elem_of_nil.
  - set (pos := match milestone_x m, milestone_y m with
                | Some sx, Some sy => (sx, sy) | _, _ => _ end).
    assert (Hpos : forall sx sy, milestone_x m = Some sx -> milestone_y m = Some sy ->
                                 pos = (sx, sy)).
    { intros sx sy Hx Hy. unfold pos. by rewrite Hx, Hy. }
    destruct pos as [mx my].
    destruct (taskNodes random ep focusedNode (milestone_id m) mx my
                        (length (milestone_tasks m)) 0 (milestone_tasks m) k)
      as [tasks k1] eqn:Htasks.
    destruct (milestoneNodes random ep focusedNode width height milestoneCount (S i) rest k1)
      as [others k2] eqn:Hrest. simpl.
    intros Hn Hty; apply elem_of_cons in Hn as [->|Hn]; [|apply elem_of_app in Hn as [Ht|Ho]].
    + exists m. split; [apply elem_of_cons; by left|]. split; [done|].
      intros sx sy Hx Hy. specialize (Hpos sx sy Hx Hy). by simplify_eq.
    + exfalso. eapply (taskNodes_spec random); [by erewrite Htasks|done].
    + destruct (IH (S i) k1) as (m' & Hm' & Hrest'); [by rewrite Hrest|done|].
      exists m'. split; [apply elem_of_cons; by right|done].
Qed.
End Reconcile.

(** C8, as the code has it.  Of the nodes [createNodes] returns, a task or
    subtask whose id occurs in [existingNodes] sits at the position of the
    last entry that has this id; a milestone node is the node of a milestone
    of the tree and sits at that milestone's stored position when it has
    one, whatever [existingNodes] holds, and every milestone with a stored
    position has such a node; and when every task of the tree occurs in
    [existingNodes], the result does not depend on [Math.random], so that
    two calls with the same arguments return the same nodes. *)
Theorem createNodes_reconciles {num : Type} `{!JsNumber num} `{!JsTrig num}
    (random : nat -> num) (milestones : list (Milestone num)) (width height : num)
    (focusedNode : option (CloudNode num)) (previous : list (CloudNode num))
    (n : CloudNode num) :
  n ∈ createNodes random milestones width height focusedNode (Some previous) ->
  (node_type n <> milestone ->
   forall i e, previous !! i = Some e -> node_id e = node_id n ->
     (forall j e', i < j -> previous !! j = Some e' -> node_id e' <> node_id n) ->
     node_x n = node_x e /\ node_y n = node_y e) /\
  (node_type n = milestone ->
   exists m, m ∈ milestones /\ node_id n = milestone_id m /\
     forall sx sy, milestone_x m = Some sx -> milestone_y m = Some sy ->
                   node_x n = sx /\ node_y n = sy) /\
  (forall m sx sy,
     m ∈ milestones -> milestone_x m = Some sx -> milestone_y m = Some sy ->
     mkCloudNode (milestone_id m) milestone sx sy (lit 0) (lit 0)
                 LAYOUT.MILESTONE_RADIUS None
     ∈ createNodes random milestones width height focusedNode (Some previous)) /\
  (Forall (fun m => Forall (fun t => exists e, e ∈ previous /\ node_id e = task_id t)
                           (milestone_tasks m)) milestones ->
   forall random',
     createNodes random' milestones width height focusedNode (Some previous)
     = createNodes random milestones width height focusedNode (Some previous)).
Proof.
  intros Hn. split_and!.
  - intros Hty i e Hi Hid Hlast.
    pose proof (milestoneNodes_spec random _ _ _ _ _ _ _ _ n Hn Hty) as Hkeep.
    rewrite <- Hid in Hlast.
    pose proof (existingPositions_last previous i e Hi Hlast) as Hpos.
    rewrite Hid in Hpos. specialize (Hkeep _ Hpos). by injection Hkeep as -> ->.
  - intros Hty. by eapply milestoneNodes_at_stored.
  - intros m sx sy Hm Hx Hy. unfold createNodes. by apply milestoneNodes_stored.
  - intros Hknown random'. unfold createNodes. apply milestoneNodes_known_tasks.
    eapply Forall_impl; [exact Hknown|]. intros m Hm. cbv beta in Hm.
    eapply Forall_impl; [exact Hm|]. intros t (e & He & Hid). cbv beta.
    rewrite <- Hid. by apply existingPositions_member.
Qed.

Lemma createNodes_reconciles_witness :
  let a := mkTask "a" false [mkSubtask "s" false] in
  let n := mkCloudNode "a" task 100%R 0%R (lit 0) (lit 0) (taskRadiusOf a) (Some "g") in
  let e := mkCloudNode "a" task 100%R 0%R 2%R 2%R 50%R (Some "g") in
  let nodes random :=
    createNodes random example_tree 800%R 600%R (Some example_focus)
                (Some example_previous_twice) in
  n ∈ nodes example_random_R /\
  example_previous_twice !! 0%nat = Some (mkCloudNode "a" task 1%R 1%R 0%R 0%R 50%R (Some "g")) /\
  example_previous_twice !! 2%nat = Some e /\
  (node_x n = node_x e /\ node_y n = node_y e) /\
  (forall random', nodes random' = nodes example_random_R).
Proof.
  intros a n e nodes.
  assert (Hn : n ∈ nodes example_random_R).
  { apply list_elem_of_lookup. exists 1%nat. reflexivity. }
  destruct (createNodes_reconciles example_random_R example_tree 800%R 600%R
              (Some example_focus) example_previous_twice n Hn)
    as (Hkept & _ & _ & Hsame).
  split; [exact Hn|]. split; [reflexivity|]. split; [reflexivity|]. split.
  - apply (Hkept ltac:(discriminate) 2%nat e); [reflexivity|reflexivity|].
    intros j e' Hj Hlook. apply lookup_lt_Some in Hlook. simpl in Hlook. lia.
  - apply Hsame. repeat constructor. exists e. split; [|reflexivity].
    apply list_elem_of_lookup. exists 2%nat. reflexivity.
Defined.

(** C8 as stated fails for milestones: the milestone is held in memory at
    (5, 5) and is rebuilt at its stored position (0, 0). *)
Lemma milestone_position_not_kept :
  ~ (forall n e,
       n ∈ createNodes example_random_R example_milestones 800%R 600%R None
                       (Some example_previous) ->
       e ∈ example_previous -> node_id e = node_id n ->
       node_x n = node_x e /\ node_y n = node_y e).
Proof.
  intros Hclaim.
  destruct (Hclaim (mkCloudNode "g" milestone 0%R 0%R (lit 0) (lit 0)
                                LAYOUT.MILESTONE_RADIUS None)
                   (mkCloudNode "g" milestone 5%R 5%R 0%R 0%R 80%R None)) as [Hx _].
  - apply list_elem_of_lookup. exists 0%nat. reflexivity.
  - apply list_elem_of_lookup. exists 0%nat. reflexivity.
  - reflexivity.
  - simpl in Hx. lra.
Qed.

(** * Settlement of the morph *)

Section MorphClaim.
Local Open Scope R_scope.

Lemma updateMorph_skipped (dt : R) (c : Cloud R) (k : nat) :
  morphComplete c = true -> Nat.iter k (updateMorph dt) c = c.
Proof.
  intros Hc. induction k as [|k IH]; simpl; [done|].
  rewrite IH. by apply updateMorph_complete.
Qed.


End MorphClaim.

